(** * Slither simulation core (slitherLogic.js): a shallow embedding

    JavaScript numbers are embedded as real numbers ([R]): [Math.cos],
    [Math.sin], [Math.hypot] and [Math.floor] are the real functions, and the
    statements below are the exact ones of which the floating-point program
    computes approximations.  The one place where rounding changes the control
    flow, the subtraction loop of [normalizeAngle], is also embedded over
    binary64 ([Module Binary64]).

    An exception thrown by the program ([TypeError] on a property read of
    [undefined]) is [None].  [Math.random] is a supply of numbers passed in. *)

From Stdlib Require Import String Reals Lra Lia List ZArith Bool Permutation Sorted.
From Stdlib Require Import Floats DecimalString DecimalNat.
Import ListNotations.
Open Scope R_scope.

(** ** Constants *)

Definition SEGMENT_SPACING : R := 8.
Definition HEAD_RADIUS : R := 10.
Definition BODY_RADIUS : R := 8.
Definition PELLET_RADIUS : R := 6.
Definition DEFAULT_SPEED : R := 120.
Definition TURN_SPEED : R := 4.
Definition PELLET_VALUE : R := 1.
Definition DEATH_PELLET_FRACTION : R := 0.4.
Definition INITIAL_LENGTH : nat := 15.
Definition PELLET_SPAWN_INTERVAL : R := 2.
Definition ARENA_PADDING : R := 40.

(** ** Data model *)

Record Point := mkPoint { px : R; py : R }.

Record Snake := mkSnake {
  id : string;
  segments : list Point;
  angle : R;
  speed : R;
  turnSpeed : R;
  color : string;
  isPlayer : bool
}.

Record Pellet := mkPellet { pel_x : R; pel_y : R; value : R }.

Record Bounds := mkBounds { width : R; height : R }.

Record GameState := mkState {
  snakes : list Snake;
  pellets : list Pellet;
  bounds : Bounds;
  nextSnakeId : nat;
  nextPelletSpawn : R
}.

(** ** Small helpers: exceptions and comparisons *)

Definition bind {A B} (m : option A) (f : A -> option B) : option B :=
  match m with Some a => f a | None => None end.

Notation "x <- m ;; k" := (bind m (fun x => k))
  (at level 61, m at next level, right associativity).

Definition Rltb (a b : R) : bool := if Rlt_dec a b then true else false.
Definition Rleb (a b : R) : bool := if Rle_dec a b then true else false.

(** [Math.floor] and the number of rounds of [for (g = 0; g < x; g++)]. *)
Definition floor (x : R) : Z := (up x - 1)%Z.
Definition ceil (x : R) : Z := (- floor (- x))%Z.

(** ** normalizeAngle

    [while (a > Math.PI) a -= 2 * Math.PI], with the number of rounds bounded
    by [fuel]: [None] is a loop still running when the fuel is spent. *)

Fixpoint while_gt (fuel : nat) (a : R) {struct fuel} : option R :=
  if Rgt_dec a PI then
    match fuel with
    | O => None
    | S f => while_gt f (a - 2 * PI)
    end
  else Some a.

Fixpoint while_lt (fuel : nat) (a : R) {struct fuel} : option R :=
  if Rlt_dec a (- PI) then
    match fuel with
    | O => None
    | S f => while_lt f (a + 2 * PI)
    end
  else Some a.

Definition normalizeAngle_fuel (fuel : nat) (a : R) : option R :=
  a1 <- while_gt fuel a ;; while_lt fuel a1.

(** A number of rounds that always suffices over the reals
    ([normalizeAngle_run]), so that the [None] case below does not occur. *)
Definition rounds (a : R) : nat := Z.to_nat (up (Rabs a / (2 * PI))).

Definition normalizeAngle (a : R) : R :=
  match normalizeAngle_fuel (rounds a) a with
  | Some r => r
  | None => a
  end.

(** ** normalizeAngle over binary64

    The same two loops on IEEE 754 doubles, the number type the program runs
    on.  [Math.PI] is the double nearest to pi. *)

Module Binary64.

Definition PI : float := 0x1.921fb54442d18p+1%float.

Fixpoint while_gt (fuel : nat) (a : float) {struct fuel} : option float :=
  if PrimFloat.ltb PI a then
    match fuel with
    | O => None
    | S f => while_gt f (PrimFloat.sub a (PrimFloat.mul 2 PI))
    end
  else Some a.

Fixpoint while_lt (fuel : nat) (a : float) {struct fuel} : option float :=
  if PrimFloat.ltb a (PrimFloat.opp PI) then
    match fuel with
    | O => None
    | S f => while_lt f (PrimFloat.add a (PrimFloat.mul 2 PI))
    end
  else Some a.

Definition normalizeAngle_fuel (fuel : nat) (a : float) : option float :=
  match while_gt fuel a with
  | Some a1 => while_lt fuel a1
  | None => None
  end.

(** The first statement of [moveSnake] that calls it:
    [normalizeAngle(targetAngle - angle)]. *)
Definition diff_fuel (fuel : nat) (targetAngle angle : float) : option float :=
  normalizeAngle_fuel fuel (PrimFloat.sub targetAngle angle).

(** A finite double that one round of the first loop leaves unchanged. *)
Definition big : float := 1e17%float.

End Binary64.

(** ** distSq, moveSnake *)

Definition distSq (a b : Point) : R :=
  let dx := px b - px a in
  let dy := py b - py a in
  dx * dx + dy * dy.

(** [Math.hypot] on two arguments. *)
Definition hypot (x y : R) : R := R_sqrt.sqrt (x * x + y * y).

(** The follow-the-leader loop of [moveSnake] over [segments[1..]]. *)
Fixpoint follow (ang : R) (prev : Point) (rest : list Point) : list Point :=
  match rest with
  | [] => []
  | curr :: tl =>
      let d := hypot (px prev - px curr) (py prev - py curr) in
      let next :=
        if Rle_dec d 1e-6 then
          mkPoint (px prev - cos ang * SEGMENT_SPACING)
                  (py prev - sin ang * SEGMENT_SPACING)
        else
          mkPoint (px prev + ((px curr - px prev) / d) * SEGMENT_SPACING)
                  (py prev + ((py curr - py prev) / d) * SEGMENT_SPACING)
      in
      next :: follow ang next tl
  end.

(** [head] is [undefined] for an empty [segments]; reading [head.x] throws. *)
Definition moveSnake (snake : Snake) (dt targetAngle : R) : option Snake :=
  let diff := normalizeAngle (targetAngle - angle snake) in
  let angle1 := angle snake + diff * Rmin 1 (turnSpeed snake * dt) in
  let angle2 := normalizeAngle angle1 in
  let dx := cos angle2 * speed snake * dt in
  let dy := sin angle2 * speed snake * dt in
  head <- nth_error (segments snake) 0 ;;
  let newHead := mkPoint (px head + dx) (py head + dy) in
  Some {| id := id snake;
          segments := newHead :: follow angle2 newHead (tl (segments snake));
          angle := angle2;
          speed := speed snake;
          turnSpeed := turnSpeed snake;
          color := color snake;
          isPlayer := isPlayer snake |}.

(** ** hitWall, headHitsBody *)

Definition hitWall (head : Point) (b : Bounds) : bool :=
  Rltb (px head - HEAD_RADIUS) 0
  || Rltb (py head - HEAD_RADIUS) 0
  || Rltb (width b) (px head + HEAD_RADIUS)
  || Rltb (height b) (py head + HEAD_RADIUS).

Definition headHitsBody (snakeId : string) (head : Point)
    (allSnakes : list Snake) : bool :=
  let r := HEAD_RADIUS + BODY_RADIUS in
  let rSq := r * r in
  existsb (fun snake =>
    if String.eqb (id snake) snakeId then false
    else existsb (fun seg => Rltb (distSq head seg) rSq) (segments snake))
    allSnakes.

(** ** tick *)

(** [targetAngles]: the object read at [targetAngles[s.id]]. *)
Definition TargetAngles := string -> option R.

Fixpoint mapM {A B} (f : A -> option B) (l : list A) : option (list B) :=
  match l with
  | [] => Some []
  | a :: tl => b <- f a ;; bs <- mapM f tl ;; Some (b :: bs)
  end.

(** [targetAngles[s.id] ?? s.angle] *)
Definition targetOf (targetAngles : TargetAngles) (s : Snake) : R :=
  match targetAngles (id s) with
  | Some t => t
  | None => angle s
  end.

Definition moveAll (dt : R) (targetAngles : TargetAngles)
    (l : list Snake) : option (list Snake) :=
  mapM (fun s => moveSnake s dt (targetOf targetAngles s)) l.

Definition pelletPos (p : Pellet) : Point := mkPoint (pel_x p) (pel_y p).

Definition pelletRadiusSq : R :=
  (PELLET_RADIUS + HEAD_RADIUS) * (PELLET_RADIUS + HEAD_RADIUS).

(** [for (let i = pellets.length - 1; i >= 0; i--)]: [i] rounds are left, the
    next one is at index [i - 1]. *)
Fixpoint eatLoop (head : option Point) (i : nat) (lengthGain : R)
    (pellets : list Pellet) : option (R * list Pellet) :=
  match i with
  | O => Some (lengthGain, pellets)
  | S j =>
      p <- nth_error pellets j ;;
      h <- head ;;
      if Rltb (distSq h (pelletPos p)) pelletRadiusSq then
        eatLoop head j (lengthGain + value p)
                (firstn j pellets ++ skipn (S j) pellets)
      else eatLoop head j lengthGain pellets
  end.

(** The body of the second [snakes.map]: eat, then grow at the tail.  The
    number of rounds of [for (g = 0; g < lengthGain; g++)] is [ceil]. *)
Definition feed (snake : Snake) (pellets : list Pellet)
    : option (Snake * list Pellet) :=
  let head := nth_error (segments snake) 0 in
  r <- eatLoop head (length pellets) 0 pellets ;;
  let (lengthGain, pellets') := r in
  if Rle_dec lengthGain 0 then Some (snake, pellets')
  else
    tail <- nth_error (segments snake) (length (segments snake) - 1) ;;
    let newSegments :=
      segments snake ++ repeat tail (Z.to_nat (ceil lengthGain)) in
    Some ({| id := id snake;
             segments := newSegments;
             angle := angle snake;
             speed := speed snake;
             turnSpeed := turnSpeed snake;
             color := color snake;
             isPlayer := isPlayer snake |}, pellets').

(** The second [snakes.map]; the closure updates the shared [pellets]. *)
Fixpoint feedAll (l : list Snake) (pellets : list Pellet)
    : option (list Snake * list Pellet) :=
  match l with
  | [] => Some ([], pellets)
  | s :: tl =>
      r <- feed s pellets ;;
      let (s', p1) := r in
      r' <- feedAll tl p1 ;;
      let (tl', p2) := r' in
      Some (s' :: tl', p2)
  end.

(** [deadIds]: a [Set], in insertion order. *)
Definition has (l : list string) (x : string) : bool :=
  existsb (String.eqb x) l.

Definition add (l : list string) (x : string) : list string :=
  if has l x then l else l ++ [x].

Fixpoint detect (b : Bounds) (all todo : list Snake) (deadIds : list string)
    : option (list string) :=
  match todo with
  | [] => Some deadIds
  | snake :: tl =>
      head <- nth_error (segments snake) 0 ;;
      if hitWall head b || headHitsBody (id snake) head all
      then detect b all tl (add deadIds (id snake))
      else detect b all tl deadIds
  end.

Definition nthZ {A} (l : list A) (i : Z) : option A :=
  if (i <? 0)%Z then None else nth_error l (Z.to_nat i).

(** The pellets one dead snake leaves (the inner [for] of the drop loop). *)
Definition dropPellets (dead : Snake) : option (list Pellet) :=
  let len := Z.of_nat (length (segments dead)) in
  let count := Z.max 1 (floor (IZR len * DEATH_PELLET_FRACTION)) in
  let step := Z.max 1 (floor (IZR len / IZR count)) in
  mapM (fun i : nat =>
          let idx := Z.min (Z.of_nat i * step) (len - 1) in
          seg <- nthZ (segments dead) idx ;;
          Some (mkPellet (px seg) (py seg) PELLET_VALUE))
       (seq 0 (Z.to_nat count)).

(** [for (const id of deadIds)], looking each id up in the state passed in. *)
Fixpoint dropAll (stateSnakes : list Snake) (deadIds : list string)
    (pellets : list Pellet) : option (list Pellet) :=
  match deadIds with
  | [] => Some pellets
  | i :: tl =>
      match find (fun s => String.eqb (id s) i) stateSnakes with
      | None => dropAll stateSnakes tl pellets
      | Some dead =>
          ps <- dropPellets dead ;;
          dropAll stateSnakes tl (pellets ++ ps)
      end
  end.

(** [random k] is the value of the call number [k] of [Math.random]. *)
Definition Random := nat -> R.

(** The state passed in is a value here.  (In the program [pellets] starts
    as an alias of [state.pellets], so the [push] of the drop and spawn steps
    also appends to the caller's array when no pellet was eaten; the arrays
    of segments are never written.) *)
Definition tick (random : Random) (state : GameState) (dt : R)
    (targetAngles : TargetAngles) : option (GameState * list string) :=
  let b := bounds state in
  let padding := ARENA_PADDING in
  let minX := padding in
  let maxX := width b - padding in
  let minY := padding in
  let maxY := height b - padding in
  moved <- moveAll dt targetAngles (snakes state) ;;
  r <- feedAll moved (pellets state) ;;
  let (grown, pellets1) := r in
  deadIds <- detect b grown grown [] ;;
  let alive := filter (fun s => negb (has deadIds (id s))) grown in
  pellets2 <- dropAll (snakes state) deadIds pellets1 ;;
  let nextPelletSpawn1 := nextPelletSpawn state - dt in
  let spawn := Rleb nextPelletSpawn1 0 in
  let pellets3 :=
    if spawn then
      pellets2 ++ [mkPellet (minX + random 0%nat * (maxX - minX))
                            (minY + random 1%nat * (maxY - minY))
                            PELLET_VALUE]
    else pellets2 in
  Some ({| snakes := alive;
           pellets := pellets3;
           bounds := b;
           nextSnakeId := nextSnakeId state;
           nextPelletSpawn :=
             if spawn then PELLET_SPAWN_INTERVAL else nextPelletSpawn1 |},
        deadIds).

Definition getSnakeLength (snake : Snake) : nat := length (segments snake).

(** The call in [SlitherPage]:
    [tick(current, dt, targetAngles, { playerSpeedMultiplier })].
    [tick] declares three parameters, so the fourth argument is bound to
    none of them. *)
Record TickOptions := mkTickOptions { playerSpeedMultiplier : R }.

Definition SlitherPage_tick (random : Random) (current : GameState) (dt : R)
    (targetAngles : TargetAngles) (options : TickOptions)
    : option (GameState * list string) :=
  tick random current dt targetAngles.

(** ** createInitialState *)

Record Options := mkOptions {
  opt_bounds : option Bounds;
  opt_numBots : option nat;
  opt_numPellets : option nat
}.

Definition colors : list string :=
  ["#33cc33"; "#e74c3c"; "#3498db"; "#f1c40f";
   "#9b59b6"; "#1abc9c"; "#e67e22"; "#2ecc71"]%string.

Definition playerColor : string := "#00ff88"%string.

(** The key [`${Math.floor(x / 50)},${Math.floor(y / 50)}`]: two such strings
    are equal exactly when the two pairs of integers are. *)
Definition cellKey (x y : R) : Z * Z := (floor (x / 50), floor (y / 50)).

Definition keyEqb (k1 k2 : Z * Z) : bool :=
  (fst k1 =? fst k2)%Z && (snd k1 =? snd k2)%Z.

Definition usedHas (used : list (Z * Z)) (key : Z * Z) : bool :=
  existsb (keyEqb key) used.

(** [do { ... } while (usedPositions.has(key))]; [k] counts the calls of
    [Math.random] made so far, [fuel] bounds the number of retries. *)
Fixpoint place (fuel : nat) (random : Random) (k : nat)
    (minX maxX minY maxY : R) (used : list (Z * Z)) {struct fuel}
    : option (R * R * (Z * Z) * nat) :=
  let x := minX + random k * (maxX - minX) in
  let y := minY + random (S k) * (maxY - minY) in
  let key := cellKey x y in
  if usedHas used key then
    match fuel with
    | O => None
    | S f => place f random (S (S k)) minX maxX minY maxY used
    end
  else Some (x, y, key, S (S k)).

Definition initialSegments (x y ang : R) : list Point :=
  map (fun s : nat =>
         mkPoint (x - cos ang * INR s * SEGMENT_SPACING)
                 (y - sin ang * INR s * SEGMENT_SPACING))
      (seq 0 INITIAL_LENGTH).

(** [`snake-${i}`] *)
Definition snakeName (i : nat) : string :=
  ("snake-" ++ NilEmpty.string_of_uint (Nat.to_uint i))%string.

(** The [for] loop over the bots: [n] rounds are left, the next one is
    round [i]. *)
Fixpoint spawnSnakes (fuel : nat) (random : Random)
    (minX maxX minY maxY : R) (n i k : nat) (used : list (Z * Z))
    : option (list Snake * nat) :=
  match n with
  | O => Some ([], k)
  | S n' =>
      r <- place fuel random k minX maxX minY maxY used ;;
      let '(x, y, key, k1) := r in
      let ang := random k1 * 2 * PI - PI in
      let player := Nat.eqb i 0 in
      let snake :=
        {| id := if player then "player"%string else snakeName i;
           segments := initialSegments x y ang;
           angle := ang;
           speed := DEFAULT_SPEED;
           turnSpeed := TURN_SPEED;
           color := if player then playerColor
                    else nth (i mod List.length colors) colors ""%string;
           isPlayer := player |} in
      r' <- spawnSnakes fuel random minX maxX minY maxY n' (S i) (S k1)
                        (key :: used) ;;
      let (rest, k2) := r' in
      Some (snake :: rest, k2)
  end.

Definition scatterPellets (random : Random) (minX maxX minY maxY : R)
    (numPellets k : nat) : list Pellet :=
  map (fun p : nat =>
         mkPellet (minX + random (k + 2 * p)%nat * (maxX - minX))
                  (minY + random (k + 2 * p + 1)%nat * (maxY - minY))
                  PELLET_VALUE)
      (seq 0 numPellets).

Definition createInitialState (fuel : nat) (random : Random)
    (options : Options) : option GameState :=
  let b := match opt_bounds options with
           | Some b => b
           | None => mkBounds 3000 3000
           end in
  let numBots := match opt_numBots options with Some n => n | None => 8%nat end in
  let numPellets :=
    match opt_numPellets options with Some n => n | None => 80%nat end in
  let padding := ARENA_PADDING in
  let minX := padding in
  let maxX := width b - padding in
  let minY := padding in
  let maxY := height b - padding in
  r <- spawnSnakes fuel random minX maxX minY maxY numBots 0 0 [] ;;
  let (snakes, k) := r in
  Some {| snakes := snakes;
          pellets := scatterPellets random minX maxX minY maxY numPellets k;
          bounds := b;
          nextSnakeId := numBots;
          nextPelletSpawn := PELLET_SPAWN_INTERVAL |}.

(** * SlitherPage: the frame loop

    The parts of the loop of [SlitherPage] that compute: the time step, the
    player's target, the boost, the call of [tick] and what is read off its
    result.  [computeTargetAngles] (botAI.js) is not among the sources: its
    result is the argument [botTargets].  [Date.now()] and
    [performance.now()] are arguments. *)

Definition PLAYER_TURN_RATE : R := 3.
Definition BOOST_BASE_DURATION_MS : R := 2000.
Definition BOOST_DURATION_PER_SCORE_MS : R := 50.
Definition BOOST_SPEED_MULTIPLIER : R := 1.5.
Definition BOOST_COOLDOWN_MS : R := 5000.


(** [Math.atan2(y, x)] on reals (the signs of zeros are not represented). *)
Definition atan2 (y x : R) : R :=
  if Rlt_dec 0 x then atan (y / x)
  else if Rlt_dec x 0 then
    if Rle_dec 0 y then atan (y / x) + PI else atan (y / x) - PI
  else if Rlt_dec 0 y then PI / 2
  else if Rlt_dec y 0 then - PI / 2
  else 0.

(** What the loop reads of the input devices: the face toggle, the angle of
    the head tracker, the pointer in world coordinates, the arrow keys
    ([-1], [0] or [1]). *)
Record Inputs := mkInputs {
  faceEnabled : bool;
  playerCVAngle : option R;
  playerMouseWorld : option Point;
  playerTurn : Z
}.

(** The [target] of the player; [head.y] is read, and may throw, only in the
    pointer branch. *)
Definition playerTarget (inp : Inputs) (playerSnake : Snake) (dt : R)
    : option R :=
  let head := nth_error (segments playerSnake) 0 in
  match (if faceEnabled inp then playerCVAngle inp else None) with
  | Some cv => Some (normalizeAngle cv)
  | None =>
      match playerMouseWorld inp with
      | Some m =>
          h <- head ;;
          Some (normalizeAngle (atan2 (py m - py h) (px m - px h)))
      | None =>
          if Z.eqb (playerTurn inp) 0 then Some (angle playerSnake)
          else Some (normalizeAngle
                       (angle playerSnake
                        + IZR (playerTurn inp) * PLAYER_TURN_RATE * dt))
      end
  end.

(** [{ ...targetAngles, player: target }] *)
Definition withPlayer (targetAngles : TargetAngles) (target : R)
    : TargetAngles :=
  fun i => if String.eqb i "player" then Some target else targetAngles i.

Definition frameTargets (inp : Inputs) (current : GameState) (dt : R)
    (botTargets : TargetAngles) : option TargetAngles :=
  match find isPlayer (snakes current) with
  | Some playerSnake =>
      target <- playerTarget inp playerSnake dt ;;
      Some (withPlayer botTargets target)
  | None => Some botTargets
  end.

(** The three refs of the boost, as the loop and the mouth callback read and
    write them. *)
Record BoostRefs := mkBoostRefs {
  speedBoostStartTime : option R;
  speedBoostEndTime : option R;
  speedBoostCooldownEndTime : option R
}.

(** [ref.current != null && now < ref.current] *)
Definition before (now : R) (ref : option R) : bool :=
  match ref with
  | Some t => Rltb now t
  | None => false
  end.

(** The callback [onMouthOpen], called at the time [now]. *)
Definition onMouthOpen (now : R) (current : GameState) (refs : BoostRefs)
    : BoostRefs :=
  if before now (speedBoostCooldownEndTime refs) then refs
  else if before now (speedBoostEndTime refs) then refs
  else
    match find isPlayer (snakes current) with
    | None => refs
    | Some playerSnake =>
        let scoreDuration :=
          INR (List.length (segments playerSnake))
          * BOOST_DURATION_PER_SCORE_MS in
        let duration := BOOST_BASE_DURATION_MS + scoreDuration in
        {| speedBoostStartTime := Some now;
           speedBoostEndTime := Some (now + duration);
           speedBoostCooldownEndTime := speedBoostCooldownEndTime refs |}
    end.

(** The boost part of a frame at the time [nowMs]: the end of a boost that
    is over, then [playerSpeedMultiplier]. *)
Definition frameBoost (nowMs : R) (refs : BoostRefs) : BoostRefs * R :=
  let refs1 :=
    match speedBoostEndTime refs with
    | Some e =>
        if Rle_dec e nowMs then
          {| speedBoostStartTime := None;
             speedBoostEndTime := None;
             speedBoostCooldownEndTime := Some (nowMs + BOOST_COOLDOWN_MS) |}
        else refs
    | None => refs
    end in
  (refs1,
   if before nowMs (speedBoostEndTime refs1) then BOOST_SPEED_MULTIPLIER
   else 1).


(** [playerWasAlive && deadIds.includes('player')] *)
Definition playerDied (current : GameState) (deadIds : list string) : bool :=
  existsb isPlayer (snakes current) && has deadIds "player".

(** [nextState.snakes.some((s) => s.isPlayer)] *)
Definition playerAliveNow (nextState : GameState) : bool :=
  existsb isPlayer (snakes nextState).

(** [nextState.snakes.length === 1 && nextState.snakes[0].isPlayer] *)
Definition onlyPlayerLeft (nextState : GameState) : bool :=
  match snakes nextState with
  | [s] => isPlayer s
  | _ => false
  end.

(** [[...state.snakes].sort((a, b) => getSnakeLength(b) - getSnakeLength(a))]:
    [Array.prototype.sort] is stable, and the stable sort of a list is
    unique; this is the insertion sort that keeps organisms of equal length
    in their order. *)
Fixpoint insertByLength (s : Snake) (l : list Snake) : list Snake :=
  match l with
  | [] => [s]
  | y :: tl =>
      if Nat.leb (getSnakeLength y) (getSnakeLength s) then s :: y :: tl
      else y :: insertByLength s tl
  end.

Definition sortByLength (l : list Snake) : list Snake :=
  fold_right insertByLength [] l.

(** [.slice(0, 10)] of it. *)
Definition leaderboard (state : GameState) : list Snake :=
  firstn 10 (sortByLength (snakes state)).

(** [handleRestart], as far as the boost goes: the refs of the start and the
    end are cleared, and so is the state the cooldown ref is read from. *)
Definition handleRestart (refs : BoostRefs) : BoostRefs :=
  {| speedBoostStartTime := None;
     speedBoostEndTime := None;
     speedBoostCooldownEndTime := None |}.

(** [update] of the cooldown effect, run at the time [now]: a cooldown that
    is over is cleared. *)
Definition update (now : R) (refs : BoostRefs) : BoostRefs :=
  match speedBoostCooldownEndTime refs with
  | Some c =>
      if Rle_dec c now then
        {| speedBoostStartTime := speedBoostStartTime refs;
           speedBoostEndTime := speedBoostEndTime refs;
           speedBoostCooldownEndTime := None |}
      else refs
  | None => refs
  end.

(** * SlitherView: the camera

    The drawing effect computes the camera from the state and the size of
    the canvas, and the pointer handler maps the pointer back to the
    world. *)

Record Camera := mkCamera { scale : R; camX : R; camY : R }.

(** [best?.segments.length ?? 0] *)
Definition lengthOr0 (best : option Snake) : nat :=
  match best with
  | Some b => List.length (segments b)
  | None => 0%nat
  end.

(** [snakes.reduce((best, s) => (s.segments.length >
    (best?.segments.length ?? 0) ? s : best), null)] *)
Definition longest (l : list Snake) : option Snake :=
  fold_left
    (fun best s =>
       if Nat.ltb (lengthOr0 best) (List.length (segments s)) then Some s
       else best)
    l None.

(** [(player ?? longest)?.segments[0] ?? { x: bounds.width / 2,
    y: bounds.height / 2 }] *)
Definition focus (state : GameState) : Point :=
  let centre := mkPoint (width (bounds state) / 2) (height (bounds state) / 2) in
  let player := find isPlayer (snakes state) in
  match (match player with
         | Some p => Some p
         | None => longest (snakes state)
         end) with
  | Some s =>
      match nth_error (segments s) 0 with
      | Some h => h
      | None => centre
      end
  | None => centre
  end.

Definition camera (canvasWidth canvasHeight : R) (state : GameState)
    : Camera :=
  let f := focus state in
  let scale :=
    Rmin (Rmin (canvasWidth / (width (bounds state) * 0.6))
               (canvasHeight / (height (bounds state) * 0.6)))
         1.5 in
  {| scale := scale;
     camX := canvasWidth / 2 - px f * scale;
     camY := canvasHeight / 2 - py f * scale |}.

(** Where a point of the world is drawn, after [ctx.translate(camX, camY)]
    and [ctx.scale(scale, scale)]. *)
Definition toCanvas (cam : Camera) (p : Point) : Point :=
  mkPoint (camX cam + px p * scale cam) (camY cam + py p * scale cam).

(** [handleMove]: the world position reported for a pointer at
    [(offsetX, offsetY)]. *)
Definition handleMove (cam : Camera) (offsetX offsetY : R) : Point :=
  mkPoint ((offsetX - camX cam) / scale cam) ((offsetY - camY cam) / scale cam).

(** * headTrackingConfig: the pure helpers of the head tracker *)

Definition NOSE_THRESHOLD : R := 0.06.
Definition NOSE_CENTER : R := 0.5.
Definition NOSE_OFFSET_SCALE : R := 70.
Definition NOSE_OFFSET_CLAMP : R := 16.

Inductive Direction := UP | DOWN | LEFT | RIGHT.

Definition HEAD_DIRECTIONS (d : Direction) : Point :=
  match d with
  | UP => mkPoint 0 (-1)
  | DOWN => mkPoint 0 1
  | LEFT => mkPoint (-1) 0
  | RIGHT => mkPoint 1 0
  end.

Definition getRawNoseDirection (normalizedNose : Point) (threshold : R)
    : option Direction :=
  let dx := px normalizedNose - NOSE_CENTER in
  let dy := py normalizedNose - NOSE_CENTER in
  if Rltb (Rabs dx) threshold && Rltb (Rabs dy) threshold then None
  else if Rgt_dec (Rabs dx) (Rabs dy) then
    Some (if Rgt_dec dx 0 then RIGHT else LEFT)
  else Some (if Rgt_dec dy 0 then DOWN else UP).

Definition getMirroredHeadDirection (normalizedNose : Point) (threshold : R)
    : option Direction :=
  match getRawNoseDirection normalizedNose threshold with
  | None => None
  | Some LEFT => Some RIGHT
  | Some RIGHT => Some LEFT
  | Some raw => Some raw
  end.

(** [[...values].sort((a, b) => a - b)] *)
Fixpoint insertAscending (a : R) (l : list R) : list R :=
  match l with
  | [] => [a]
  | y :: tl =>
      if Rle_dec a y then a :: y :: tl else y :: insertAscending a tl
  end.

Definition sortAscending (l : list R) : list R :=
  fold_right insertAscending [] l.

Definition median (values : list R) : R :=
  match values with
  | [] => 0
  | _ :: _ =>
      let sorted := sortAscending values in
      let mid := (List.length sorted / 2)%nat in
      if Nat.eqb (List.length sorted mod 2) 0
      then (nth (mid - 1) sorted 0 + nth mid sorted 0) / 2
      else nth mid sorted 0
  end.

Definition medianPoint (points : list Point) : Point :=
  match points with
  | [] => mkPoint 0.5 0.5
  | _ :: _ => mkPoint (median (map px points)) (median (map py points))
  end.

(** The two loops at the end are those of [normalizeAngle]. *)
Definition getNoseAngleRadians (normalizedNose : Point) (mirror : bool)
    (threshold : R) : option R :=
  let dx := px normalizedNose - NOSE_CENTER in
  let dy := py normalizedNose - NOSE_CENTER in
  let dist := hypot dx dy in
  if Rlt_dec dist threshold then None
  else
    let angle := atan2 dy (if mirror then - dx else dx) in
    Some (normalizeAngle angle).

Definition noseOffsetFromNormalized (normalizedNose : Point) : Point :=
  mkPoint
    (Rmax (- NOSE_OFFSET_CLAMP)
       (Rmin NOSE_OFFSET_CLAMP
          (- (px normalizedNose - NOSE_CENTER) * NOSE_OFFSET_SCALE)))
    (Rmax (- NOSE_OFFSET_CLAMP)
       (Rmin NOSE_OFFSET_CLAMP
          ((py normalizedNose - NOSE_CENTER) * NOSE_OFFSET_SCALE))).

(** * drawTrackingOverlay: where the nose and the arrow are drawn *)

Definition ARROW_LENGTH_MIN : R := 28.
Definition ARROW_LENGTH_MAX : R := 130.
Definition DISTANCE_FOR_MAX_ARROW : R := 0.18.

Definition getArrowLength (distance : R) : R :=
  let t :=
    Rmin 1
      (Rmax 0
         ((distance - NOSE_THRESHOLD)
          / (DISTANCE_FOR_MAX_ARROW - NOSE_THRESHOLD))) in
  ARROW_LENGTH_MIN + t * (ARROW_LENGTH_MAX - ARROW_LENGTH_MIN).

(** [drawAngle]: the angle of the options when there is one, else the angle
    of the direction. *)
Definition drawAngle (optionsAngle : option R) (direction : option Direction)
    : option R :=
  match optionsAngle with
  | Some a => Some a
  | None =>
      match direction with
      | Some RIGHT => Some 0
      | Some LEFT => Some PI
      | Some UP => Some (- PI / 2)
      | Some DOWN => Some (PI / 2)
      | None => None
      end
  end.

(** The end [(ex, ey)] of the arrow drawn from [(cx, cy)]. *)
Definition arrowEnd (c : Point) (arrowLength a : R) : Point :=
  mkPoint (px c + arrowLength * cos a) (py c + arrowLength * sin a).

(** * ResizableCameraPanel: size and position of the panel *)

Definition MIN_WIDTH : R := 200.
Definition MIN_HEIGHT : R := 150.
Definition MAX_WIDTH : R := 480.
Definition MAX_HEIGHT : R := 360.
Definition GAP : R := 16.

(** A stored object whose [width] and [height] are numbers. *)
Record Saved := mkSaved {
  sv_width : R;
  sv_height : R;
  sv_x : option R;
  sv_y : option R
}.

(** [loadSaved] from the parsed object on; [None] stands for nothing
    stored, or nothing with a numeric width and height. *)
Definition loadSaved (data : option Saved) : option Saved :=
  match data with
  | None => None
  | Some data =>
      if Rleb MIN_WIDTH (sv_width data)
         && Rleb (sv_height data) MAX_WIDTH
         && Rleb MIN_HEIGHT (sv_height data)
         && Rleb (sv_height data) MAX_HEIGHT
      then Some {| sv_width := Rmin MAX_WIDTH (Rmax MIN_WIDTH (sv_width data));
                   sv_height := Rmin MAX_HEIGHT (Rmax MIN_HEIGHT (sv_height data));
                   sv_x := sv_x data;
                   sv_y := sv_y data |}
      else None
  end.

(** In a window of [innerWidth] by [innerHeight]. *)
Definition getDefaultPosition (innerWidth innerHeight width height : R)
    : Point :=
  mkPoint (innerWidth - width - GAP) (innerHeight - height - GAP).

Definition clampPosition (innerWidth innerHeight x y width height : R)
    : Point :=
  let maxX := innerWidth - width in
  let maxY := innerHeight - height in
  mkPoint (Rmax 0 (Rmin maxX x)) (Rmax 0 (Rmin maxY y)).

(** * The grid game of App: food, inputs and the step of the interval *)

Module SnakeApp.

Definition GRID_SIZE : Z := 18.
Definition NOSE_THRESHOLD : R := 0.06.
Definition DIRECTION_COOLDOWN : R := 120.

Record Cell := mkCell { cx : Z; cy : Z }.

Definition DIRECTIONS (key : string) : option Cell :=
  if String.eqb key "ArrowUp" then Some (mkCell 0 (-1))
  else if String.eqb key "ArrowDown" then Some (mkCell 0 1)
  else if String.eqb key "ArrowLeft" then Some (mkCell (-1) 0)
  else if String.eqb key "ArrowRight" then Some (mkCell 1 0)
  else if String.eqb key "w" then Some (mkCell 0 (-1))
  else if String.eqb key "s" then Some (mkCell 0 1)
  else if String.eqb key "a" then Some (mkCell (-1) 0)
  else if String.eqb key "d" then Some (mkCell 1 0)
  else None.

Definition HEAD_DIRECTIONS (d : Direction) : Cell :=
  match d with
  | UP => mkCell 0 (-1)
  | DOWN => mkCell 0 1
  | LEFT => mkCell (-1) 0
  | RIGHT => mkCell 1 0
  end.

Definition sameCell (a b : Cell) : bool :=
  Z.eqb (cx a) (cx b) && Z.eqb (cy a) (cy b).

(** [occupied.has(`${spot.x},${spot.y}`)] *)
Definition occupied (snake : list Cell) (spot : Cell) : bool :=
  existsb (sameCell spot) snake.

(** The spot drawn with the calls [k] and [k + 1] of [Math.random]. *)
Definition draw (random : Random) (k : nat) : Cell :=
  mkCell (floor (random k * IZR GRID_SIZE))
         (floor (random (S k) * IZR GRID_SIZE)).

(** [randomFood]; the loop draws at least once. *)
Fixpoint randomFood (fuel : nat) (random : Random) (k : nat)
    (snake : list Cell) : option Cell :=
  match fuel with
  | O => None
  | S fuel' =>
      let spot := draw random k in
      if occupied snake spot then randomFood fuel' random (S (S k)) snake
      else Some spot
  end.

Definition noseDirection (nose : Point) : option Direction :=
  let dx := px nose - 0.5 in
  let dy := py nose - 0.5 in
  if Rltb (Rabs dx) NOSE_THRESHOLD && Rltb (Rabs dy) NOSE_THRESHOLD then None
  else if Rgt_dec (Rabs dx) (Rabs dy) then
    Some (if Rgt_dec dx 0 then RIGHT else LEFT)
  else Some (if Rgt_dec dy 0 then DOWN else UP).

(** [current.x + next.x === 0 && current.y + next.y === 0] *)
Definition reverses (current next : Cell) : bool :=
  Z.eqb (cx current + cx next) 0 && Z.eqb (cy current + cy next) 0.

(** [handleKey]: the queued direction after a key. *)
Definition handleKey (direction queuedDirection : Cell) (key : string)
    : Cell :=
  match DIRECTIONS key with
  | None => queuedDirection
  | Some next =>
      if reverses direction next then queuedDirection else next
  end.

(** The head tracker's part of the loop for a mirrored direction: the
    queued direction and the time of the last change. *)
Definition headInput (now lastDirection : R) (queuedDirection : Cell)
    (mirrored : Direction) : Cell * R :=
  let next := HEAD_DIRECTIONS mirrored in
  let current := queuedDirection in
  if Rgt_dec (now - lastDirection) DIRECTION_COOLDOWN then
    if negb (reverses current next) then (next, now)
    else (queuedDirection, lastDirection)
  else (queuedDirection, lastDirection).

Record Game := mkGame {
  snake : list Cell;
  food : Cell;
  direction : Cell;
  running : bool;
  score : Z;
  best : Z;
  status : string
}.

(** One round of the interval: the updater given to [setSnake] and the
    setters it calls. *)
Definition interval (fuel : nat) (random : Random) (queuedDirection : Cell)
    (g : Game) : option Game :=
  let prev := snake g in
  let nextDirection := queuedDirection in
  head <- nth_error prev 0 ;;
  let nextHead :=
    mkCell (cx head + cx nextDirection) (cy head + cy nextDirection) in
  let hitWall :=
    Z.ltb (cx nextHead) 0 || Z.ltb (cy nextHead) 0
    || Z.leb GRID_SIZE (cx nextHead) || Z.leb GRID_SIZE (cy nextHead) in
  let hitSelf := existsb (fun seg => sameCell seg nextHead) prev in
  if hitWall || hitSelf then
    Some {| snake := prev; food := food g; direction := nextDirection;
            running := false; score := score g;
            best := Z.max (best g) (score g); status := "Game Over" |}
  else
    let nextSnake := nextHead :: prev in
    if sameCell nextHead (food g) then
      spot <- randomFood fuel random 0 nextSnake ;;
      Some {| snake := nextSnake; food := spot; direction := nextDirection;
              running := running g; score := score g + 10;
              best := best g; status := status g |}
    else
      Some {| snake := removelast nextSnake; food := food g;
              direction := nextDirection; running := running g;
              score := score g; best := best g; status := status g |}.

End SnakeApp.

(** * Vocabulary of the statements *)

(** The heading [moveSnake] computes. *)
Definition steer (a ts dt target : R) : R :=
  normalizeAngle (a + normalizeAngle (target - a) * Rmin 1 (ts * dt)).

(** The head position [moveSnake] computes. *)
Definition advance (head : Point) (a v dt : R) : Point :=
  mkPoint (px head + cos a * v * dt) (py head + sin a * v * dt).

(** Euclidean distance. *)
Definition dist (a b : Point) : R := hypot (px a - px b) (py a - py b).

(** Every two neighbours of the chain are [SEGMENT_SPACING] apart. *)
Definition spaced (l : list Point) : Prop :=
  forall i a b, nth_error l i = Some a -> nth_error l (S i) = Some b ->
                dist a b = SEGMENT_SPACING.

(** The test of the pellet loop. *)
Definition hits (h : Point) (p : Pellet) : bool :=
  Rltb (distSq h (pelletPos p)) pelletRadiusSq.

Definition misses (h : Point) (p : Pellet) : bool := negb (hits h p).

Fixpoint sumValues (l : list Pellet) : R :=
  match l with
  | [] => 0
  | p :: tl => value p + sumValues tl
  end.

(** A snake with [gain] more length: copies of the last segment. *)
Definition grow (s : Snake) (gain : R) : Snake :=
  if Rle_dec gain 0 then s
  else {| id := id s;
          segments := segments s
                      ++ repeat (last (segments s) (mkPoint 0 0))
                                (Z.to_nat (ceil gain));
          angle := angle s;
          speed := speed s;
          turnSpeed := turnSpeed s;
          color := color s;
          isPlayer := isPlayer s |}.

(** The copies of the tail the growth step appends for a length gain: none
    when [lengthGain <= 0], else the rounds of
    [for (let g = 0; g < lengthGain; g++)]. *)
Definition copies (gain : R) : nat :=
  if Rle_dec gain 0 then 0%nat else Z.to_nat (ceil gain).

(** What one pass of pellet consumption does, organism by organism: each
    one takes the pellets its head hits among those still there, and grows by
    the sum of their values; the pellets it misses are left for the next. *)
Inductive Consumption
  : list Snake -> list Pellet -> list Snake -> list (list Pellet)
    -> list Pellet -> Prop :=
| Consumption_nil ps : Consumption [] ps [] [] ps
| Consumption_cons s h rest ps tl tl' eaten ps' :
    segments s = h :: rest ->
    Consumption tl (filter (misses h) ps) tl' eaten ps' ->
    Consumption (s :: tl) ps
                (grow s (sumValues (filter (hits h) ps)) :: tl')
                (filter (hits h) ps :: eaten) ps'.

Definition hasHead (s : Snake) : Prop := segments s <> [].

(** Pellet values that are counts. *)
Definition countValued (ps : list Pellet) : Prop :=
  Forall (fun p => exists n : nat, value p = INR n) ps.

(** The test of the detection loop for one organism. *)
Definition dies (b : Bounds) (all : list Snake) (s : Snake) : Prop :=
  exists h, nth_error (segments s) 0 = Some h /\
            (hitWall h b || headHitsBody (id s) h all) = true.

(** The number of pellets a dead snake of [len] segments leaves, and the
    index step between them. *)
Definition dropCount (len : nat) : nat := Nat.max 1 (2 * len / 5).
Definition dropStep (len : nat) : nat := Nat.max 1 (len / dropCount len).

Definition dropIndex (len i : nat) : nat :=
  Nat.min (i * dropStep len) (len - 1).

Definition dropped (dead : Snake) : list Pellet :=
  let len := List.length (segments dead) in
  map (fun i : nat =>
         let seg := nth (dropIndex len i) (segments dead) (mkPoint 0 0) in
         mkPellet (px seg) (py seg) PELLET_VALUE)
      (seq 0 (dropCount len)).

(** All the pellets dropped in a tick, in the order of [deadIds]; each id is
    looked up in the snakes of the state the tick was given. *)
Definition dropsOf (stateSnakes : list Snake) (deadIds : list string)
    : list Pellet :=
  flat_map (fun i =>
              match find (fun s => String.eqb (id s) i) stateSnakes with
              | Some dead => dropped dead
              | None => []
              end) deadIds.

(** The organisms a tick keeps. *)
Definition survivors (deadIds : list string) (grown : list Snake)
    : list Snake :=
  filter (fun s => negb (has deadIds (id s))) grown.

(** The pellet of the periodic spawn. *)
Definition spawned (random : Random) (b : Bounds) : Pellet :=
  mkPellet
    (ARENA_PADDING + random 0%nat * (width b - ARENA_PADDING - ARENA_PADDING))
    (ARENA_PADDING + random 1%nat * (height b - ARENA_PADDING - ARENA_PADDING))
    PELLET_VALUE.

(** The state a tick returns, from the results of its phases. *)
Definition tickResult (random : Random) (state : GameState) (dt : R)
    (grown : list Snake) (left : list Pellet) (deadIds : list string)
    : GameState :=
  let timer := nextPelletSpawn state - dt in
  let drops := left ++ dropsOf (snakes state) deadIds in
  {| snakes := survivors deadIds grown;
     pellets := if Rleb timer 0
                then drops ++ [spawned random (bounds state)]
                else drops;
     bounds := bounds state;
     nextSnakeId := nextSnakeId state;
     nextPelletSpawn := if Rleb timer 0 then PELLET_SPAWN_INTERVAL else timer |}.

(** The organism and state of the boost scenario: the player alone, heading
    along the x axis. *)
Definition boostPlayer : Snake :=
  {| id := "player"; segments := [mkPoint 100 100]; angle := 0;
     speed := DEFAULT_SPEED; turnSpeed := TURN_SPEED;
     color := playerColor; isPlayer := true |}.

Definition boostState : GameState :=
  {| snakes := [boostPlayer]; pellets := []; bounds := mkBounds 3000 3000;
     nextSnakeId := 1; nextPelletSpawn := PELLET_SPAWN_INTERVAL |}.

Definition noTargets : TargetAngles := fun _ => None.

(** A tick on one organism of one segment that ends clear of the walls, with
    no pellets around. *)
Definition movedAlone (s : Snake) (h : Point) (dt : R) (ta : TargetAngles)
    : Snake :=
  let a := steer (angle s) (turnSpeed s) dt (targetOf ta s) in
  {| id := id s; segments := [advance h a (speed s) dt]; angle := a;
     speed := speed s; turnSpeed := turnSpeed s; color := color s;
     isPlayer := isPlayer s |}.

Definition towards3 : TargetAngles :=
  fun i => if String.eqb i "player" then Some 3 else None.

(** A two-segment organism about to reach a pellet. *)
Definition feedSnake : Snake :=
  {| id := "player"; segments := [mkPoint 100 100; mkPoint 92 100];
     angle := 0; speed := DEFAULT_SPEED; turnSpeed := TURN_SPEED;
     color := playerColor; isPlayer := true |}.

Definition feedState : GameState :=
  {| snakes := [feedSnake]; pellets := [mkPellet 102 100 PELLET_VALUE];
     bounds := mkBounds 3000 3000;
     nextSnakeId := 1; nextPelletSpawn := PELLET_SPAWN_INTERVAL |}.

(** The same scenario with a pellet of value one half. *)
Definition halfState : GameState :=
  {| snakes := [feedSnake]; pellets := [mkPellet 102 100 (1 / 2)];
     bounds := mkBounds 3000 3000;
     nextSnakeId := 1; nextPelletSpawn := PELLET_SPAWN_INTERVAL |}.

(** The head is less than [HEAD_RADIUS] inside one of the four walls. *)
Definition nearWall (h : Point) (b : Bounds) : Prop :=
  px h < HEAD_RADIUS \/ py h < HEAD_RADIUS \/
  width b - px h < HEAD_RADIUS \/ height b - py h < HEAD_RADIUS.

(** The head is less than [HEAD_RADIUS + BODY_RADIUS] away from a segment of
    another organism of [all]. *)
Definition nearOther (s : Snake) (h : Point) (all : list Snake) : Prop :=
  exists o seg, In o all /\ o <> s /\ In seg (segments o) /\
                dist h seg < HEAD_RADIUS + BODY_RADIUS.

(** Two organisms of the state in a duel: each head is on the other's
    body. *)
Definition duelA : Snake :=
  {| id := "player"; segments := [mkPoint 500 500; mkPoint 492 500];
     angle := 0; speed := 0; turnSpeed := TURN_SPEED;
     color := playerColor; isPlayer := true |}.

Definition duelB : Snake :=
  {| id := "snake-1"; segments := [mkPoint 505 500; mkPoint 513 500];
     angle := PI; speed := 0; turnSpeed := TURN_SPEED;
     color := "#e74c3c"; isPlayer := false |}.

Definition duelState : GameState :=
  {| snakes := [duelA; duelB]; pellets := [];
     bounds := mkBounds 3000 3000;
     nextSnakeId := 2; nextPelletSpawn := PELLET_SPAWN_INTERVAL |}.

(** A position inside the bounds inset by the arena padding. *)
Definition inPadded (p : Point) (b : Bounds) : Prop :=
  ARENA_PADDING <= px p <= width b - ARENA_PADDING /\
  ARENA_PADDING <= py p <= height b - ARENA_PADDING.

(** What [Math.random] promises, and bounds that leave room inside the
    padding. *)
Definition unitRandom (random : Random) : Prop :=
  forall k, 0 <= random k < 1.

Definition roomy (b : Bounds) : Prop :=
  2 * ARENA_PADDING <= width b /\ 2 * ARENA_PADDING <= height b.

(** The organism the loop builds in round [i]. *)
Definition spawnedAs (random : Random) (b : Bounds) (i : nat) (s : Snake)
    : Prop :=
  isPlayer s = Nat.eqb i 0 /\
  id s = (if Nat.eqb i 0 then "player"%string else snakeName i) /\
  speed s = DEFAULT_SPEED /\ turnSpeed s = TURN_SPEED /\
  exists kx ka,
    angle s = random ka * 2 * PI - PI /\
    segments s
    = initialSegments
        (ARENA_PADDING
         + random kx * (width b - ARENA_PADDING - ARENA_PADDING))
        (ARENA_PADDING
         + random (S kx) * (height b - ARENA_PADDING - ARENA_PADDING))
        (angle s).

(** The cell of the first draw of round [i], when no round before it had to
    draw again. *)
Definition firstCell (random : Random) (b : Bounds) (i : nat) : Z * Z :=
  cellKey
    (ARENA_PADDING
     + random (3 * i)%nat * (width b - ARENA_PADDING - ARENA_PADDING))
    (ARENA_PADDING
     + random (S (3 * i)) * (height b - ARENA_PADDING - ARENA_PADDING)).

(** A run of [Math.random]: the third call returns 1/2, the others 0. *)
Definition rnd0 : Random := fun k => if Nat.eqb k 2 then 1 / 2 else 0.

(** A run of [Math.random] that puts two organisms in different cells. *)
Definition rnd3 : Random := fun k => if Nat.eqb k 3 then 1 / 2 else 0.

(** The invariants of the data model that a tick relies on: every organism
    has a head, the ids are distinct, and the pellet values are counts. *)
Definition wellFormed (st : GameState) : Prop :=
  Forall hasHead (snakes st) /\
  NoDup (map id (snakes st)) /\
  countValued (pellets st).

(** The pellets dropped in a tick, counted. *)
Definition dropTotal (stateSnakes : list Snake) (deadIds : list string) : nat :=
  list_sum
    (map (fun i =>
            match find (fun s => String.eqb (id s) i) stateSnakes with
            | Some dead => dropCount (List.length (segments dead))
            | None => 0%nat
            end) deadIds).

(** The grid cell of an organism's head. *)
Definition headCell (s : Snake) : option (Z * Z) :=
  option_map (fun h => cellKey (px h) (py h)) (nth_error (segments s) 0).

(** The states of successive frames: each tick is given the state the one
    before returned. *)
Fixpoint ticks (frames : list (Random * R * TargetAngles)) (st : GameState)
    : option GameState :=
  match frames with
  | [] => Some st
  | (random, dt, ta) :: tl =>
      r <- tick random st dt ta ;;
      ticks tl (fst r)
  end.

(** The id the loop of [createInitialState] gives in round [i]. *)
Definition spawnName (i : nat) : string :=
  if Nat.eqb i 0 then "player"%string else snakeName i.

(** The player flag and the id ["player"] go together. *)
Definition playerTagged (l : list Snake) : Prop :=
  forall s, In s l -> (isPlayer s = true <-> id s = "player"%string).


(** What writes the refs of the boost: the mouth callback, a frame of the
    loop, the cooldown effect and a restart, in any order and at any
    times. *)
Inductive BoostEvent :=
| MouthOpen (now : R) (current : GameState)
| LoopFrame (nowMs : R)
| CooldownUpdate (now : R)
| Restart.

Definition boostStep (refs : BoostRefs) (ev : BoostEvent) : BoostRefs :=
  match ev with
  | MouthOpen now current => onMouthOpen now current refs
  | LoopFrame nowMs => fst (frameBoost nowMs refs)
  | CooldownUpdate now => update now refs
  | Restart => handleRestart refs
  end.

Definition boostRun (events : list BoostEvent) (refs : BoostRefs)
    : BoostRefs :=
  fold_left boostStep events refs.

(** The refs as [useRef(null)] makes them. *)
Definition idle : BoostRefs := mkBoostRefs None None None.

(** The start and the end of a boost are set together; a boost lasts the
    base duration and [BOOST_DURATION_PER_SCORE_MS] for each of a number of
    segments; it started no sooner than the end of the cooldown on
    record. *)
Definition boostOk (refs : BoostRefs) : Prop :=
  match speedBoostEndTime refs with
  | None => speedBoostStartTime refs = None
  | Some e =>
      exists s (n : nat),
        speedBoostStartTime refs = Some s /\
        e = s + BOOST_BASE_DURATION_MS + INR n * BOOST_DURATION_PER_SCORE_MS /\
        forall c, speedBoostCooldownEndTime refs = Some c -> c <= s
  end.

(** The order of the leaderboard: the longer organism first. *)
Definition longerFirst (a b : Snake) : Prop :=
  (getSnakeLength b <= getSnakeLength a)%nat.

(** The organisms of [l] that have [n] segments, in the order of [l]. *)
Definition ofLength (n : nat) (l : list Snake) : list Snake :=
  filter (fun s => Nat.eqb (getSnakeLength s) n) l.

(** The values of [l] that are at most [m], and those that are at least
    [m]. *)
Definition atMost (m : R) (l : list R) : list R :=
  filter (fun v => Rleb v m) l.

Definition atLeast (m : R) (l : list R) : list R :=
  filter (fun v => Rleb m v) l.

(** A point inside the box from [lo] to [hi]. *)
Definition inBox (lo hi p : Point) : Prop :=
  px lo <= px p <= px hi /\ py lo <= py p <= py hi.

(** Three samples, out of order. *)
Definition samples3 : list R := [3; 1; 2].

(** A cell of the board of the grid game. *)
Definition inGrid (c : SnakeApp.Cell) : Prop :=
  (0 <= SnakeApp.cx c < SnakeApp.GRID_SIZE)%Z /\
  (0 <= SnakeApp.cy c < SnakeApp.GRID_SIZE)%Z.

(** One step along one axis. *)
Definition isUnit (d : SnakeApp.Cell) : Prop :=
  (Z.abs (SnakeApp.cx d) + Z.abs (SnakeApp.cy d) = 1)%Z.

(** Every two neighbours of the chain are next to each other on the
    board. *)
Definition linked (l : list SnakeApp.Cell) : Prop :=
  forall i a b, nth_error l i = Some a -> nth_error l (S i) = Some b ->
    (Z.abs (SnakeApp.cx a - SnakeApp.cx b)
     + Z.abs (SnakeApp.cy a - SnakeApp.cy b) = 1)%Z.

(** A snake of the grid game: not empty, on the board, on distinct cells,
    in one piece. *)
Definition gridOk (l : list SnakeApp.Cell) : Prop :=
  l <> [] /\ Forall inGrid l /\ NoDup l /\ linked l.

(** The cell the head of the grid game moves to in the next round. *)
Definition stepHead (g : SnakeApp.Game) (queued : SnakeApp.Cell)
    : option SnakeApp.Cell :=
  option_map
    (fun head =>
       SnakeApp.mkCell (SnakeApp.cx head + SnakeApp.cx queued)
                       (SnakeApp.cy head + SnakeApp.cy queued))
    (nth_error (SnakeApp.snake g) 0).

(** The snake and the direction the grid game starts with. *)
Definition freshGame (food : SnakeApp.Cell) : SnakeApp.Game :=
  {| SnakeApp.snake := [SnakeApp.mkCell 6 9; SnakeApp.mkCell 5 9;
                        SnakeApp.mkCell 4 9];
     SnakeApp.food := food;
     SnakeApp.direction := SnakeApp.mkCell 1 0;
     SnakeApp.running := true;
     SnakeApp.score := 0;
     SnakeApp.best := 0;
     SnakeApp.status := "Running" |}.

(** * Properties *)

(** ** Real-number helpers *)

Lemma Rltb_true (a b : R) : Rltb a b = true <-> a < b.
Proof. unfold Rltb. destruct (Rlt_dec a b); split; intros; try easy. Qed.

Lemma Rltb_false (a b : R) : Rltb a b = false <-> ~ a < b.
Proof. unfold Rltb. destruct (Rlt_dec a b); split; intros; try easy. Qed.

Lemma Rleb_true (a b : R) : Rleb a b = true <-> a <= b.
Proof. unfold Rleb. destruct (Rle_dec a b); split; intros; try easy. Qed.

Lemma floor_unique (x : R) (z : Z) :
  IZR z <= x -> x < IZR z + 1 -> floor x = z.
Proof.
  intros Hlo Hhi. unfold floor.
  destruct (archimed x) as [Hup1 Hup2].
  assert (H1 : (z < up x)%Z) by (apply lt_IZR; lra).
  assert (H2 : (up x - 1 < z + 1)%Z).
  { apply lt_IZR. rewrite minus_IZR, plus_IZR. lra. }
  lia.
Qed.

Lemma floor_IZR (z : Z) : floor (IZR z) = z.
Proof. apply floor_unique; lra. Qed.

Lemma ceil_INR (n : nat) : Z.to_nat (ceil (INR n)) = n.
Proof.
  unfold ceil. rewrite INR_IZR_INZ, <- opp_IZR, floor_IZR. lia.
Qed.

(** ** normalizeAngle over the reals *)

Lemma while_gt_enough : forall n a,
  a - PI <= 2 * PI * INR n -> exists r, while_gt n a = Some r.
Proof.
  induction n as [|n IH]; intros a H; simpl; destruct (Rgt_dec a PI) as [G|G];
    try (eexists; reflexivity).
  - simpl in H. lra.
  - apply IH. rewrite S_INR in H. lra.
Qed.

Lemma while_lt_enough : forall n a,
  - PI - a <= 2 * PI * INR n -> exists r, while_lt n a = Some r.
Proof.
  induction n as [|n IH]; intros a H; simpl; destruct (Rlt_dec a (- PI)) as [G|G];
    try (eexists; reflexivity).
  - simpl in H. lra.
  - apply IH. rewrite S_INR in H. lra.
Qed.

Lemma while_gt_spec : forall n a r,
  while_gt n a = Some r ->
  r <= PI /\ exists k : nat, r = a - 2 * PI * INR k /\ (k = 0%nat \/ - PI < r).
Proof.
  induction n as [|n IH]; intros a r; simpl; destruct (Rgt_dec a PI) as [G|G];
    intros H; try discriminate.
  - injection H as <-. split; [lra|]. exists 0%nat. simpl. split; [lra|now left].
  - destruct (IH _ _ H) as [Hr [k [Hk Hk']]]. split; [exact Hr|].
    exists (S k). rewrite S_INR. split; [lra|]. right.
    destruct Hk' as [->|Hk']; [|exact Hk']. simpl in Hk.
    pose proof PI_RGT_0. lra.
  - injection H as <-. split; [lra|]. exists 0%nat. simpl. split; [lra|now left].
Qed.

Lemma while_lt_spec : forall n a r,
  while_lt n a = Some r ->
  - PI <= r /\ exists k : nat, r = a + 2 * PI * INR k /\ (k = 0%nat \/ r < PI).
Proof.
  induction n as [|n IH]; intros a r; simpl; destruct (Rlt_dec a (- PI)) as [G|G];
    intros H; try discriminate.
  - injection H as <-. split; [lra|]. exists 0%nat. simpl. split; [lra|now left].
  - destruct (IH _ _ H) as [Hr [k [Hk Hk']]]. split; [exact Hr|].
    exists (S k). rewrite S_INR. split; [lra|]. right.
    destruct Hk' as [->|Hk']; [|exact Hk']. simpl in Hk.
    pose proof PI_RGT_0. lra.
  - injection H as <-. split; [lra|]. exists 0%nat. simpl. split; [lra|now left].
Qed.

Lemma while_gt_det : forall n m a r r',
  while_gt n a = Some r -> while_gt m a = Some r' -> r = r'.
Proof.
  induction n as [|n IH]; intros [|m] a r r'; simpl;
    destruct (Rgt_dec a PI); intros H H'; try discriminate; try congruence.
  eapply IH; eassumption.
Qed.

Lemma while_lt_det : forall n m a r r',
  while_lt n a = Some r -> while_lt m a = Some r' -> r = r'.
Proof.
  induction n as [|n IH]; intros [|m] a r r'; simpl;
    destruct (Rlt_dec a (- PI)); intros H H'; try discriminate; try congruence.
  eapply IH; eassumption.
Qed.

Lemma normalizeAngle_fuel_det n m a r r' :
  normalizeAngle_fuel n a = Some r -> normalizeAngle_fuel m a = Some r' ->
  r = r'.
Proof.
  unfold normalizeAngle_fuel, bind.
  destruct (while_gt n a) as [a1|] eqn:E1; [|discriminate].
  destruct (while_gt m a) as [a2|] eqn:E2; [|discriminate].
  rewrite (while_gt_det _ _ _ _ _ E1 E2). apply while_lt_det.
Qed.

Lemma rounds_enough (a : R) : Rabs a < 2 * PI * INR (rounds a).
Proof.
  unfold rounds. pose proof PI_RGT_0 as HPI.
  set (x := Rabs a / (2 * PI)).
  assert (Hx : 0 <= x).
  { unfold x. apply Rmult_le_pos; [apply Rabs_pos|].
    left. apply Rinv_0_lt_compat. lra. }
  destruct (archimed x) as [Hup _].
  assert (Hz : (0 <= up x)%Z) by (apply le_IZR; lra).
  rewrite INR_IZR_INZ, Z2Nat.id by exact Hz.
  assert (Rabs a = x * (2 * PI)) by (unfold x; field; lra).
  nra.
Qed.

Lemma normalizeAngle_run (a : R) :
  normalizeAngle_fuel (rounds a) a = Some (normalizeAngle a).
Proof.
  unfold normalizeAngle.
  pose proof (rounds_enough a) as Hr. pose proof PI_RGT_0 as HPI.
  assert (Ha : - Rabs a <= a <= Rabs a).
  { split; [pose proof (Rle_abs (- a)); rewrite Rabs_Ropp in *; lra
           | apply Rle_abs]. }
  destruct (while_gt_enough (rounds a) a) as [a1 E1]; [lra|].
  destruct (while_gt_spec _ _ _ E1) as [H1 [k [Hk Hk']]].
  destruct (while_lt_enough (rounds a) a1) as [r E2].
  { destruct Hk' as [->|Hk']; [simpl in Hk; lra|].
    pose proof (pos_INR (rounds a)). nra. }
  assert (E : normalizeAngle_fuel (rounds a) a = Some r).
  { unfold normalizeAngle_fuel, bind. now rewrite E1. }
  now rewrite E.
Qed.

Lemma normalizeAngle_fuel_sound n a r :
  normalizeAngle_fuel n a = Some r -> normalizeAngle a = r.
Proof.
  intros H. eapply normalizeAngle_fuel_det; [apply normalizeAngle_run|exact H].
Qed.

Lemma normalizeAngle_spec (a : R) :
  - PI <= normalizeAngle a <= PI /\
  exists z : Z, normalizeAngle a = a + 2 * PI * IZR z.
Proof.
  pose proof (normalizeAngle_run a) as H. pose proof PI_RGT_0 as HPI.
  unfold normalizeAngle_fuel, bind in H.
  destruct (while_gt (rounds a) a) as [a1|] eqn:E1; [|discriminate].
  destruct (while_gt_spec _ _ _ E1) as [H1 [k [Hk Hk']]].
  destruct (while_lt_spec _ _ _ H) as [H2 [j [Hj Hj']]].
  split.
  - split; [exact H2|]. destruct Hj' as [->|Hj']; [simpl in Hj|]; lra.
  - exists (Z.of_nat j - Z.of_nat k)%Z.
    rewrite minus_IZR, <- !INR_IZR_INZ. lra.
Qed.

Lemma normalizeAngle_range (a : R) : - PI <= normalizeAngle a <= PI.
Proof. apply normalizeAngle_spec. Qed.

Lemma normalizeAngle_id (a : R) : - PI <= a <= PI -> normalizeAngle a = a.
Proof.
  intros H. apply (normalizeAngle_fuel_sound 0).
  unfold normalizeAngle_fuel, bind. simpl.
  destruct (Rgt_dec a PI); [lra|]. destruct (Rlt_dec a (- PI)); [lra|].
  reflexivity.
Qed.

Lemma normalizeAngle_0 : normalizeAngle 0 = 0.
Proof. apply normalizeAngle_id. pose proof PI_RGT_0. lra. Qed.

(** Two angles of [[-PI, PI]] that differ by a multiple of a full turn have
    the same absolute value. *)
Lemma turn_abs (x y : R) (z : Z) :
  - PI <= x <= PI -> - PI <= y <= PI -> x = y + 2 * PI * IZR z ->
  Rabs x = Rabs y.
Proof.
  intros Hx Hy E. pose proof PI_RGT_0 as HPI.
  assert (Hz : (-1 <= z <= 1)%Z).
  { split; apply le_IZR; nra. }
  assert (Hc : z = (-1)%Z \/ z = 0%Z \/ z = 1%Z) by lia.
  destruct Hc as [-> | [-> | ->]].
  - assert (Ex : x = - PI) by lra. assert (Ey : y = PI) by lra.
    rewrite Ex, Ey. apply Rabs_Ropp.
  - f_equal. lra.
  - assert (Ex : x = PI) by lra. assert (Ey : y = - PI) by lra.
    rewrite Ex, Ey. symmetry. apply Rabs_Ropp.
Qed.

(** ** moveSnake *)

Lemma moveSnake_inv s dt t s' :
  moveSnake s dt t = Some s' ->
  exists head rest,
    segments s = head :: rest /\
    id s' = id s /\ speed s' = speed s /\ turnSpeed s' = turnSpeed s /\
    color s' = color s /\ isPlayer s' = isPlayer s /\
    angle s' = steer (angle s) (turnSpeed s) dt t /\
    segments s' =
      advance head (angle s') (speed s) dt
      :: follow (angle s') (advance head (angle s') (speed s) dt) rest.
Proof.
  unfold moveSnake, bind.
  destruct (segments s) as [|head rest]; simpl; [discriminate|].
  intros H. injection H as <-. exists head, rest. simpl.
  repeat split; reflexivity.
Qed.

Lemma moveSnake_total s dt t :
  segments s <> [] -> exists s', moveSnake s dt t = Some s'.
Proof.
  unfold moveSnake, bind. destruct (segments s); [easy|].
  intros _. simpl. eexists. reflexivity.
Qed.

Lemma moveSnake_empty s dt t : segments s = [] -> moveSnake s dt t = None.
Proof. unfold moveSnake. now intros ->. Qed.

Lemma Rmin_unit (x : R) : 0 <= x -> 0 <= Rmin 1 x <= 1.
Proof.
  intros H. split; [apply Rmin_glb; lra | apply Rmin_l].
Qed.

(** The heading changes by the fraction [min(1, turnSpeed * dt)] of the
    normalized difference to the target. *)
Lemma steer_change (a ts dt t : R) :
  0 <= ts * dt ->
  Rabs (normalizeAngle (steer a ts dt t - a))
  = Rabs (normalizeAngle (t - a)) * Rmin 1 (ts * dt).
Proof.
  intros Hk. unfold steer.
  set (d := normalizeAngle (t - a)).
  set (k := Rmin 1 (ts * dt)).
  pose proof (Rmin_unit _ Hk) as Hk1. fold k in Hk1.
  pose proof (normalizeAngle_range (t - a)) as Hd. fold d in Hd.
  pose proof PI_RGT_0 as HPI.
  destruct (normalizeAngle_spec (a + d * k)) as [Hr1 [z1 E1]].
  destruct (normalizeAngle_spec (normalizeAngle (a + d * k) - a)) as [Hr2 [z2 E2]].
  assert (Hdk : - PI <= d * k <= PI) by nra.
  rewrite (turn_abs _ (d * k) (z1 + z2)%Z Hr2 Hdk).
  - rewrite Rabs_mult. f_equal. apply Rabs_right. lra.
  - rewrite plus_IZR. lra.
Qed.

(** ** Body follow: spacing *)

Lemma sqrt_64 : R_sqrt.sqrt 64 = 8.
Proof. replace 64 with (8 * 8) by lra. apply sqrt_square. lra. Qed.

Lemma follow_step_degenerate (ang : R) (prev : Point) :
  dist prev (mkPoint (px prev - cos ang * SEGMENT_SPACING)
                     (py prev - sin ang * SEGMENT_SPACING))
  = SEGMENT_SPACING.
Proof.
  unfold dist, hypot, SEGMENT_SPACING. simpl.
  pose proof (sin2_cos2 ang) as H. unfold Rsqr in H.
  match goal with
  | |- R_sqrt.sqrt ?e = _ => replace e with 64 by nra
  end.
  apply sqrt_64.
Qed.

Lemma follow_step_chase (prev curr : Point) (d : R) :
  d = hypot (px prev - px curr) (py prev - py curr) ->
  ~ d <= 1e-6 ->
  dist prev (mkPoint (px prev + ((px curr - px prev) / d) * SEGMENT_SPACING)
                     (py prev + ((py curr - py prev) / d) * SEGMENT_SPACING))
  = SEGMENT_SPACING.
Proof.
  intros Ed Hd. unfold dist, SEGMENT_SPACING. simpl.
  assert (Hpos : 0 < d) by lra.
  set (sq := (px prev - px curr) * (px prev - px curr)
             + (py prev - py curr) * (py prev - py curr)).
  assert (Hsq : 0 <= sq).
  { pose proof (Rle_0_sqr (px prev - px curr)) as H1.
    pose proof (Rle_0_sqr (py prev - py curr)) as H2.
    unfold Rsqr in H1, H2. unfold sq. lra. }
  assert (Hdd : d * d = sq) by (rewrite Ed; unfold hypot; fold sq; now apply sqrt_sqrt).
  unfold hypot at 1.
  match goal with
  | |- R_sqrt.sqrt ?e = _ => replace e with 64; [apply sqrt_64|]
  end.
  transitivity (64 * (sq / (d * d))).
  - rewrite Hdd. field. nra.
  - unfold sq. field. lra.
Qed.

Lemma follow_spaced : forall rest ang prev, spaced (prev :: follow ang prev rest).
Proof.
  induction rest as [|curr tl IH]; intros ang prev i a b Ha Hb.
  - destruct i; simpl in Hb; [discriminate|]. destruct i; discriminate.
  - simpl follow in *.
    set (d := hypot (px prev - px curr) (py prev - py curr)) in *.
    set (next := if Rle_dec d 1e-6
                 then mkPoint (px prev - cos ang * SEGMENT_SPACING)
                              (py prev - sin ang * SEGMENT_SPACING)
                 else mkPoint (px prev + ((px curr - px prev) / d) * SEGMENT_SPACING)
                              (py prev + ((py curr - py prev) / d) * SEGMENT_SPACING))
      in *.
    destruct i as [|i].
    + simpl in Ha, Hb. injection Ha as <-. injection Hb as <-.
      unfold next. destruct (Rle_dec d 1e-6) as [Hd|Hd].
      * apply follow_step_degenerate.
      * now apply follow_step_chase.
    + simpl in Ha. apply (IH ang next i a b); [exact Ha | exact Hb].
Qed.

Lemma moveSnake_spaced s dt t s' :
  moveSnake s dt t = Some s' -> spaced (segments s').
Proof.
  intros H. destruct (moveSnake_inv _ _ _ _ H) as (head & rest & _ & _ & _ & _ & _ & _ & _ & E).
  rewrite E. apply follow_spaced.
Qed.

Lemma follow_length : forall rest ang prev,
  List.length (follow ang prev rest) = List.length rest.
Proof. induction rest; intros; simpl; [reflexivity|]. now rewrite IHrest. Qed.

(** ** Exceptions: mapM *)

Lemma mapM_Forall2 {A B} (f : A -> option B) : forall l l',
  mapM f l = Some l' -> Forall2 (fun a b => f a = Some b) l l'.
Proof.
  induction l as [|a tl IH]; intros l'; simpl.
  - intros H. injection H as <-. constructor.
  - unfold bind. destruct (f a) as [b|] eqn:E; [|discriminate].
    destruct (mapM f tl) as [bs|]; [|discriminate].
    intros H. injection H as <-. constructor; [exact E|]. now apply IH.
Qed.

Lemma mapM_total {A B} (f : A -> option B) : forall l,
  Forall (fun a => exists b, f a = Some b) l -> exists l', mapM f l = Some l'.
Proof.
  induction 1 as [|a tl [b E] _ [bs IH]]; simpl.
  - eexists; reflexivity.
  - rewrite E, IH. simpl. eexists; reflexivity.
Qed.

Lemma mapM_ext {A B} (f g : A -> option B) : forall l,
  (forall a, In a l -> f a = g a) -> mapM f l = mapM g l.
Proof.
  induction l as [|a tl IH]; intros H; simpl; [reflexivity|].
  rewrite (H a) by now left. rewrite IH; [reflexivity|].
  intros x Hx. apply H. now right.
Qed.

Lemma mapM_map {A B} (f : A -> B) : forall l,
  mapM (fun a => Some (f a)) l = Some (map f l).
Proof. induction l as [|a tl IH]; simpl; [reflexivity|]. now rewrite IH. Qed.

(** ** Pellet consumption *)

Lemma sumValues_app l1 l2 :
  sumValues (l1 ++ l2) = sumValues l1 + sumValues l2.
Proof. induction l1 as [|p tl IH]; simpl; [lra|]. rewrite IH. lra. Qed.

Lemma firstn_S_nth {A} : forall (l : list A) i x,
  nth_error l i = Some x -> firstn (S i) l = firstn i l ++ [x].
Proof.
  induction l as [|a tl IH]; intros [|i] x H; simpl in *; try discriminate.
  - now injection H as <-.
  - f_equal. now apply IH.
Qed.

Lemma skipn_nth {A} : forall (l : list A) i x,
  nth_error l i = Some x -> skipn i l = x :: skipn (S i) l.
Proof.
  induction l as [|a tl IH]; intros [|i] x H; simpl in *; try discriminate.
  - now injection H as <-.
  - now apply IH.
Qed.

Lemma firstn_exact {A} (l1 l2 : list A) :
  firstn (List.length l1) (l1 ++ l2) = l1.
Proof. induction l1; simpl; [now destruct l2 | now f_equal]. Qed.

Lemma skipn_exact {A} (l1 l2 : list A) :
  skipn (List.length l1) (l1 ++ l2) = l2.
Proof. induction l1; simpl; [reflexivity | assumption]. Qed.

(** The loop at index [i - 1 .. 0] removes the pellets that are hit among the
    first [i] and sums their values; the pellets from [i] on stay. *)
Lemma eatLoop_spec (h : Point) : forall i g ps,
  (i <= List.length ps)%nat ->
  eatLoop (Some h) i g ps =
  Some (g + sumValues (filter (hits h) (firstn i ps)),
        filter (misses h) (firstn i ps) ++ skipn i ps).
Proof.
  induction i as [|i IH]; intros g ps Hi.
  - simpl. now rewrite Rplus_0_r.
  - destruct (nth_error ps i) as [p|] eqn:E.
    2:{ apply nth_error_None in E. lia. }
    simpl eatLoop. rewrite E. simpl bind. fold (hits h p).
    rewrite (firstn_S_nth _ _ _ E), !filter_app, sumValues_app. simpl filter.
    assert (Hlen : List.length (firstn i ps) = i) by (apply firstn_length_le; lia).
    unfold misses at 2.
    destruct (hits h p) eqn:Hh; simpl.
    + rewrite IH by (rewrite length_app, Hlen; lia).
      rewrite <- Hlen at 1 3. rewrite firstn_exact.
      rewrite <- Hlen at 3. rewrite skipn_exact.
      rewrite app_nil_r. f_equal. f_equal. lra.
    + rewrite IH by lia. rewrite (skipn_nth _ _ _ E), <- app_assoc. simpl.
      f_equal. f_equal. lra.
Qed.

Lemma eatLoop_all (h : Point) (ps : list Pellet) :
  eatLoop (Some h) (List.length ps) 0 ps =
  Some (sumValues (filter (hits h) ps), filter (misses h) ps).
Proof.
  rewrite eatLoop_spec by lia.
  rewrite firstn_all, skipn_all, app_nil_r, Rplus_0_l. reflexivity.
Qed.

Lemma nth_error_last {A} : forall (l : list A) d,
  l <> [] -> nth_error l (List.length l - 1) = Some (last l d).
Proof.
  induction l as [|a [|b tl] IH]; intros d H; [easy|reflexivity|].
  specialize (IH d ltac:(discriminate)).
  simpl in *. now rewrite Nat.sub_0_r in IH.
Qed.

Lemma feed_spec s h rest ps :
  segments s = h :: rest ->
  feed s ps =
  Some (grow s (sumValues (filter (hits h) ps)), filter (misses h) ps).
Proof.
  intros E.
  assert (H0 : nth_error (segments s) 0 = Some h) by now rewrite E.
  assert (Hne : segments s <> []) by (rewrite E; discriminate).
  unfold feed. rewrite H0, eatLoop_all. unfold bind, grow.
  destruct (Rle_dec _ 0); [reflexivity|].
  rewrite (nth_error_last _ (mkPoint 0 0) Hne). reflexivity.
Qed.

Lemma feedAll_spec : forall l ps,
  Forall hasHead l ->
  exists grown eaten left,
    feedAll l ps = Some (grown, left) /\ Consumption l ps grown eaten left.
Proof.
  induction l as [|s tl IH]; intros ps Hl.
  - exists [], [], ps. split; [reflexivity|constructor].
  - inversion Hl as [|? ? Hs Htl]; subst.
    destruct (segments s) as [|h rest] eqn:E; [now elim Hs|].
    destruct (IH (filter (misses h) ps) Htl) as (grown & eaten & left & Hf & Hc).
    exists (grow s (sumValues (filter (hits h) ps)) :: grown),
           (filter (hits h) ps :: eaten), left.
    split.
    + simpl. rewrite (feed_spec _ _ _ _ E). simpl. rewrite Hf. reflexivity.
    + econstructor; eassumption.
Qed.

Lemma filter_split {A} (f : A -> bool) : forall l,
  Permutation (filter f l ++ filter (fun x => negb (f x)) l) l.
Proof.
  induction l as [|a tl IH]; simpl; [constructor|].
  destruct (f a); simpl.
  - now constructor.
  - apply Permutation_sym, Permutation_cons_app, Permutation_sym, IH.
Qed.

Lemma Consumption_perm l ps grown eaten left :
  Consumption l ps grown eaten left ->
  Permutation (concat eaten ++ left) ps.
Proof.
  induction 1 as [ps | s h rest ps tl tl' eaten ps' E _ IH]; simpl.
  - apply Permutation_refl.
  - rewrite <- app_assoc.
    eapply Permutation_trans; [|apply (filter_split (hits h))].
    apply Permutation_app_head. exact IH.
Qed.

Lemma Consumption_length l ps grown eaten left :
  Consumption l ps grown eaten left ->
  List.length grown = List.length l /\ List.length eaten = List.length l.
Proof. induction 1; simpl; [easy|]. destruct IHConsumption. now split; f_equal. Qed.

Lemma grow_id s g : id (grow s g) = id s.
Proof. unfold grow. now destruct (Rle_dec g 0). Qed.

Lemma grow_angle s g : angle (grow s g) = angle s.
Proof. unfold grow. now destruct (Rle_dec g 0). Qed.

Lemma grow_segments s g :
  exists k, segments (grow s g)
            = segments s ++ repeat (last (segments s) (mkPoint 0 0)) k.
Proof.
  unfold grow. destruct (Rle_dec g 0).
  - exists 0%nat. simpl. now rewrite app_nil_r.
  - eexists. reflexivity.
Qed.

Lemma grow_INR s (n : nat) :
  segments (grow s (INR n))
  = segments s ++ repeat (last (segments s) (mkPoint 0 0)) n.
Proof.
  unfold grow. destruct (Rle_dec (INR n) 0) as [H|H].
  - assert (n = 0%nat) as ->.
    { destruct n; [reflexivity|]. pose proof (lt_0_INR (S n) ltac:(lia)). lra. }
    simpl. now rewrite app_nil_r.
  - simpl. now rewrite ceil_INR.
Qed.

Lemma grow_copies s g :
  segments (grow s g)
  = segments s ++ repeat (last (segments s) (mkPoint 0 0)) (copies g).
Proof.
  unfold grow, copies. destruct (Rle_dec g 0); [|reflexivity].
  simpl. now rewrite app_nil_r.
Qed.

Lemma copies_INR (n : nat) : copies (INR n) = n.
Proof.
  unfold copies. destruct (Rle_dec (INR n) 0) as [H|H].
  - destruct n; [reflexivity|]. pose proof (lt_0_INR (S n) ltac:(lia)). lra.
  - apply ceil_INR.
Qed.

Lemma copies_0 : copies 0 = 0%nat.
Proof. unfold copies. destruct (Rle_dec 0 0) as [_|H]; [reflexivity|lra]. Qed.

Lemma sumValues_count ps :
  countValued ps -> exists n : nat, sumValues ps = INR n.
Proof.
  induction 1 as [|p tl [n Hn] _ [m Hm]]; simpl.
  - now exists 0%nat.
  - exists (n + m)%nat. rewrite plus_INR. lra.
Qed.

Lemma countValued_filter f ps : countValued ps -> countValued (filter f ps).
Proof.
  unfold countValued. rewrite !Forall_forall. intros H p Hp.
  apply filter_In in Hp. now apply H.
Qed.

(** ** Death detection *)

Lemma has_In l x : has l x = true <-> In x l.
Proof.
  unfold has. rewrite existsb_exists. split.
  - intros [y [Hy E]]. apply String.eqb_eq in E. now subst.
  - intros H. exists x. split; [exact H | apply String.eqb_refl].
Qed.

Lemma add_In l x i : In i (add l x) <-> In i l \/ i = x.
Proof.
  unfold add. destruct (has l x) eqn:E.
  - apply has_In in E. split; [now left | intros [H| ->]; assumption].
  - rewrite in_app_iff. simpl. split; intros [H|H]; auto.
    + destruct H as [H|[]]; auto.
Qed.

Lemma add_NoDup l x : NoDup l -> NoDup (add l x).
Proof.
  intros H. unfold add. destruct (has l x) eqn:E; [exact H|].
  apply NoDup_app; [exact H | repeat constructor; easy |].
  intros y Hy [<-|[]]. apply has_In in Hy. congruence.
Qed.

Lemma detect_spec b all : forall todo acc dead,
  detect b all todo acc = Some dead ->
  forall i, In i dead <->
            In i acc \/ exists s, In s todo /\ id s = i /\ dies b all s.
Proof.
  induction todo as [|s tl IH]; intros acc dead H i; cbn [detect] in H; unfold bind in H.
  - injection H as <-. split; [now left|]. intros [H|(s & [] & _)]. exact H.
  - destruct (nth_error (segments s) 0) as [h|] eqn:Eh; [|discriminate].
    destruct (hitWall h b || headHitsBody (id s) h all) eqn:Ed.
    + rewrite (IH _ _ H i), add_In. split.
      * intros [[Hi| ->]|(s' & Hs' & Hid & Hd)].
        -- now left.
        -- right. exists s. split; [now left|]. split; [reflexivity|].
           exists h. now split.
        -- right. exists s'. split; [now right|]. now split.
      * intros [Hi|(s' & [<-|Hs'] & Hid & Hd)].
        -- left. now left.
        -- left. now right.
        -- right. exists s'. now split.
    + rewrite (IH _ _ H i). split.
      * intros [Hi|(s' & Hs' & Hid & Hd)]; [now left|].
        right. exists s'. split; [now right|]. now split.
      * intros [Hi|(s' & [<-|Hs'] & Hid & Hd)]; [now left| |].
        -- destruct Hd as (h' & Eh' & Hd). rewrite Eh in Eh'.
           injection Eh' as <-. congruence.
        -- right. exists s'. now split.
Qed.

Lemma detect_total b all : forall todo acc,
  Forall hasHead todo -> exists dead, detect b all todo acc = Some dead.
Proof.
  induction todo as [|s tl IH]; intros acc H; simpl.
  - eexists; reflexivity.
  - inversion H as [|? ? Hs Htl]; subst. unfold hasHead in Hs.
    destruct (segments s) as [|h rest]; [easy|]. simpl.
    destruct (hitWall h b || headHitsBody (id s) h all); now apply IH.
Qed.

Lemma detect_NoDup b all : forall todo acc dead,
  detect b all todo acc = Some dead -> NoDup acc -> NoDup dead.
Proof.
  induction todo as [|s tl IH]; intros acc dead H Hn; cbn [detect] in H; unfold bind in H.
  - now injection H as <-.
  - destruct (nth_error (segments s) 0) as [h|]; [|discriminate].
    destruct (hitWall h b || headHitsBody (id s) h all);
      eapply IH; eauto using add_NoDup.
Qed.

Lemma dist_distSq (a b : Point) : dist a b = R_sqrt.sqrt (distSq a b).
Proof. unfold dist, hypot, distSq. f_equal. ring. Qed.

Lemma distSq_nonneg (a b : Point) : 0 <= distSq a b.
Proof.
  unfold distSq.
  pose proof (Rle_0_sqr (px b - px a)) as H1.
  pose proof (Rle_0_sqr (py b - py a)) as H2.
  unfold Rsqr in *. lra.
Qed.

(** Comparing squares is comparing distances. *)
Lemma distSq_lt (a b : Point) (r : R) :
  0 < r -> (distSq a b < r * r <-> dist a b < r).
Proof.
  intros Hr. rewrite dist_distSq. pose proof (distSq_nonneg a b) as H0. split.
  - intros H. rewrite <- (sqrt_square r) by lra.
    apply sqrt_lt_1_alt. lra.
  - intros H. pose proof (sqrt_pos (distSq a b)) as Hp.
    rewrite <- (sqrt_sqrt (distSq a b)) by exact H0. nra.
Qed.

Lemma hitWall_spec (h : Point) (b : Bounds) :
  hitWall h b = true <->
  px h < HEAD_RADIUS \/ py h < HEAD_RADIUS \/
  width b - px h < HEAD_RADIUS \/ height b - py h < HEAD_RADIUS.
Proof.
  unfold hitWall. rewrite !orb_true_iff, !Rltb_true. unfold HEAD_RADIUS.
  intuition lra.
Qed.

Lemma headHitsBody_spec (i : string) (h : Point) (all : list Snake) :
  headHitsBody i h all = true <->
  exists o seg, In o all /\ id o <> i /\ In seg (segments o) /\
                dist h seg < HEAD_RADIUS + BODY_RADIUS.
Proof.
  unfold headHitsBody. rewrite existsb_exists. split.
  - intros (o & Ho & H). destruct (String.eqb (id o) i) eqn:E; [discriminate|].
    apply existsb_exists in H. destruct H as (seg & Hseg & H).
    apply Rltb_true, distSq_lt in H; [|unfold HEAD_RADIUS, BODY_RADIUS; lra].
    exists o, seg. repeat split; try assumption. now apply String.eqb_neq.
  - intros (o & seg & Ho & Hid & Hseg & H). exists o. split; [exact Ho|].
    apply String.eqb_neq in Hid. rewrite Hid.
    apply existsb_exists. exists seg. split; [exact Hseg|].
    apply Rltb_true, distSq_lt; [unfold HEAD_RADIUS, BODY_RADIUS; lra|exact H].
Qed.

(** ** Pellet drop *)

Lemma floor_div (a b : Z) : (0 < b)%Z -> floor (IZR a / IZR b) = (a / b)%Z.
Proof.
  intros Hb. apply floor_unique.
  - pose proof (Z.mul_div_le a b Hb) as H. apply IZR_le in H.
    rewrite mult_IZR in H. apply IZR_lt in Hb.
    apply (Rmult_le_reg_r (IZR b)); [exact Hb|].
    replace (IZR a / IZR b * IZR b) with (IZR a) by (field; lra). lra.
  - pose proof (Z.mul_succ_div_gt a b Hb) as H. apply IZR_lt in H.
    rewrite mult_IZR, succ_IZR in H. apply IZR_lt in Hb.
    apply (Rmult_lt_reg_r (IZR b)); [exact Hb|].
    replace (IZR a / IZR b * IZR b) with (IZR a) by (field; lra). lra.
Qed.

Lemma dropCount_floor (len : nat) :
  Z.max 1 (floor (IZR (Z.of_nat len) * DEATH_PELLET_FRACTION))
  = Z.of_nat (dropCount len).
Proof.
  unfold dropCount.
  replace (IZR (Z.of_nat len) * DEATH_PELLET_FRACTION)
    with (IZR (2 * Z.of_nat len) / IZR 5)
    by (rewrite mult_IZR; unfold DEATH_PELLET_FRACTION; lra).
  rewrite floor_div by lia.
  rewrite Nat2Z.inj_max, Nat2Z.inj_div, Nat2Z.inj_mul. reflexivity.
Qed.

Lemma dropStep_floor (len : nat) :
  Z.max 1 (floor (IZR (Z.of_nat len) / IZR (Z.of_nat (dropCount len))))
  = Z.of_nat (dropStep len).
Proof.
  unfold dropStep.
  rewrite floor_div by (unfold dropCount; lia).
  rewrite Nat2Z.inj_max, Nat2Z.inj_div. reflexivity.
Qed.

Lemma nthZ_of_nat {A} (l : list A) (n : nat) (d : A) :
  (n < List.length l)%nat -> nthZ l (Z.of_nat n) = Some (nth n l d).
Proof.
  intros H. unfold nthZ.
  destruct (Z.ltb_spec (Z.of_nat n) 0); [lia|].
  rewrite Nat2Z.id. now apply nth_error_nth'.
Qed.

Lemma dropPellets_spec (dead : Snake) :
  hasHead dead -> dropPellets dead = Some (dropped dead).
Proof.
  intros H. unfold dropPellets, dropped.
  rewrite dropCount_floor, dropStep_floor, Nat2Z.id.
  set (len := List.length (segments dead)).
  assert (Hlen : (1 <= len)%nat).
  { unfold len. unfold hasHead in H. destruct (segments dead); [easy|simpl; lia]. }
  rewrite <- mapM_map. apply mapM_ext. intros i _.
  replace (Z.min (Z.of_nat i * Z.of_nat (dropStep len)) (Z.of_nat len - 1))
    with (Z.of_nat (dropIndex len i))
    by (unfold dropIndex; lia).
  rewrite (nthZ_of_nat _ _ (mkPoint 0 0)) by (unfold dropIndex; fold len; lia).
  reflexivity.
Qed.

Lemma dropAll_spec stateSnakes : forall deadIds ps,
  Forall hasHead stateSnakes ->
  dropAll stateSnakes deadIds ps = Some (ps ++ dropsOf stateSnakes deadIds).
Proof.
  induction deadIds as [|i tl IH]; intros ps H; simpl.
  - now rewrite app_nil_r.
  - destruct (find _ stateSnakes) as [dead|] eqn:E.
    + apply find_some in E. destruct E as [Hin _].
      rewrite Forall_forall in H. rewrite (dropPellets_spec _ (H _ Hin)).
      simpl. rewrite IH by now apply Forall_forall.
      unfold dropsOf. now rewrite app_assoc.
    + now apply IH.
Qed.

(** ** The phases of a tick *)

Lemma moveAll_total dt ta l :
  Forall hasHead l -> exists moved, moveAll dt ta l = Some moved.
Proof.
  intros H. apply mapM_total. rewrite Forall_forall in *.
  intros s Hs. apply moveSnake_total. now apply H.
Qed.

Lemma moveAll_some_heads dt ta l moved :
  moveAll dt ta l = Some moved -> Forall hasHead l.
Proof.
  intros H. apply mapM_Forall2 in H.
  induction H as [|s m l' moved' Hm _ IH]; constructor; [|exact IH].
  destruct (moveSnake_inv _ _ _ _ Hm) as (h & rest & E & _).
  unfold hasHead. now rewrite E.
Qed.

Lemma moveAll_heads dt ta l moved :
  moveAll dt ta l = Some moved -> Forall hasHead moved.
Proof.
  intros H. apply mapM_Forall2 in H.
  induction H as [|s m l' moved' Hm _ IH]; constructor; [|exact IH].
  destruct (moveSnake_inv _ _ _ _ Hm) as (h & rest & _ & _ & _ & _ & _ & _ & _ & E).
  unfold hasHead. now rewrite E.
Qed.

Lemma grow_hasHead s g : hasHead s -> hasHead (grow s g).
Proof.
  intros H. unfold hasHead in *. destruct (grow_segments s g) as [k ->].
  now destruct (segments s).
Qed.

Lemma Consumption_heads l ps grown eaten left :
  Consumption l ps grown eaten left -> Forall hasHead grown.
Proof.
  induction 1 as [|s h rest ps tl tl' eaten ps' E _ IH]; constructor; [|exact IH].
  apply grow_hasHead. unfold hasHead. now rewrite E.
Qed.

(** A tick on organisms that all have a head returns, and its result is made
    of the results of the phases. *)
Lemma tick_run random state dt ta :
  Forall hasHead (snakes state) ->
  exists moved grown eaten left deadIds,
    moveAll dt ta (snakes state) = Some moved /\
    feedAll moved (pellets state) = Some (grown, left) /\
    Consumption moved (pellets state) grown eaten left /\
    detect (bounds state) grown grown [] = Some deadIds /\
    tick random state dt ta
    = Some (tickResult random state dt grown left deadIds, deadIds).
Proof.
  intros H.
  destruct (moveAll_total dt ta _ H) as [moved Hm].
  destruct (feedAll_spec moved (pellets state) (moveAll_heads _ _ _ _ Hm))
    as (grown & eaten & left & Hf & Hc).
  destruct (detect_total (bounds state) grown grown []
              (Consumption_heads _ _ _ _ _ Hc)) as [deadIds Hd].
  exists moved, grown, eaten, left, deadIds.
  repeat split; try assumption.
  unfold tick. rewrite Hm. simpl bind. rewrite Hf. simpl bind.
  rewrite Hd. simpl bind. rewrite (dropAll_spec _ _ _ H). simpl bind.
  unfold tickResult, spawned, survivors.
  destruct (Rleb (nextPelletSpawn state - dt) 0); reflexivity.
Qed.

(** A tick that returns was given organisms that all have a head. *)
Lemma tick_some_heads random state dt ta res :
  tick random state dt ta = Some res -> Forall hasHead (snakes state).
Proof.
  unfold tick. intros H.
  destruct (moveAll dt ta (snakes state)) as [moved|] eqn:Hm; [|discriminate].
  eapply moveAll_some_heads, Hm.
Qed.

(** A tick on an organism without segments throws. *)
Lemma tick_headless random state dt ta :
  ~ Forall hasHead (snakes state) -> tick random state dt ta = None.
Proof.
  intros H. destruct (tick random state dt ta) eqn:E; [|reflexivity].
  elim H. eapply tick_some_heads, E.
Qed.

(** ** Evaluating on concrete inputs *)

Lemma moveSnake_eq s dt t head rest :
  segments s = head :: rest ->
  moveSnake s dt t =
  let a := steer (angle s) (turnSpeed s) dt t in
  let newHead := advance head a (speed s) dt in
  Some {| id := id s;
          segments := newHead :: follow a newHead rest;
          angle := a;
          speed := speed s;
          turnSpeed := turnSpeed s;
          color := color s;
          isPlayer := isPlayer s |}.
Proof. intros E. unfold moveSnake. rewrite E. reflexivity. Qed.

(** Steering toward the current heading leaves it as it is. *)
Lemma steer_same (a ts dt : R) : - PI <= a <= PI -> steer a ts dt a = a.
Proof.
  intros H. unfold steer.
  replace (a - a) with 0 by lra. rewrite normalizeAngle_0.
  replace (a + 0 * Rmin 1 (ts * dt)) with a by lra.
  now apply normalizeAngle_id.
Qed.

Lemma PI_gt_3 : 3 < PI.
Proof. pose proof PI2_3_2. lra. Qed.

(** ** From the organisms a tick returns back to the ones it was given *)

Lemma Forall2_In_r {A B} (P : A -> B -> Prop) l l' b :
  Forall2 P l l' -> In b l' -> exists a, In a l /\ P a b.
Proof.
  induction 1 as [|x y l l' Hxy _ IH]; intros Hb; [easy|].
  destruct Hb as [<-|Hb].
  - exists x. split; [now left|exact Hxy].
  - destruct (IH Hb) as [a [Ha HP]]. exists a. split; [now right|exact HP].
Qed.

(** Each organism after consumption is one of the moved ones, grown by the
    values of the pellets its head hits among some of the pellets. *)
Lemma Consumption_In l ps grown eaten left :
  Consumption l ps grown eaten left ->
  forall g, In g grown ->
  exists m h rest avail,
    In m l /\ segments m = h :: rest /\ incl avail ps /\
    g = grow m (sumValues (filter (hits h) avail)).
Proof.
  induction 1 as [|s h rest ps tl tl' eaten ps' E _ IH]; intros g Hg; [easy|].
  destruct Hg as [<-|Hg].
  - exists s, h, rest, ps. repeat split; try easy. now left.
  - destruct (IH g Hg) as (m & h' & rest' & avail & Hm & E' & Hi & ->).
    exists m, h', rest', avail. repeat split; try easy.
    + now right.
    + intros p Hp. apply Hi in Hp. now apply filter_In in Hp.
Qed.

Lemma Consumption_ids l ps grown eaten left :
  Consumption l ps grown eaten left -> map id grown = map id l.
Proof. induction 1; simpl; [reflexivity|]. now rewrite grow_id, IHConsumption. Qed.

Lemma moveAll_ids dt ta l moved :
  moveAll dt ta l = Some moved -> map id moved = map id l.
Proof.
  intros H. apply mapM_Forall2 in H.
  induction H as [|s m l' moved' Hm _ IH]; simpl; [reflexivity|].
  destruct (moveSnake_inv _ _ _ _ Hm) as (h & rest & _ & -> & _). now rewrite IH.
Qed.

Lemma survivors_In dead grown s :
  In s (survivors dead grown) <-> In s grown /\ ~ In (id s) dead.
Proof.
  unfold survivors. rewrite filter_In, negb_true_iff, <- has_In.
  now destruct (has dead (id s)).
Qed.

(** An organism of the returned state is an organism of the given state,
    moved and then grown. *)
Lemma tick_trace random state dt ta moved grown eaten left deadIds :
  moveAll dt ta (snakes state) = Some moved ->
  Consumption moved (pellets state) grown eaten left ->
  forall s', In s' (snakes (tickResult random state dt grown left deadIds)) ->
  exists s m h rest avail,
    In s (snakes state) /\
    moveSnake s dt (targetOf ta s) = Some m /\
    segments m = h :: rest /\ incl avail (pellets state) /\
    s' = grow m (sumValues (filter (hits h) avail)).
Proof.
  intros Hm Hc s' Hs'. simpl in Hs'. apply survivors_In in Hs'.
  destruct Hs' as [Hg _].
  destruct (Consumption_In _ _ _ _ _ Hc _ Hg) as (m & h & rest & avail & Hin & E & Hi & ->).
  destruct (Forall2_In_r _ _ _ _ (mapM_Forall2 _ _ _ Hm) Hin) as (s & Hs & Hms).
  exists s, m, h, rest, avail. now repeat split.
Qed.

Lemma tick_alone random s h dt ta b n timer :
  segments s = [h] ->
  hitWall (advance h (steer (angle s) (turnSpeed s) dt (targetOf ta s))
                   (speed s) dt) b = false ->
  tick random (mkState [s] [] b n timer) dt ta
  = Some (tickResult random (mkState [s] [] b n timer) dt
                     [movedAlone s h dt ta] [] [], []).
Proof.
  intros E Hw. unfold tick, moveAll.
  cbn [snakes pellets bounds nextPelletSpawn mapM bind].
  rewrite (moveSnake_eq s _ _ h [] E).
  cbn [bind feedAll feed segments nth_error List.length eatLoop follow].
  destruct (Rle_dec 0 0) as [_|H]; [|lra].
  cbn [bind detect segments nth_error id].
  rewrite Hw. unfold headHitsBody. cbn [existsb id]. rewrite String.eqb_refl.
  cbn [orb bind dropAll]. unfold tickResult, survivors, dropsOf, spawned.
  cbn [snakes pellets bounds nextPelletSpawn nextSnakeId flat_map app filter
       has existsb negb].
  reflexivity.
Qed.

(** ** C1: the speed multiplier *)

Lemma boostPlayer_steer :
  steer (angle boostPlayer) (turnSpeed boostPlayer) (1 / 60)
        (targetOf noTargets boostPlayer) = 0.
Proof.
  unfold targetOf, noTargets. cbn [boostPlayer angle turnSpeed id].
  apply steer_same. pose proof PI_gt_3. lra.
Qed.

Lemma boostPlayer_advance :
  advance (mkPoint 100 100) 0 (speed boostPlayer) (1 / 60) = mkPoint 102 100.
Proof.
  unfold advance. rewrite cos_0, sin_0.
  cbn [px py boostPlayer speed]. unfold DEFAULT_SPEED.
  apply f_equal2; lra.
Qed.

(** C1, at the failing input: with [playerSpeedMultiplier = 1.5] and
    [dt = 1/60] the player of [boostState] (speed 120, heading 0, head at
    (100, 100)) ends the tick with its head at (102, 100): it advanced by
    [speed * dt = 2], not by [speed * 1.5 * dt = 3]. *)
Theorem boost_ignored (random : Random) :
  exists st',
    SlitherPage_tick random boostState (1 / 60) noTargets
                     (mkTickOptions 1.5) = Some (st', [])
    /\ map (fun s => (isPlayer s, segments s)) (snakes st')
       = [(true, [mkPoint 102 100])]
    /\ 100 + speed boostPlayer * (1 / 60) = 102
    /\ 100 + speed boostPlayer * 1.5 * (1 / 60) = 103.
Proof.
  eexists. split; [|split; [|split]].
  - unfold SlitherPage_tick, boostState.
    apply (tick_alone _ boostPlayer (mkPoint 100 100)); [reflexivity|].
    rewrite boostPlayer_steer, boostPlayer_advance.
    destruct (hitWall _ _) eqn:E; [|reflexivity].
    apply hitWall_spec in E. unfold HEAD_RADIUS in E.
    cbn [px py width height] in E. lra.
  - cbn [tickResult snakes survivors filter has existsb negb map movedAlone
         isPlayer segments].
    rewrite boostPlayer_steer, boostPlayer_advance. reflexivity.
  - cbn [boostPlayer speed]. unfold DEFAULT_SPEED. lra.
  - cbn [boostPlayer speed]. unfold DEFAULT_SPEED. lra.
Qed.

(** ** C2: the heading of a tick *)

Lemma steer_towards3 : steer 0 TURN_SPEED (1 / 60) 3 = 1 / 5.
Proof.
  unfold steer, TURN_SPEED. pose proof PI_gt_3 as HPI.
  rewrite (normalizeAngle_id (3 - 0)) by lra.
  rewrite Rmin_right by lra.
  rewrite normalizeAngle_id by lra. lra.
Qed.

(** C2, counterexample: the player of [boostState] (heading 0, turnSpeed 4)
    is given the target heading 3 for a tick of [dt = 1/60]; its heading
    after the tick is [1/5], a change of [1/5], above
    [turnSpeed * dt = 1/15]. *)
Lemma heading_rate_counterexample :
  exists st',
    tick (fun _ => 0) boostState (1 / 60) towards3 = Some (st', [])
    /\ map angle (snakes st') = [1 / 5]
    /\ Rabs (normalizeAngle (1 / 5 - angle boostPlayer)) = 1 / 5
    /\ ~ 1 / 5 <= turnSpeed boostPlayer * (1 / 60).
Proof.
  eexists. split; [|split; [|split]].
  - unfold boostState. apply (tick_alone _ boostPlayer (mkPoint 100 100)).
    + reflexivity.
    + cbn [boostPlayer angle turnSpeed speed targetOf towards3 id String.eqb
           Ascii.eqb Bool.eqb].
      rewrite steer_towards3.
      destruct (hitWall _ _) eqn:E; [|reflexivity].
      apply hitWall_spec in E. unfold advance, HEAD_RADIUS, DEFAULT_SPEED in E.
      cbn [px py width height] in E.
      pose proof (COS_bound (1 / 5)). pose proof (SIN_bound (1 / 5)). lra.
  - cbn [tickResult snakes survivors filter has existsb negb map movedAlone
         angle boostPlayer turnSpeed targetOf towards3 id String.eqb
         Ascii.eqb Bool.eqb].
    now rewrite steer_towards3.
  - cbn [boostPlayer angle]. pose proof PI_gt_3.
    rewrite normalizeAngle_id by lra.
    rewrite Rabs_right by lra. lra.
  - cbn [boostPlayer turnSpeed]. unfold TURN_SPEED. lra.
Qed.

(** C2, amended: after a tick with [turnSpeed * dt >= 0], the normalized
    difference between an organism's new and old heading is, in absolute
    value, the fraction [min(1, turnSpeed * dt)] of its normalized difference
    to the target: at most [PI * min(1, turnSpeed * dt)]; at most
    [turnSpeed * dt] whenever the target is within one radian; and, when
    [0 < turnSpeed * dt <= 1], at most [turnSpeed * dt] exactly when the
    target is within one radian. *)
Theorem heading_change (random : Random) (state : GameState) (dt : R)
    (ta : TargetAngles) :
  Forall hasHead (snakes state) ->
  (forall s, In s (snakes state) -> 0 <= turnSpeed s * dt) ->
  exists st' deadIds,
    tick random state dt ta = Some (st', deadIds) /\
    forall s', In s' (snakes st') ->
    exists s, In s (snakes state) /\ id s = id s' /\
      let change := Rabs (normalizeAngle (angle s' - angle s)) in
      let toTarget := Rabs (normalizeAngle (targetOf ta s - angle s)) in
      change = toTarget * Rmin 1 (turnSpeed s * dt) /\
      change <= PI * Rmin 1 (turnSpeed s * dt) /\
      (toTarget <= 1 -> change <= turnSpeed s * dt) /\
      (0 < turnSpeed s * dt <= 1 ->
       (change <= turnSpeed s * dt <-> toTarget <= 1)).
Proof.
  intros Hh Hk.
  destruct (tick_run random state dt ta Hh)
    as (moved & grown & eaten & left & deadIds & Hm & _ & Hc & _ & Ht).
  eexists _, deadIds. split; [exact Ht|]. intros s' Hs'.
  destruct (tick_trace _ _ _ _ _ _ _ _ _ Hm Hc s' Hs')
    as (s & m & h & rest & avail & Hs & Hms & _ & _ & ->).
  destruct (moveSnake_inv _ _ _ _ Hms) as (_ & _ & _ & Hid & _ & _ & _ & _ & Ha & _).
  exists s. split; [exact Hs|]. split; [now rewrite grow_id|].
  rewrite grow_angle, Ha. cbv zeta.
  rewrite (steer_change _ _ _ _ (Hk s Hs)).
  pose proof (Rmin_unit _ (Hk s Hs)) as Hu.
  pose proof (normalizeAngle_range (targetOf ta s - angle s)) as Hr.
  pose proof (Rabs_pos (normalizeAngle (targetOf ta s - angle s))) as Hp.
  assert (Hb : Rabs (normalizeAngle (targetOf ta s - angle s)) <= PI).
  { apply Rabs_le. lra. }
  pose proof (Rmin_r 1 (turnSpeed s * dt)) as Hmin.
  split; [reflexivity|]. split; [nra|]. split; [intros H1; nra|].
  intros Hk1. rewrite Rmin_right by lra. split; intros H1; nra.
Qed.

(** The hypotheses of [heading_change] hold in the boost scenario. *)
Lemma heading_change_witness :
  Forall hasHead (snakes boostState)
  /\ (forall s, In s (snakes boostState) -> 0 <= turnSpeed s * (1 / 60))
  /\ exists st' deadIds,
      tick (fun _ => 0) boostState (1 / 60) towards3 = Some (st', deadIds) /\
      forall s', In s' (snakes st') ->
      exists s, In s (snakes boostState) /\ id s = id s' /\
        let change := Rabs (normalizeAngle (angle s' - angle s)) in
        let toTarget := Rabs (normalizeAngle (targetOf towards3 s - angle s)) in
        change = toTarget * Rmin 1 (turnSpeed s * (1 / 60)) /\
        change <= PI * Rmin 1 (turnSpeed s * (1 / 60)) /\
        (toTarget <= 1 -> change <= turnSpeed s * (1 / 60)) /\
        (0 < turnSpeed s * (1 / 60) <= 1 ->
         (change <= turnSpeed s * (1 / 60) <-> toTarget <= 1)).
Proof.
  assert (H1 : Forall hasHead (snakes boostState)).
  { repeat constructor. discriminate. }
  assert (H2 : forall s, In s (snakes boostState) -> 0 <= turnSpeed s * (1 / 60)).
  { intros s [<-|[]]. cbn [boostPlayer turnSpeed]. unfold TURN_SPEED. lra. }
  split; [exact H1|]. split; [exact H2|].
  exact (heading_change (fun _ => 0) boostState (1 / 60) towards3 H1 H2).
Defined.

(** ** C7: organisms without a target, targets without an organism *)

Lemma tick_targets_ext random state dt ta ta' :
  (forall s, In s (snakes state) -> ta' (id s) = ta (id s)) ->
  tick random state dt ta' = tick random state dt ta.
Proof.
  intros H. unfold tick, moveAll.
  rewrite (mapM_ext (fun s => moveSnake s dt (targetOf ta' s))
                    (fun s => moveSnake s dt (targetOf ta s))); [reflexivity|].
  intros s Hs. unfold targetOf. now rewrite (H s Hs).
Qed.

(** C7: in a tick, an organism whose id has no entry in [targetAngles] and
    whose heading is in [[-PI, PI]] keeps its heading; and two mappings that
    agree on the ids of the organisms of the state give the same state and
    the same [deadIds]. *)
Theorem no_target_no_turn (random : Random) (state : GameState) (dt : R)
    (ta : TargetAngles) :
  Forall hasHead (snakes state) ->
  exists st' deadIds,
    tick random state dt ta = Some (st', deadIds) /\
    (forall s', In s' (snakes st') ->
       exists s, In s (snakes state) /\ id s = id s' /\
         (ta (id s) = None -> - PI <= angle s <= PI -> angle s' = angle s)) /\
    (forall ta' : TargetAngles,
       (forall s, In s (snakes state) -> ta' (id s) = ta (id s)) ->
       tick random state dt ta' = Some (st', deadIds)).
Proof.
  intros Hh.
  destruct (tick_run random state dt ta Hh)
    as (moved & grown & eaten & left & deadIds & Hm & _ & Hc & _ & Ht).
  eexists _, deadIds. split; [exact Ht|]. split.
  - intros s' Hs'.
    destruct (tick_trace _ _ _ _ _ _ _ _ _ Hm Hc s' Hs')
      as (s & m & h & rest & avail & Hs & Hms & _ & _ & ->).
    destruct (moveSnake_inv _ _ _ _ Hms) as (_ & _ & _ & Hid & _ & _ & _ & _ & Ha & _).
    exists s. split; [exact Hs|]. split; [now rewrite grow_id|].
    intros Hnone Hrange. rewrite grow_angle, Ha.
    unfold targetOf. rewrite Hnone. now apply steer_same.
  - intros ta' Hsame. now rewrite (tick_targets_ext _ _ _ _ _ Hsame).
Qed.

(** The player of [boostState], given no target, in a tick. *)
Lemma no_target_no_turn_witness :
  Forall hasHead (snakes boostState)
  /\ exists st' deadIds,
      tick (fun _ => 0) boostState (1 / 60) noTargets = Some (st', deadIds) /\
      (forall s', In s' (snakes st') ->
         exists s, In s (snakes boostState) /\ id s = id s' /\
           (noTargets (id s) = None -> - PI <= angle s <= PI ->
            angle s' = angle s)) /\
      (forall ta' : TargetAngles,
         (forall s, In s (snakes boostState) -> ta' (id s) = noTargets (id s)) ->
         tick (fun _ => 0) boostState (1 / 60) ta' = Some (st', deadIds)).
Proof.
  assert (H1 : Forall hasHead (snakes boostState)).
  { repeat constructor. discriminate. }
  split; [exact H1|].
  exact (no_target_no_turn (fun _ => 0) boostState (1 / 60) noTargets H1).
Defined.

(** ** C3: spacing of the segments after a tick *)

Lemma Forall2_nth_r {A B} (P : A -> B -> Prop) : forall l l' k b,
  Forall2 P l l' -> nth_error l' k = Some b ->
  exists a, nth_error l k = Some a /\ P a b.
Proof.
  intros l l' k b H. revert k.
  induction H as [|x y l l' Hxy _ IH]; intros k Hk; [now destruct k|].
  destruct k as [|k]; cbn [nth_error] in *.
  - injection Hk as <-. now exists x.
  - now apply IH.
Qed.

Lemma filter_none {A} (f : A -> bool) (l : list A) :
  (forall x, In x l -> f x = false) -> filter f l = [].
Proof.
  induction l as [|x tl IH]; intros H; [reflexivity|]. cbn [filter].
  rewrite (H x) by now left. apply IH. intros y Hy. apply H. now right.
Qed.

(** The organism of index [k] after the pass, traced back to the one of
    index [k] before it and to what it took. *)
Lemma Consumption_grown_nth l ps grown eaten left :
  Consumption l ps grown eaten left ->
  forall k g, nth_error grown k = Some g ->
  exists m h rest avail,
    nth_error l k = Some m /\ segments m = h :: rest /\ incl avail ps /\
    nth_error eaten k = Some (filter (hits h) avail) /\
    g = grow m (sumValues (filter (hits h) avail)).
Proof.
  induction 1 as [|s h rest ps tl tl' eaten ps' E _ IH]; intros k g Hk.
  - now destruct k.
  - destruct k as [|k]; cbn [nth_error] in *.
    + injection Hk as <-. exists s, h, rest, ps.
      split; [reflexivity|]. split; [exact E|]. split; [apply incl_refl|].
      now split.
    + destruct (IH k g Hk) as (m & h' & rest' & avail & Hm & E' & Hi & He & Hg).
      exists m, h', rest', avail. repeat split; try easy.
      intros p Hp. apply Hi in Hp. now apply filter_In in Hp.
Qed.

(** C3, amended: after a tick, the segments of a live organism are the chain
    that the body-follow step of that tick produced for it, the moved head
    and then the follow-the-leader positions of its old segments, in which
    every two consecutive segments, head included, are [SEGMENT_SPACING]
    apart; followed by the copies of its tail appended in that tick for the
    pellets it took: as many as the growth loop makes rounds for the sum of
    their values, which is that sum when it is a whole number, and none
    when its head hit no pellet of the state. *)
Theorem spacing_after_tick (random : Random) (state : GameState) (dt : R)
    (ta : TargetAngles) :
  Forall hasHead (snakes state) ->
  exists moved grown eaten left st' deadIds,
    moveAll dt ta (snakes state) = Some moved /\
    feedAll moved (pellets state) = Some (grown, left) /\
    Consumption moved (pellets state) grown eaten left /\
    tick random state dt ta = Some (st', deadIds) /\
    (forall s', In s' (snakes st') <-> In s' grown /\ ~ In (id s') deadIds) /\
    forall k g, nth_error grown k = Some g ->
    exists s m e head rest,
      nth_error (snakes state) k = Some s /\
      nth_error moved k = Some m /\
      nth_error eaten k = Some e /\
      moveSnake s dt (targetOf ta s) = Some m /\
      segments s = head :: rest /\
      (let newHead := advance head (angle m) (speed s) dt in
       segments m = newHead :: follow (angle m) newHead rest /\
       ((forall p, In p (pellets state) -> hits newHead p = false) ->
        e = [])) /\
      spaced (segments m) /\
      segments g
      = segments m
        ++ repeat (last (segments m) (mkPoint 0 0)) (copies (sumValues e)) /\
      (e = [] -> segments g = segments m) /\
      (forall n : nat, sumValues e = INR n -> copies (sumValues e) = n).
Proof.
  intros Hh.
  destruct (tick_run random state dt ta Hh)
    as (moved & grown & eaten & left & deadIds & Hm & Hf & Hc & _ & Ht).
  exists moved, grown, eaten, left. eexists _, deadIds.
  split; [exact Hm|]. split; [exact Hf|]. split; [exact Hc|].
  split; [exact Ht|]. split.
  - intros s'. cbn [tickResult snakes]. apply survivors_In.
  - intros k g Hk.
    destruct (Consumption_grown_nth _ _ _ _ _ Hc k g Hk)
      as (m & h & rest' & avail & Hmk & E & Hi & He & ->).
    destruct (Forall2_nth_r _ _ _ _ _ (mapM_Forall2 _ _ _ Hm) Hmk)
      as (s & Hsk & Hms).
    destruct (moveSnake_inv _ _ _ _ Hms)
      as (head & rest & Es & _ & _ & _ & _ & _ & _ & Eseg).
    exists s, m, (filter (hits h) avail), head, rest.
    split; [exact Hsk|]. split; [exact Hmk|]. split; [exact He|].
    split; [exact Hms|]. split; [exact Es|]. split.
    + cbv zeta. split; [exact Eseg|]. intros Hno.
      rewrite Eseg in E. injection E as <- _.
      apply filter_none. intros p Hp. now apply Hno, Hi.
    + split; [eapply moveSnake_spaced, Hms|].
      split; [apply grow_copies|]. split.
      * intros Ee. rewrite grow_copies, Ee. cbn [sumValues].
        rewrite copies_0. cbn [repeat]. apply app_nil_r.
      * intros n En. rewrite En. apply copies_INR.
Qed.

Lemma hypot_10_0 : hypot (102 - 92) (100 - 100) = 10.
Proof.
  unfold hypot.
  replace ((102 - 92) * (102 - 92) + (100 - 100) * (100 - 100))
    with (10 * 10) by lra.
  apply sqrt_square. lra.
Qed.

Lemma sqrt_0_sq : R_sqrt.sqrt (0 * 0 + 0 * 0) = 0.
Proof. replace (0 * 0 + 0 * 0) with 0 by lra. apply sqrt_0. Qed.

Ltac points :=
  repeat (apply (f_equal2 (@cons Point));
          [apply (f_equal2 mkPoint); lra|]);
  try reflexivity.
(** C3, counterexample: [feedSnake] moves onto the pellet of [feedState] in
    a tick of [dt = 1/60] and lives; its segments are then (102, 100),
    (94, 100), (94, 100), and the segments of index 1 and 2 are at distance
    0, not [SEGMENT_SPACING]. *)
Lemma spacing_counterexample :
  exists st' s' a b,
    tick (fun _ => 0) feedState (1 / 60) noTargets = Some (st', [])
    /\ snakes st' = [s']
    /\ segments s' = [mkPoint 102 100; mkPoint 94 100; mkPoint 94 100]
    /\ nth_error (segments s') 1 = Some a
    /\ nth_error (segments s') 2 = Some b
    /\ dist a b = 0
    /\ dist a b <> SEGMENT_SPACING.
Proof.
  assert (Hmove : moveSnake feedSnake (1 / 60) (targetOf noTargets feedSnake)
                  = Some {| id := "player";
                            segments := [mkPoint 102 100; mkPoint 94 100];
                            angle := 0; speed := DEFAULT_SPEED;
                            turnSpeed := TURN_SPEED; color := playerColor;
                            isPlayer := true |}).
  { rewrite (moveSnake_eq feedSnake _ _ (mkPoint 100 100) [mkPoint 92 100])
      by reflexivity.
    unfold targetOf, noTargets.
    cbn [feedSnake angle turnSpeed speed id color isPlayer].
    rewrite steer_same by (pose proof PI_gt_3; lra).
    assert (Hadv : advance (mkPoint 100 100) 0 DEFAULT_SPEED (1 / 60)
                   = mkPoint 102 100).
    { unfold advance, DEFAULT_SPEED. rewrite cos_0, sin_0.
      cbn [px py]. apply f_equal2; lra. }
    rewrite Hadv. cbn [follow px py]. rewrite hypot_10_0.
    destruct (Rle_dec 10 1e-6) as [H|_]; [lra|].
    unfold SEGMENT_SPACING. do 2 f_equal. points. }
  set (m := {| id := "player"%string;
               segments := [mkPoint 102 100; mkPoint 94 100];
               angle := 0; speed := DEFAULT_SPEED;
               turnSpeed := TURN_SPEED; color := playerColor;
               isPlayer := true |}) in *.
  assert (Hhit : hits (mkPoint 102 100) (mkPellet 102 100 PELLET_VALUE) = true).
  { unfold hits, distSq, pelletPos, pelletRadiusSq, PELLET_RADIUS, HEAD_RADIUS.
    cbn [px py pel_x pel_y]. apply Rltb_true. lra. }
  assert (Hfeed : feedAll [m] (pellets feedState)
                  = Some ([grow m 1], [])).
  { cbn [feedAll feedState pellets].
    rewrite (feed_spec m (mkPoint 102 100) [mkPoint 94 100]) by reflexivity.
    cbn [filter]. unfold misses. rewrite Hhit.
    cbn [bind negb sumValues value]. unfold PELLET_VALUE.
    replace (1 + 0) with 1 by lra. reflexivity. }
  assert (Hwall : hitWall (mkPoint 102 100) (mkBounds 3000 3000) = false).
  { destruct (hitWall _ _) eqn:E; [|reflexivity].
    apply hitWall_spec in E. unfold HEAD_RADIUS in E.
    cbn [px py width height] in E. lra. }
  exists (tickResult (fun _ => 0) feedState (1 / 60) [grow m 1] [] []),
         (grow m 1), (mkPoint 94 100), (mkPoint 94 100).
  assert (Hseg : segments (grow m 1)
                 = [mkPoint 102 100; mkPoint 94 100; mkPoint 94 100]).
  { change (grow m 1) with (grow m (INR 1)). rewrite grow_INR. reflexivity. }
  assert (Hdet : detect (bounds feedState) [grow m 1] [grow m 1] []
                 = Some []).
  { cbn [detect]. rewrite Hseg. cbn [nth_error bind feedState bounds].
    rewrite Hwall. unfold headHitsBody. cbn [existsb].
    rewrite String.eqb_refl. reflexivity. }
  split; [|split; [|split; [|split; [|split; [|split]]]]].
  - destruct (tick_run (fun _ => 0) feedState (1 / 60) noTargets)
      as (moved & grown & eaten & left & deadIds & Hm & Hf & _ & Hd & Ht).
    { repeat constructor. discriminate. }
    unfold moveAll in Hm. cbn [feedState snakes mapM] in Hm.
    rewrite Hmove in Hm. cbn [bind] in Hm. injection Hm as <-.
    rewrite Hfeed in Hf. injection Hf as <- <-.
    rewrite Hdet in Hd. injection Hd as <-.
    exact Ht.
  - cbn [tickResult snakes survivors filter has existsb negb]. reflexivity.
  - exact Hseg.
  - now rewrite Hseg.
  - now rewrite Hseg.
  - unfold dist, hypot. cbn [px py].
    replace (94 - 94) with 0 by lra. replace (100 - 100) with 0 by lra.
    apply sqrt_0_sq.
  - unfold dist, hypot, SEGMENT_SPACING. cbn [px py].
    replace (94 - 94) with 0 by lra. replace (100 - 100) with 0 by lra.
    rewrite sqrt_0_sq. lra.
Qed.

(** The tick of [feedState], in which the organism eats. *)
Lemma spacing_after_tick_witness :
  Forall hasHead (snakes feedState)
  /\ exists st' deadIds,
      tick (fun _ => 0) feedState (1 / 60) noTargets = Some (st', deadIds) /\
      forall s', In s' (snakes st') ->
      exists body k,
        segments s' = body ++ repeat (last body (mkPoint 0 0)) k /\
        spaced body.
Proof.
  assert (H1 : Forall hasHead (snakes feedState)).
  { repeat constructor. discriminate. }
  split; [exact H1|].
  destruct (spacing_after_tick (fun _ => 0) feedState (1 / 60) noTargets H1)
    as (moved & grown & eaten & left & st' & deadIds
        & _ & _ & _ & Ht & Hlive & Hall).
  exists st', deadIds. split; [exact Ht|]. intros s' Hs'.
  apply Hlive in Hs'. destruct Hs' as [Hg _].
  apply In_nth_error in Hg. destruct Hg as [k Hk].
  destruct (Hall k s' Hk)
    as (s & m & e & head & rest & _ & _ & _ & _ & _ & _ & Hsp & Hseg & _).
  now exists (segments m), (copies (sumValues e)).
Defined.

(** ** C4, C5: death detection *)

Lemma NoDup_map_inj {A B} (f : A -> B) : forall l a b,
  NoDup (map f l) -> In a l -> In b l -> f a = f b -> a = b.
Proof.
  induction l as [|x tl IH]; intros a b Hn Ha Hb E; [easy|].
  simpl in Hn. inversion Hn as [|? ? Hx Htl]; subst.
  destruct Ha as [<-|Ha], Hb as [<-|Hb].
  - reflexivity.
  - elim Hx. rewrite E. now apply in_map.
  - elim Hx. rewrite <- E. now apply in_map.
  - now apply IH.
Qed.

Lemma duelState_heads : Forall hasHead (snakes duelState).
Proof. repeat constructor; discriminate. Qed.

Lemma duelState_ids : NoDup (map id (snakes duelState)).
Proof.
  repeat constructor; simpl; [|easy].
  intros [H|[]]. discriminate.
Qed.

(** C4: in a tick on organisms with distinct ids, an organism, as it is after
    movement and growth, has its id in [deadIds] exactly when its head is
    near a wall or near a segment of another organism; its own segments do
    not count; and no organism of the returned state has an id of
    [deadIds]. *)
Theorem death_rule (random : Random) (state : GameState) (dt : R)
    (ta : TargetAngles) :
  Forall hasHead (snakes state) ->
  NoDup (map id (snakes state)) ->
  exists moved grown left st' deadIds,
    moveAll dt ta (snakes state) = Some moved /\
    feedAll moved (pellets state) = Some (grown, left) /\
    tick random state dt ta = Some (st', deadIds) /\
    (forall s h, In s grown -> nth_error (segments s) 0 = Some h ->
       (In (id s) deadIds <->
        nearWall h (bounds state) \/ nearOther s h grown)) /\
    (forall i s', In i deadIds -> In s' (snakes st') -> id s' <> i).
Proof.
  intros Hh Hn.
  destruct (tick_run random state dt ta Hh)
    as (moved & grown & eaten & left & deadIds & Hm & Hf & Hc & Hd & Ht).
  exists moved, grown, left. eexists _, deadIds.
  split; [exact Hm|]. split; [exact Hf|]. split; [exact Ht|].
  assert (Hng : NoDup (map id grown)).
  { now rewrite (Consumption_ids _ _ _ _ _ Hc), (moveAll_ids _ _ _ _ Hm). }
  split.
  - intros s h Hs Eh. rewrite (detect_spec _ _ _ _ _ Hd). split.
    + intros [[]|(t & Ht' & Hid & h' & Eh' & Hdie)].
      assert (t = s) as -> by (eapply NoDup_map_inj; eauto).
      rewrite Eh in Eh'. injection Eh' as <-.
      apply orb_true_iff in Hdie. destruct Hdie as [Hw|Hb].
      * left. now apply hitWall_spec.
      * right. apply headHitsBody_spec in Hb.
        destruct Hb as (o & seg & Ho & Hne & Hseg & H).
        exists o, seg. repeat split; try assumption. now intros ->.
    + intros H. right. exists s. split; [exact Hs|]. split; [reflexivity|].
      exists h. split; [exact Eh|]. apply orb_true_iff.
      destruct H as [Hw|(o & seg & Ho & Hne & Hseg & H)].
      * left. now apply hitWall_spec.
      * right. apply headHitsBody_spec. exists o, seg.
        repeat split; try assumption.
        intros E. apply Hne. eapply NoDup_map_inj; eauto.
  - intros i s' Hi Hs'. simpl in Hs'. apply survivors_In in Hs'.
    destruct Hs' as [_ Hnot]. intros E. apply Hnot. now rewrite E.
Qed.

(** The tick of [duelState]. *)
Lemma death_rule_witness :
  Forall hasHead (snakes duelState)
  /\ NoDup (map id (snakes duelState))
  /\ exists moved grown left st' deadIds,
      moveAll (1 / 60) noTargets (snakes duelState) = Some moved /\
      feedAll moved (pellets duelState) = Some (grown, left) /\
      tick (fun _ => 0) duelState (1 / 60) noTargets = Some (st', deadIds) /\
      (forall s h, In s grown -> nth_error (segments s) 0 = Some h ->
         (In (id s) deadIds <->
          nearWall h (bounds duelState) \/ nearOther s h grown)) /\
      (forall i s', In i deadIds -> In s' (snakes st') -> id s' <> i).
Proof.
  split; [exact duelState_heads|]. split; [exact duelState_ids|].
  exact (death_rule (fun _ => 0) duelState (1 / 60) noTargets
                    duelState_heads duelState_ids).
Defined.

(** C5: every organism is tested against the whole list of organisms as it
    is before any removal; the organisms of the returned state are then the
    organisms of that list whose id is not in [deadIds], so that every dead
    one is gone and no other is; and two organisms with different ids whose
    heads are each near a segment of the other are both in [deadIds]. *)
Theorem simultaneous_deaths (random : Random) (state : GameState) (dt : R)
    (ta : TargetAngles) :
  Forall hasHead (snakes state) ->
  exists moved grown left st' deadIds,
    moveAll dt ta (snakes state) = Some moved /\
    feedAll moved (pellets state) = Some (grown, left) /\
    tick random state dt ta = Some (st', deadIds) /\
    (forall s', In s' (snakes st') <-> In s' grown /\ ~ In (id s') deadIds) /\
    (forall s, In s grown ->
       (In (id s) deadIds <->
        exists t, In t grown /\ id t = id s /\ dies (bounds state) grown t)) /\
    (forall a b ha hb sa sb,
       In a grown -> In b grown -> id a <> id b ->
       nth_error (segments a) 0 = Some ha ->
       nth_error (segments b) 0 = Some hb ->
       In sb (segments b) -> dist ha sb < HEAD_RADIUS + BODY_RADIUS ->
       In sa (segments a) -> dist hb sa < HEAD_RADIUS + BODY_RADIUS ->
       In (id a) deadIds /\ In (id b) deadIds).
Proof.
  intros Hh.
  destruct (tick_run random state dt ta Hh)
    as (moved & grown & eaten & left & deadIds & Hm & Hf & Hc & Hd & Ht).
  exists moved, grown, left. eexists _, deadIds.
  split; [exact Hm|]. split; [exact Hf|]. split; [exact Ht|].
  split; [intros s'; cbn [tickResult snakes]; apply survivors_In|].
  assert (Hdead : forall s, In s grown -> dies (bounds state) grown s ->
                            In (id s) deadIds).
  { intros s Hs Hdie. apply (detect_spec _ _ _ _ _ Hd). right.
    exists s. now repeat split. }
  split.
  - intros s Hs. rewrite (detect_spec _ _ _ _ _ Hd). split.
    + intros [[]|H]. exact H.
    + intros H. now right.
  - intros a b ha hb sa sb Ha Hb Hne Eha Ehb Hsb Hdb Hsa Hda. split.
    + apply Hdead; [exact Ha|]. exists ha. split; [exact Eha|].
      apply orb_true_iff. right. apply headHitsBody_spec.
      exists b, sb. repeat split; try assumption. now intros E; apply Hne.
    + apply Hdead; [exact Hb|]. exists hb. split; [exact Ehb|].
      apply orb_true_iff. right. apply headHitsBody_spec.
      exists a, sa. now repeat split.
Qed.

Lemma hypot_horizontal (a b y : R) : hypot (a - b) (y - y) = Rabs (a - b).
Proof.
  unfold hypot.
  replace ((a - b) * (a - b) + (y - y) * (y - y)) with ((a - b)²)
    by (unfold Rsqr; ring).
  apply sqrt_Rsqr_abs.
Qed.

Lemma duel_still :
  moveAll (1 / 60) noTargets (snakes duelState) = Some [duelA; duelB].
Proof.
  unfold moveAll. cbn [duelState snakes mapM].
  assert (HA : moveSnake duelA (1 / 60) (targetOf noTargets duelA) = Some duelA).
  { rewrite (moveSnake_eq duelA _ _ (mkPoint 500 500) [mkPoint 492 500])
      by reflexivity.
    unfold targetOf, noTargets. cbn [duelA angle turnSpeed speed id].
    rewrite steer_same by (pose proof PI_gt_3; lra).
    assert (Hadv : advance (mkPoint 500 500) 0 0 (1 / 60) = mkPoint 500 500).
    { unfold advance. cbn [px py]. apply f_equal2; lra. }
    rewrite Hadv. cbn [follow px py]. rewrite hypot_horizontal.
    rewrite Rabs_right by lra.
    destruct (Rle_dec (500 - 492) 1e-6) as [H|_]; [lra|].
    unfold SEGMENT_SPACING, duelA. do 2 f_equal. points. }
  assert (HB : moveSnake duelB (1 / 60) (targetOf noTargets duelB) = Some duelB).
  { rewrite (moveSnake_eq duelB _ _ (mkPoint 505 500) [mkPoint 513 500])
      by reflexivity.
    unfold targetOf, noTargets. cbn [duelB angle turnSpeed speed id].
    rewrite steer_same by (pose proof PI_gt_3; lra).
    assert (Hadv : advance (mkPoint 505 500) PI 0 (1 / 60) = mkPoint 505 500).
    { unfold advance. cbn [px py]. apply f_equal2; lra. }
    rewrite Hadv. cbn [follow px py]. rewrite hypot_horizontal.
    rewrite Rabs_left by lra. replace (- (505 - 513)) with 8 by lra.
    destruct (Rle_dec 8 1e-6) as [H|_]; [lra|].
    unfold SEGMENT_SPACING, duelB. do 2 f_equal. points. }
  rewrite HA, HB. reflexivity.
Qed.

Lemma duel_unfed :
  feedAll [duelA; duelB] (pellets duelState) = Some ([duelA; duelB], []).
Proof.
  cbn [feedAll duelState pellets].
  rewrite (feed_spec duelA (mkPoint 500 500) [mkPoint 492 500]) by reflexivity.
  cbn [filter sumValues bind].
  rewrite (feed_spec duelB (mkPoint 505 500) [mkPoint 513 500]) by reflexivity.
  cbn [filter sumValues bind]. unfold grow.
  destruct (Rle_dec 0 0) as [_|H]; [reflexivity|lra].
Qed.

(** In [duelState] both organisms die in the same tick, and none is left. *)
Lemma simultaneous_deaths_witness :
  Forall hasHead (snakes duelState)
  /\ exists st' deadIds,
      tick (fun _ => 0) duelState (1 / 60) noTargets = Some (st', deadIds) /\
      In "player"%string deadIds /\ In "snake-1"%string deadIds /\
      snakes st' = [].
Proof.
  split; [exact duelState_heads|].
  destruct (simultaneous_deaths (fun _ => 0) duelState (1 / 60) noTargets
                                duelState_heads)
    as (moved & grown & left & st' & deadIds & Hm & Hf & Ht & Hlive & _ & Hboth).
  rewrite duel_still in Hm. injection Hm as <-.
  rewrite duel_unfed in Hf. injection Hf as <- <-.
  exists st', deadIds. split; [exact Ht|].
  assert (Hdead : In "player"%string deadIds /\ In "snake-1"%string deadIds).
  { apply (Hboth duelA duelB (mkPoint 500 500) (mkPoint 505 500)
                 (mkPoint 500 500) (mkPoint 505 500)).
    - now left.
    - right. now left.
    - discriminate.
    - reflexivity.
    - reflexivity.
    - now left.
    - unfold dist. cbn [px py]. rewrite hypot_horizontal, Rabs_left by lra.
      unfold HEAD_RADIUS, BODY_RADIUS. lra.
    - now left.
    - unfold dist. cbn [px py]. rewrite hypot_horizontal, Rabs_right by lra.
      unfold HEAD_RADIUS, BODY_RADIUS. lra. }
  destruct Hdead as [HA HB]. split; [exact HA|]. split; [exact HB|].
  destruct (snakes st') as [|x l]; [reflexivity|].
  destruct (proj1 (Hlive x) (or_introl eq_refl)) as [[<-|[<-|[]]] Hn];
    now elim Hn.
Defined.

(** ** C6: pellet consumption *)

Lemma hits_spec (h : Point) (p : Pellet) :
  hits h p = true <->
  distSq h (pelletPos p)
  < (PELLET_RADIUS + HEAD_RADIUS) * (PELLET_RADIUS + HEAD_RADIUS).
Proof. unfold hits. apply Rltb_true. Qed.

Lemma Consumption_left_incl l ps grown eaten left :
  Consumption l ps grown eaten left -> incl left ps.
Proof.
  induction 1 as [|s h rest ps tl tl' eaten ps' E _ IH]; [apply incl_refl|].
  intros p Hp. apply IH in Hp. now apply filter_In in Hp.
Qed.

(** After the pass no pellet is left within reach of a head. *)
Lemma Consumption_left_missed l ps grown eaten left :
  Consumption l ps grown eaten left ->
  forall m h p, In m l -> nth_error (segments m) 0 = Some h -> In p left ->
                hits h p = false.
Proof.
  induction 1 as [|s h rest ps tl tl' eaten ps' E Hc IH];
    intros m h' p Hm Eh Hp; [easy|].
  destruct Hm as [<-|Hm].
  - rewrite E in Eh. injection Eh as <-.
    apply (Consumption_left_incl _ _ _ _ _ Hc), filter_In in Hp.
    destruct Hp as [_ Hp]. unfold misses in Hp. now apply negb_true_iff.
  - eapply IH; eassumption.
Qed.

(** What the organism of index [k] takes and how it grows. *)
Lemma Consumption_nth l ps grown eaten left :
  Consumption l ps grown eaten left ->
  forall k m, nth_error l k = Some m ->
  exists h rest avail,
    segments m = h :: rest /\ incl avail ps /\
    nth_error eaten k = Some (filter (hits h) avail) /\
    nth_error grown k = Some (grow m (sumValues (filter (hits h) avail))).
Proof.
  induction 1 as [|s h rest ps tl tl' eaten ps' E _ IH]; intros k m Hk.
  - now destruct k.
  - destruct k as [|k]; simpl in Hk.
    + injection Hk as <-. exists h, rest, ps.
      split; [exact E|]. split; [apply incl_refl|]. now split.
    + destruct (IH k m Hk) as (h' & rest' & avail & E' & Hi & He & Hg).
      exists h', rest', avail. repeat split; try easy.
      intros p Hp. apply Hi in Hp. now apply filter_In in Hp.
Qed.

Lemma countValued_incl avail ps :
  incl avail ps -> countValued ps -> countValued avail.
Proof.
  unfold countValued. rewrite !Forall_forall. intros Hi H p Hp. auto.
Qed.

Lemma copies_half : copies (1 / 2) = 1%nat.
Proof.
  unfold copies. destruct (Rle_dec (1 / 2) 0) as [H|_]; [lra|].
  unfold ceil. rewrite (floor_unique (- (1 / 2)) (-1)); [reflexivity| |]; lra.
Qed.

Lemma feedSnake_moves :
  moveSnake feedSnake (1 / 60) (targetOf noTargets feedSnake)
  = Some {| id := "player";
            segments := [mkPoint 102 100; mkPoint 94 100];
            angle := 0; speed := DEFAULT_SPEED;
            turnSpeed := TURN_SPEED; color := playerColor;
            isPlayer := true |}.
Proof.
  rewrite (moveSnake_eq feedSnake _ _ (mkPoint 100 100) [mkPoint 92 100])
    by reflexivity.
  unfold targetOf, noTargets.
  cbn [feedSnake angle turnSpeed speed id color isPlayer].
  rewrite steer_same by (pose proof PI_gt_3; lra).
  assert (Hadv : advance (mkPoint 100 100) 0 DEFAULT_SPEED (1 / 60)
                 = mkPoint 102 100).
  { unfold advance, DEFAULT_SPEED. rewrite cos_0, sin_0.
    cbn [px py]. apply f_equal2; lra. }
  rewrite Hadv. cbn [follow px py]. rewrite hypot_10_0.
  destruct (Rle_dec 10 1e-6) as [H|_]; [lra|].
  unfold SEGMENT_SPACING. do 2 f_equal. points.
Qed.

(** C6, counterexample: [feedSnake], of two segments, moves onto the pellet
    of [halfState], of value one half, in a tick of [dt = 1/60] and lives.
    The pellet is gone from the returned state and the organism has three
    segments: one more, not one half more. *)
Lemma pellet_fraction_counterexample :
  exists st' s',
    tick (fun _ => 0) halfState (1 / 60) noTargets = Some (st', [])
    /\ snakes st' = [s']
    /\ pellets st' = []
    /\ sumValues (pellets halfState) = 1 / 2
    /\ List.length (segments feedSnake) = 2%nat
    /\ List.length (segments s') = 3%nat
    /\ INR (List.length (segments s')) - INR (List.length (segments feedSnake))
       <> sumValues (pellets halfState).
Proof.
  set (m := {| id := "player"%string;
               segments := [mkPoint 102 100; mkPoint 94 100];
               angle := 0; speed := DEFAULT_SPEED;
               turnSpeed := TURN_SPEED; color := playerColor;
               isPlayer := true |}).
  assert (Hhit : hits (mkPoint 102 100) (mkPellet 102 100 (1 / 2)) = true).
  { unfold hits, distSq, pelletPos, pelletRadiusSq, PELLET_RADIUS, HEAD_RADIUS.
    cbn [px py pel_x pel_y]. apply Rltb_true. lra. }
  assert (Hsum : sumValues (pellets halfState) = 1 / 2).
  { cbn [halfState pellets sumValues value]. lra. }
  assert (Hfeed : feedAll [m] (pellets halfState)
                  = Some ([grow m (1 / 2)], [])).
  { cbn [feedAll halfState pellets].
    rewrite (feed_spec m (mkPoint 102 100) [mkPoint 94 100]) by reflexivity.
    cbn [filter]. unfold misses. rewrite Hhit.
    cbn [bind negb sumValues value].
    replace (1 / 2 + 0) with (1 / 2) by lra. reflexivity. }
  assert (Hwall : hitWall (mkPoint 102 100) (mkBounds 3000 3000) = false).
  { destruct (hitWall _ _) eqn:E; [|reflexivity].
    apply hitWall_spec in E. unfold HEAD_RADIUS in E.
    cbn [px py width height] in E. lra. }
  assert (Hseg : segments (grow m (1 / 2))
                 = [mkPoint 102 100; mkPoint 94 100; mkPoint 94 100]).
  { rewrite grow_copies, copies_half. reflexivity. }
  assert (Hdet : detect (bounds halfState) [grow m (1 / 2)] [grow m (1 / 2)] []
                 = Some []).
  { cbn [detect]. rewrite Hseg. cbn [nth_error bind halfState bounds].
    rewrite Hwall. unfold headHitsBody. cbn [existsb].
    rewrite grow_id. cbn [m id]. rewrite String.eqb_refl. reflexivity. }
  exists (tickResult (fun _ => 0) halfState (1 / 60) [grow m (1 / 2)] [] []),
         (grow m (1 / 2)).
  split; [|split; [|split; [|split; [|split; [|split]]]]].
  - destruct (tick_run (fun _ => 0) halfState (1 / 60) noTargets)
      as (moved & grown & eaten & left & deadIds & Hm & Hf & _ & Hd & Ht).
    { repeat constructor. discriminate. }
    unfold moveAll in Hm. cbn [halfState snakes mapM] in Hm.
    rewrite feedSnake_moves in Hm. cbn [bind] in Hm. injection Hm as <-.
    fold m in Hf. rewrite Hfeed in Hf. injection Hf as <- <-.
    rewrite Hdet in Hd. injection Hd as <-.
    exact Ht.
  - cbn [tickResult snakes survivors filter has existsb negb]. reflexivity.
  - cbn [tickResult pellets dropsOf flat_map app halfState nextPelletSpawn].
    unfold Rleb, PELLET_SPAWN_INTERVAL.
    destruct (Rle_dec (2 - 1 / 60) 0) as [H|_]; [lra|reflexivity].
  - exact Hsum.
  - reflexivity.
  - now rewrite Hseg.
  - rewrite Hseg, Hsum. cbn [feedSnake segments List.length].
    rewrite !S_INR. cbn [INR]. lra.
Qed.

(** C6, amended: in the consumption pass of a tick, the pellets taken by the
    organisms, organism by organism, and the pellets left are together the
    pellets of the state, each one once; the pellets an organism takes are
    the ones still there within [PELLET_RADIUS + HEAD_RADIUS] of its head by
    the comparison of squares, and none within reach is left; the organism
    gets at its tail as many copies of its tail as the growth loop makes
    rounds for the sum of their values: exactly that sum when the values
    taken are whole numbers.  The returned state holds the organisms so
    grown that did not die, and of the pellets of the given state only those
    left. *)
Theorem pellet_consumption (random : Random) (state : GameState) (dt : R)
    (ta : TargetAngles) :
  Forall hasHead (snakes state) ->
  exists moved grown eaten left st' deadIds,
    moveAll dt ta (snakes state) = Some moved /\
    feedAll moved (pellets state) = Some (grown, left) /\
    tick random state dt ta = Some (st', deadIds) /\
    Consumption moved (pellets state) grown eaten left /\
    Permutation (concat eaten ++ left) (pellets state) /\
    (forall s', In s' (snakes st') <-> In s' grown /\ ~ In (id s') deadIds) /\
    pellets st'
    = left ++ dropsOf (snakes state) deadIds
      ++ (if Rleb (nextPelletSpawn state - dt) 0
          then [spawned random (bounds state)] else []) /\
    forall k m, nth_error moved k = Some m ->
    exists h e g,
      nth_error (segments m) 0 = Some h /\
      nth_error eaten k = Some e /\
      nth_error grown k = Some g /\
      (forall p, In p e ->
         In p (pellets state) /\
         distSq h (pelletPos p)
         < (PELLET_RADIUS + HEAD_RADIUS) * (PELLET_RADIUS + HEAD_RADIUS)) /\
      (forall p, In p left ->
         ~ distSq h (pelletPos p)
           < (PELLET_RADIUS + HEAD_RADIUS) * (PELLET_RADIUS + HEAD_RADIUS)) /\
      segments g
      = segments m
        ++ repeat (last (segments m) (mkPoint 0 0)) (copies (sumValues e)) /\
      List.length (segments g)
      = (List.length (segments m) + copies (sumValues e))%nat /\
      (countValued e -> INR (copies (sumValues e)) = sumValues e).
Proof.
  intros Hh.
  destruct (tick_run random state dt ta Hh)
    as (moved & grown & eaten & left & deadIds & Hm & Hf & Hc & Hd & Ht).
  exists moved, grown, eaten, left. eexists _, deadIds.
  split; [exact Hm|]. split; [exact Hf|]. split; [exact Ht|].
  split; [exact Hc|]. split; [eapply Consumption_perm, Hc|].
  split; [intros s'; cbn [tickResult snakes]; apply survivors_In|].
  split.
  { cbn [tickResult pellets]. destruct (Rleb (nextPelletSpawn state - dt) 0).
    - now rewrite app_assoc.
    - now rewrite app_nil_r. }
  intros k m Hk.
  destruct (Consumption_nth _ _ _ _ _ Hc k m Hk)
    as (h & rest & avail & E & Hi & He & Hg).
  exists h, (filter (hits h) avail),
         (grow m (sumValues (filter (hits h) avail))).
  split; [now rewrite E|]. split; [exact He|]. split; [exact Hg|].
  split; [|split; [|split; [apply grow_copies|split]]].
  - intros p Hp. apply filter_In in Hp. destruct Hp as [Hp Hhit].
    split; [now apply Hi | now apply hits_spec].
  - intros p Hp Hlt. apply hits_spec in Hlt.
    rewrite (Consumption_left_missed _ _ _ _ _ Hc m h p) in Hlt;
      [discriminate| |now rewrite E|exact Hp].
    eapply nth_error_In, Hk.
  - now rewrite grow_copies, length_app, repeat_length.
  - intros Hv. destruct (sumValues_count _ Hv) as [n Hn].
    now rewrite Hn, copies_INR.
Qed.

Lemma feedState_values : countValued (pellets feedState).
Proof. repeat constructor. exists 1%nat. reflexivity. Qed.

(** The tick of [feedState]: the pellet of value 1 is taken and is not in
    the returned state. *)
Lemma pellet_consumption_witness :
  Forall hasHead (snakes feedState)
  /\ exists left st' deadIds,
      tick (fun _ => 0) feedState (1 / 60) noTargets = Some (st', deadIds) /\
      pellets st'
      = left ++ dropsOf (snakes feedState) deadIds
        ++ (if Rleb (nextPelletSpawn feedState - 1 / 60) 0
            then [spawned (fun _ => 0) (bounds feedState)] else []).
Proof.
  assert (H1 : Forall hasHead (snakes feedState)).
  { repeat constructor. discriminate. }
  split; [exact H1|].
  destruct (pellet_consumption (fun _ => 0) feedState (1 / 60) noTargets H1)
    as (moved & grown & eaten & left & st' & deadIds
        & _ & _ & Ht & _ & _ & _ & Hp & _).
  exists left, st', deadIds. now split.
Defined.

(** ** C10: the pellets of the dead *)

Lemma find_id (l : list Snake) (s : Snake) :
  In s l ->
  exists d, find (fun x => String.eqb (id x) (id s)) l = Some d /\
            In d l /\ id d = id s.
Proof.
  intros Hs. destruct (find _ l) as [d|] eqn:E.
  - apply find_some in E. destruct E as [Hd E]. apply String.eqb_eq in E.
    now exists d.
  - apply (find_none _ _ E) in Hs. now rewrite String.eqb_refl in Hs.
Qed.

Lemma dropped_nth (d : Snake) (j : nat) :
  let len := List.length (segments d) in
  (j < dropCount len)%nat ->
  nth_error (dropped d) j
  = Some (let seg := nth (Nat.min (j * dropStep len) (len - 1))
                         (segments d) (mkPoint 0 0) in
          mkPellet (px seg) (py seg) PELLET_VALUE).
Proof.
  intros len Hj. unfold dropped. fold len.
  rewrite nth_error_map.
  rewrite (nth_error_nth' _ 0%nat) by (now rewrite length_seq).
  rewrite seq_nth by exact Hj. reflexivity.
Qed.

Lemma dropped_length (d : Snake) :
  List.length (dropped d) = dropCount (List.length (segments d)).
Proof. unfold dropped. now rewrite length_map, length_seq. Qed.

(** C10: the pellets of the returned state are the pellets left by the
    consumption pass, then the pellets dropped for the ids of [deadIds] in
    order, then the spawned pellet if the timer ran out.  For a dead id the
    organism is looked up in the state the tick was given, so its segments
    are those at the start of the tick; with [len] of them it drops
    [count = max(1, floor(len * DEATH_PELLET_FRACTION))] pellets of value
    [PELLET_VALUE], the one of index [j] at the segment of index
    [min(j * step, len - 1)], where [step = max(1, floor(len / count))]. *)
Theorem death_drop (random : Random) (state : GameState) (dt : R)
    (ta : TargetAngles) :
  Forall hasHead (snakes state) ->
  exists moved grown left st' deadIds,
    moveAll dt ta (snakes state) = Some moved /\
    feedAll moved (pellets state) = Some (grown, left) /\
    tick random state dt ta = Some (st', deadIds) /\
    pellets st'
    = left ++ dropsOf (snakes state) deadIds
      ++ (if Rleb (nextPelletSpawn state - dt) 0
          then [spawned random (bounds state)] else []) /\
    forall i, In i deadIds ->
    exists d,
      find (fun s => String.eqb (id s) i) (snakes state) = Some d /\
      In d (snakes state) /\ id d = i /\
      let len := List.length (segments d) in
      let count := dropCount len in
      let step := dropStep len in
      Z.of_nat count
      = Z.max 1 (floor (IZR (Z.of_nat len) * DEATH_PELLET_FRACTION)) /\
      Z.of_nat step
      = Z.max 1 (floor (IZR (Z.of_nat len) / IZR (Z.of_nat count))) /\
      List.length (dropped d) = count /\
      forall j, (j < count)%nat ->
        exists seg,
          nth_error (segments d) (Nat.min (j * step) (len - 1)) = Some seg /\
          nth_error (dropped d) j
          = Some (mkPellet (px seg) (py seg) PELLET_VALUE).
Proof.
  intros Hh.
  destruct (tick_run random state dt ta Hh)
    as (moved & grown & eaten & left & deadIds & Hm & Hf & Hc & Hd & Ht).
  exists moved, grown, left. eexists _, deadIds.
  split; [exact Hm|]. split; [exact Hf|]. split; [exact Ht|]. split.
  - simpl. destruct (Rleb (nextPelletSpawn state - dt) 0).
    + now rewrite app_assoc.
    + now rewrite app_nil_r.
  - intros i Hi. apply (detect_spec _ _ _ _ _ Hd) in Hi.
    destruct Hi as [[]|(g & Hg & Hid & _)].
    assert (Hin : In i (map id (snakes state))).
    { rewrite <- (moveAll_ids _ _ _ _ Hm), <- (Consumption_ids _ _ _ _ _ Hc).
      rewrite <- Hid. now apply in_map. }
    apply in_map_iff in Hin. destruct Hin as (s & Hsi & Hs).
    destruct (find_id _ _ Hs) as (d & Hfind & Hdin & Hdid).
    rewrite Hsi in Hfind, Hdid.
    exists d. split; [exact Hfind|]. split; [exact Hdin|]. split; [exact Hdid|].
    cbv zeta. split; [symmetry; apply dropCount_floor|].
    split; [symmetry; apply dropStep_floor|].
    split; [apply dropped_length|].
    intros j Hj.
    set (len := List.length (segments d)) in *.
    assert (Hlen : (1 <= len)%nat).
    { rewrite Forall_forall in Hh. specialize (Hh d Hdin).
      unfold hasHead in Hh. unfold len.
      destruct (segments d); [easy|simpl; lia]. }
    exists (nth (Nat.min (j * dropStep len) (len - 1)) (segments d) (mkPoint 0 0)).
    split.
    + apply nth_error_nth'. fold len. lia.
    + now apply dropped_nth.
Qed.

(** The tick of [duelState], in which both organisms die. *)
Lemma death_drop_witness :
  Forall hasHead (snakes duelState)
  /\ exists moved grown left st' deadIds,
      moveAll (1 / 60) noTargets (snakes duelState) = Some moved /\
      feedAll moved (pellets duelState) = Some (grown, left) /\
      tick (fun _ => 0) duelState (1 / 60) noTargets = Some (st', deadIds) /\
      pellets st'
      = left ++ dropsOf (snakes duelState) deadIds
        ++ (if Rleb (nextPelletSpawn duelState - 1 / 60) 0
            then [spawned (fun _ => 0) (bounds duelState)] else []) /\
      forall i, In i deadIds ->
      exists d,
        find (fun s => String.eqb (id s) i) (snakes duelState) = Some d /\
        In d (snakes duelState) /\ id d = i /\
        let len := List.length (segments d) in
        let count := dropCount len in
        let step := dropStep len in
        Z.of_nat count
        = Z.max 1 (floor (IZR (Z.of_nat len) * DEATH_PELLET_FRACTION)) /\
        Z.of_nat step
        = Z.max 1 (floor (IZR (Z.of_nat len) / IZR (Z.of_nat count))) /\
        List.length (dropped d) = count /\
        forall j, (j < count)%nat ->
          exists seg,
            nth_error (segments d) (Nat.min (j * step) (len - 1)) = Some seg /\
            nth_error (dropped d) j
            = Some (mkPellet (px seg) (py seg) PELLET_VALUE).
Proof.
  split; [exact duelState_heads|].
  exact (death_drop (fun _ => 0) duelState (1 / 60) noTargets duelState_heads).
Defined.

(** ** C9: angle normalization on binary64 numbers *)

Lemma big_round :
  PrimFloat.ltb Binary64.PI Binary64.big = true
  /\ PrimFloat.sub Binary64.big (PrimFloat.mul 2 Binary64.PI) = Binary64.big.
Proof. split; reflexivity. Qed.

Lemma while_gt_big : forall fuel, Binary64.while_gt fuel Binary64.big = None.
Proof.
  induction fuel as [|f IH].
  - reflexivity.
  - change (Binary64.while_gt (S f) Binary64.big)
      with (if PrimFloat.ltb Binary64.PI Binary64.big
            then Binary64.while_gt f
                   (PrimFloat.sub Binary64.big (PrimFloat.mul 2 Binary64.PI))
            else Some Binary64.big).
    destruct big_round as [-> ->]. exact IH.
Qed.

(** C9: on binary64 numbers, the target heading [1e17] and the heading [0]
    are finite, and [normalizeAngle(targetAngle - angle)], the first
    statement of [moveSnake] that normalizes, does not return whatever the
    number of rounds: [1e17 > Math.PI], and [1e17 - 2 * Math.PI] rounds to
    [1e17], so the first loop never ends and the tick never returns. *)
Lemma normalizeAngle_binary64_diverges :
  PrimFloat.is_finite Binary64.big = true
  /\ PrimFloat.is_finite 0%float = true
  /\ PrimFloat.sub Binary64.big (PrimFloat.mul 2 Binary64.PI) = Binary64.big
  /\ forall fuel, Binary64.diff_fuel fuel Binary64.big 0%float = None.
Proof.
  split; [reflexivity|]. split; [reflexivity|]. split; [reflexivity|].
  intros fuel. unfold Binary64.diff_fuel, Binary64.normalizeAngle_fuel.
  change (PrimFloat.sub Binary64.big 0) with Binary64.big.
  now rewrite while_gt_big.
Qed.

(** ** C8: createInitialState *)

Lemma keyEqb_eq (k1 k2 : Z * Z) : keyEqb k1 k2 = true <-> k1 = k2.
Proof.
  destruct k1 as [a b], k2 as [c d]. unfold keyEqb. simpl.
  rewrite andb_true_iff, !Z.eqb_eq. split.
  - now intros [-> ->].
  - intros H. injection H as -> ->. now split.
Qed.

Lemma usedHas_false (used : list (Z * Z)) (key : Z * Z) :
  ~ In key used -> usedHas used key = false.
Proof.
  intros H. unfold usedHas. destruct (existsb _ used) eqn:E; [|reflexivity].
  apply existsb_exists in E. destruct E as (k & Hk & E).
  apply keyEqb_eq in E. now subst.
Qed.

Lemma place_inv fuel random minX maxX minY maxY used :
  forall k x y key k',
  place fuel random k minX maxX minY maxY used = Some (x, y, key, k') ->
  exists j,
    x = minX + random j * (maxX - minX) /\
    y = minY + random (S j) * (maxY - minY) /\
    key = cellKey x y /\ usedHas used key = false.
Proof.
  induction fuel as [|f IH]; intros k x y key k'; simpl;
    destruct (usedHas used (cellKey _ _)) eqn:E; intros H; try discriminate.
  - injection H as <- <- <- <-. exists k. now repeat split.
  - eapply IH, H.
  - injection H as <- <- <- <-. exists k. now repeat split.
Qed.

Lemma place_fresh fuel random minX maxX minY maxY used k :
  let x := minX + random k * (maxX - minX) in
  let y := minY + random (S k) * (maxY - minY) in
  ~ In (cellKey x y) used ->
  place fuel random k minX maxX minY maxY used
  = Some (x, y, cellKey x y, S (S k)).
Proof.
  intros x y H. apply usedHas_false in H.
  destruct fuel; simpl; fold x y; now rewrite H.
Qed.

Lemma initialSegments_nth (x y a : R) (k : nat) :
  (k < INITIAL_LENGTH)%nat ->
  nth_error (initialSegments x y a) k
  = Some (mkPoint (x - cos a * INR k * SEGMENT_SPACING)
                  (y - sin a * INR k * SEGMENT_SPACING)).
Proof.
  intros Hk. unfold initialSegments. rewrite nth_error_map.
  rewrite (nth_error_nth' _ 0%nat) by (now rewrite length_seq).
  now rewrite seq_nth.
Qed.

Lemma initialSegments_length (x y a : R) :
  List.length (initialSegments x y a) = INITIAL_LENGTH.
Proof. unfold initialSegments. now rewrite length_map, length_seq. Qed.

Lemma initialSegments_spaced (x y a : R) : spaced (initialSegments x y a).
Proof.
  intros i p q Hp Hq.
  assert (Hi : (S i < INITIAL_LENGTH)%nat).
  { rewrite <- (initialSegments_length x y a). apply nth_error_Some. congruence. }
  rewrite initialSegments_nth in Hp, Hq by lia.
  rewrite S_INR in Hq.
  injection Hp as <-. injection Hq as <-.
  unfold dist, hypot, SEGMENT_SPACING. cbn [px py].
  pose proof (sin2_cos2 a) as H. unfold Rsqr in H.
  match goal with
  | |- R_sqrt.sqrt ?e = _ => replace e with 64 by nra
  end.
  apply sqrt_64.
Qed.

Lemma scaled_between (lo hi r : R) :
  lo <= hi -> 0 <= r < 1 -> lo <= lo + r * (hi - lo) <= hi.
Proof. intros. nra. Qed.

Lemma spawnSnakes_shape fuel random (b : Bounds) :
  forall n i k used l k',
  spawnSnakes fuel random ARENA_PADDING (width b - ARENA_PADDING)
              ARENA_PADDING (height b - ARENA_PADDING) n i k used
  = Some (l, k') ->
  List.length l = n /\
  forall j s, nth_error l j = Some s -> spawnedAs random b (i + j) s.
Proof.
  induction n as [|n IH]; intros i k used l k' H; cbn [spawnSnakes] in H.
  - injection H as <- <-. split; [reflexivity|]. intros [|j] s Hs; discriminate.
  - unfold bind in H.
    destruct (place _ _ _ _ _ _ _ _) as [[[[x y] key] k1]|] eqn:Ep;
      [|discriminate].
    destruct (spawnSnakes _ _ _ _ _ _ _ _ _ _) as [[rest k2]|] eqn:Er;
      [|discriminate].
    injection H as <- <-.
    destruct (IH _ _ _ _ _ Er) as [Hlen Hrest].
    split; [simpl; now rewrite Hlen|].
    intros [|j] s Hs; simpl in Hs.
    + injection Hs as <-. rewrite Nat.add_0_r.
      destruct (place_inv _ _ _ _ _ _ _ _ _ _ _ _ Ep) as (kx & -> & -> & _ & _).
      unfold spawnedAs. cbn [isPlayer id speed turnSpeed angle segments].
      repeat split. exists kx, k1. split; reflexivity.
    + replace (i + S j)%nat with (S i + j)%nat by lia. now apply Hrest.
Qed.

Lemma spawnSnakes_fresh fuel random (b : Bounds) :
  forall n i used,
  NoDup (map (firstCell random b) (seq i n)) ->
  (forall j, In j (seq i n) -> ~ In (firstCell random b j) used) ->
  exists l,
    spawnSnakes fuel random ARENA_PADDING (width b - ARENA_PADDING)
                ARENA_PADDING (height b - ARENA_PADDING) n i (3 * i) used
    = Some (l, (3 * (i + n))%nat).
Proof.
  induction n as [|n IH]; intros i used Hn Hu; cbn [spawnSnakes].
  - exists []. now rewrite Nat.add_0_r.
  - cbn [seq map] in Hn. inversion Hn as [|? ? Hni Hn']; subst.
    rewrite place_fresh by (apply (Hu i); now left).
    cbn [bind].
    destruct (IH (S i) (firstCell random b i :: used) Hn') as [l Hl].
    { intros j Hj [E|Hin].
      - apply Hni. rewrite E. now apply in_map.
      - apply (Hu j); [now right | exact Hin]. }
    replace (S (S (S (3 * i)))) with (3 * S i)%nat by lia.
    unfold firstCell in Hl. rewrite Hl. cbn [bind].
    eexists. f_equal. f_equal. lia.
Qed.

Lemma scatterPellets_In random minX maxX minY maxY p k q :
  In q (scatterPellets random minX maxX minY maxY p k) ->
  value q = PELLET_VALUE /\
  exists j, pelletPos q = mkPoint (minX + random j * (maxX - minX))
                                  (minY + random (S j) * (maxY - minY)).
Proof.
  unfold scatterPellets. intros H. apply in_map_iff in H.
  destruct H as (i & <- & _). split; [reflexivity|].
  exists (k + 2 * i)%nat. unfold pelletPos. cbn [pel_x pel_y].
  now replace (k + 2 * i + 1)%nat with (S (k + 2 * i)) by lia.
Qed.

(** C8, amended: when [createInitialState({numBots: n, numPellets: p})]
    returns, the state has [n] organisms in all, the one of index 0 is the
    player with id ["player"], the others are not players and have the ids
    ["snake-i"] of their index; each has [INITIAL_LENGTH] segments, the one
    of index [k] at [k * SEGMENT_SPACING] straight behind the head; there are
    [p] pellets of value [PELLET_VALUE]; and the heads and the pellets are
    inside the bounds inset by the padding when the bounds leave room there.
    It returns when the first draws of the [n] organisms fall in different
    cells. *)
Theorem createInitialState_shape (fuel : nat) (random : Random)
    (ob : option Bounds) (n p : nat) :
  let b := match ob with Some b => b | None => mkBounds 3000 3000 end in
  let options := mkOptions ob (Some n) (Some p) in
  (forall st, createInitialState fuel random options = Some st ->
     List.length (snakes st) = n /\
     List.length (pellets st) = p /\
     bounds st = b /\
     (forall i s, nth_error (snakes st) i = Some s ->
        isPlayer s = Nat.eqb i 0 /\
        id s = (if Nat.eqb i 0 then "player"%string else snakeName i) /\
        List.length (segments s) = INITIAL_LENGTH /\
        exists head,
          nth_error (segments s) 0 = Some head /\
          (forall k, (k < INITIAL_LENGTH)%nat ->
             nth_error (segments s) k
             = Some (mkPoint
                       (px head - cos (angle s) * INR k * SEGMENT_SPACING)
                       (py head - sin (angle s) * INR k * SEGMENT_SPACING))) /\
          spaced (segments s) /\
          (unitRandom random -> roomy b -> inPadded head b)) /\
     (forall q, In q (pellets st) ->
        value q = PELLET_VALUE /\
        (unitRandom random -> roomy b -> inPadded (pelletPos q) b))) /\
  (NoDup (map (firstCell random b) (seq 0 n)) ->
   exists st, createInitialState fuel random options = Some st).
Proof.
  intros b options. split.
  - intros st H. unfold createInitialState, options in H.
    cbn [opt_bounds opt_numBots opt_numPellets] in H. fold b in H.
    unfold bind in H.
    destruct (spawnSnakes _ _ _ _ _ _ _ _ _ _) as [[l k]|] eqn:Es;
      [|discriminate].
    injection H as <-. cbn [snakes pellets bounds].
    destruct (spawnSnakes_shape _ _ _ _ _ _ _ _ _ Es) as [Hlen Hshape].
    split; [exact Hlen|].
    split; [unfold scatterPellets; now rewrite length_map, length_seq|].
    split; [reflexivity|]. split.
    + intros i s Hs. destruct (Hshape i s Hs)
        as (Hp & Hid & _ & _ & kx & ka & Ha & Hseg).
      cbn [Nat.add] in Hp, Hid.
      split; [exact Hp|]. split; [exact Hid|].
      rewrite Hseg. split; [apply initialSegments_length|].
      eexists. split; [apply initialSegments_nth; unfold INITIAL_LENGTH; lia|].
      split; [|split].
      * intros j Hj. rewrite initialSegments_nth by exact Hj.
        cbn [px py]. f_equal. apply f_equal2; simpl INR; ring.
      * apply initialSegments_spaced.
      * intros Hr [Hw Hh]. unfold inPadded. cbn [px py]. simpl INR.
        pose proof (scaled_between ARENA_PADDING (width b - ARENA_PADDING)
                      (random kx) ltac:(lra) (Hr kx)) as Hx.
        pose proof (scaled_between ARENA_PADDING (height b - ARENA_PADDING)
                      (random (S kx)) ltac:(lra) (Hr (S kx))) as Hy.
        split; lra.
    + intros q Hq. apply scatterPellets_In in Hq.
      destruct Hq as [Hv [j Hj]]. split; [exact Hv|].
      intros Hr [Hw Hh]. rewrite Hj. unfold inPadded. cbn [px py].
      pose proof (scaled_between ARENA_PADDING (width b - ARENA_PADDING)
                    (random j) ltac:(lra) (Hr j)) as Hx.
      pose proof (scaled_between ARENA_PADDING (height b - ARENA_PADDING)
                    (random (S j)) ltac:(lra) (Hr (S j))) as Hy.
      split; lra.
  - intros Hn. unfold createInitialState, options.
    cbn [opt_bounds opt_numBots opt_numPellets]. fold b.
    destruct (spawnSnakes_fresh fuel random b n 0 [] Hn) as [l Hl];
      [now intros|].
    change (3 * 0)%nat with 0%nat in Hl. rewrite Hl. cbn [bind].
    eexists. reflexivity.
Qed.

(** C8, counterexample: [createInitialState({numBots: 1, numPellets: 0})]
    with the random numbers [rnd0] returns a state of one organism, the
    player: no organism is a bot, and there are not two organisms.  Its head
    is at (40, 40) and its heading is 0, so its segment of index 1 is at
    (32, 40), outside the bounds inset by the padding. *)
Lemma createInitialState_counterexample :
  exists st s seg,
    createInitialState 0%nat rnd0 (mkOptions None (Some 1%nat) (Some 0%nat))
    = Some st
    /\ snakes st = [s]
    /\ isPlayer s = true
    /\ List.length (filter (fun o => negb (isPlayer o)) (snakes st)) = 0%nat
    /\ List.length (snakes st) <> (1 + 1)%nat
    /\ nth_error (segments s) 1 = Some seg
    /\ px seg = 32
    /\ ~ inPadded seg (bounds st).
Proof.
  unfold createInitialState.
  cbn [opt_bounds opt_numBots opt_numPellets spawnSnakes place usedHas
       existsb bind Nat.eqb].
  eexists _, _, _. split; [reflexivity|].
  cbn [snakes]. split; [reflexivity|].
  cbn [isPlayer filter negb List.length bounds segments].
  split; [reflexivity|]. split; [reflexivity|]. split; [discriminate|].
  split; [apply initialSegments_nth; unfold INITIAL_LENGTH; lia|].
  assert (E : px (mkPoint
                    (ARENA_PADDING + rnd0 0%nat * (3000 - ARENA_PADDING - ARENA_PADDING)
                     - cos (rnd0 2%nat * 2 * PI - PI) * INR 1 * SEGMENT_SPACING)
                    (ARENA_PADDING + rnd0 1%nat * (3000 - ARENA_PADDING - ARENA_PADDING)
                     - sin (rnd0 2%nat * 2 * PI - PI) * INR 1 * SEGMENT_SPACING))
              = 32).
  { cbn [px rnd0 Nat.eqb width height]. 
    replace (1 / 2 * 2 * PI - PI) with 0 by lra. rewrite cos_0.
    unfold ARENA_PADDING, SEGMENT_SPACING. simpl INR. lra. }
  split; [exact E|].
  intros [[H _] _].
  pose proof (eq_ind _ (fun v => ARENA_PADDING <= v) H _ E) as H'.
  cbv beta in H'. unfold ARENA_PADDING in H'. lra.
Qed.

Lemma rnd3_cells :
  map (firstCell rnd3 (mkBounds 3000 3000)) (seq 0 2) = [(0, 0); (30, 0)]%Z.
Proof.
  cbn [seq map]. unfold firstCell, cellKey, ARENA_PADDING.
  cbn [rnd3 Nat.eqb Nat.mul Nat.add width height].
  repeat (apply f_equal2; try reflexivity); apply floor_unique; lra.
Qed.

(** With the random numbers [rnd3], two organisms and one pellet are
    created without a retry. *)
Lemma createInitialState_shape_witness :
  NoDup (map (firstCell rnd3 (mkBounds 3000 3000)) (seq 0 2))
  /\ exists st,
      createInitialState 0%nat rnd3 (mkOptions None (Some 2%nat) (Some 1%nat))
      = Some st.
Proof.
  assert (H : NoDup (map (firstCell rnd3 (mkBounds 3000 3000)) (seq 0 2))).
  { rewrite rnd3_cells. repeat constructor; simpl; [|easy].
    intros [E|[]]. discriminate. }
  split; [exact H|].
  exact (proj2 (createInitialState_shape 0%nat rnd3 None 2%nat 1%nat) H).
Defined.

(** * Further properties of the simulation core *)

(** ** normalizeAngle keeps the direction *)

Lemma cos_turns (x : R) (z : Z) : cos (x + 2 * PI * IZR z) = cos x.
Proof.
  destruct (Z.le_gt_cases 0 z) as [H|H].
  - rewrite <- (cos_period x (Z.to_nat z)).
    rewrite INR_IZR_INZ, Z2Nat.id by exact H. f_equal. ring.
  - rewrite <- (cos_period (x + 2 * PI * IZR z) (Z.to_nat (- z))).
    rewrite INR_IZR_INZ, Z2Nat.id, opp_IZR by lia. f_equal. ring.
Qed.

Lemma sin_turns (x : R) (z : Z) : sin (x + 2 * PI * IZR z) = sin x.
Proof.
  destruct (Z.le_gt_cases 0 z) as [H|H].
  - rewrite <- (sin_period x (Z.to_nat z)).
    rewrite INR_IZR_INZ, Z2Nat.id by exact H. f_equal. ring.
  - rewrite <- (sin_period (x + 2 * PI * IZR z) (Z.to_nat (- z))).
    rewrite INR_IZR_INZ, Z2Nat.id, opp_IZR by lia. f_equal. ring.
Qed.

(** X1: over the reals, [normalizeAngle] returns an angle of [[-PI, PI]] with
    the same cosine and sine as its argument, and normalizing twice is
    normalizing once. *)
Theorem normalizeAngle_direction (a : R) :
  - PI <= normalizeAngle a <= PI /\
  cos (normalizeAngle a) = cos a /\
  sin (normalizeAngle a) = sin a /\
  normalizeAngle (normalizeAngle a) = normalizeAngle a.
Proof.
  destruct (normalizeAngle_spec a) as [Hr [z Hz]].
  split; [exact Hr|]. split; [|split].
  - rewrite Hz. apply cos_turns.
  - rewrite Hz. apply sin_turns.
  - now apply normalizeAngle_id.
Qed.

(** ** One organism's move *)




(** ** Who is left after a tick *)

Lemma survivors_ids (dead : list string) (grown : list Snake) :
  map id (survivors dead grown)
  = filter (fun i => negb (has dead i)) (map id grown).
Proof. unfold survivors. now rewrite filter_map_swap. Qed.

Lemma detect_ids b all : forall todo acc dead,
  detect b all todo acc = Some dead ->
  forall i, In i dead -> In i acc \/ In i (map id todo).
Proof.
  intros todo acc dead H i Hi. apply (detect_spec _ _ _ _ _ H) in Hi.
  destruct Hi as [Hi|(s & Hs & <- & _)]; [now left|].
  right. now apply in_map.
Qed.

Lemma split_by_dead (dead ids : list string) :
  NoDup ids -> NoDup dead -> incl dead ids ->
  Permutation (filter (fun i => negb (has dead i)) ids ++ dead) ids.
Proof.
  intros Hi Hd Hin. apply NoDup_Permutation; [|exact Hi|].
  - apply NoDup_app; [now apply NoDup_filter|exact Hd|].
    intros x Hx Hx'. apply filter_In in Hx. destruct Hx as [_ Hx].
    apply has_In in Hx'. now rewrite Hx' in Hx.
  - intros x. rewrite in_app_iff, filter_In. split.
    + intros [[H _]|H]; [exact H|now apply Hin].
    + intros H. destruct (has dead x) eqn:E.
      * right. now apply has_In.
      * left. now split.
Qed.

(** X3: a tick on organisms with distinct ids neither makes nor loses an
    organism: [deadIds] has no duplicate, the ids of the organisms of the
    returned state are the ids of the given state that are not in [deadIds],
    in the same order, and together with [deadIds] they are the ids of the
    given state. *)
Theorem tick_population (random : Random) (state : GameState) (dt : R)
    (ta : TargetAngles) :
  Forall hasHead (snakes state) ->
  NoDup (map id (snakes state)) ->
  exists st' deadIds,
    tick random state dt ta = Some (st', deadIds) /\
    NoDup deadIds /\
    incl deadIds (map id (snakes state)) /\
    map id (snakes st')
    = filter (fun i => negb (has deadIds i)) (map id (snakes state)) /\
    Permutation (map id (snakes st') ++ deadIds) (map id (snakes state)).
Proof.
  intros Hh Hn.
  destruct (tick_run random state dt ta Hh)
    as (moved & grown & eaten & left & deadIds & Hm & Hf & Hc & Hd & Ht).
  eexists _, deadIds. split; [exact Ht|].
  assert (Hids : map id grown = map id (snakes state)).
  { now rewrite (Consumption_ids _ _ _ _ _ Hc), (moveAll_ids _ _ _ _ Hm). }
  assert (Hnd : NoDup deadIds).
  { eapply detect_NoDup; [exact Hd|constructor]. }
  assert (Hin : incl deadIds (map id (snakes state))).
  { intros i Hi. rewrite <- Hids.
    destruct (detect_ids _ _ _ _ _ Hd i Hi) as [[]|H]. exact H. }
  split; [exact Hnd|]. split; [exact Hin|].
  cbn [tickResult snakes]. rewrite survivors_ids, Hids.
  split; [reflexivity|]. now apply split_by_dead.
Qed.

(** The duel: two organisms, two distinct ids. *)
Lemma tick_population_witness :
  Forall hasHead (snakes duelState)
  /\ NoDup (map id (snakes duelState))
  /\ exists st' deadIds,
      tick (fun _ => 0) duelState (1 / 60) noTargets = Some (st', deadIds) /\
      Permutation (map id (snakes st') ++ deadIds)
                  (map id (snakes duelState)).
Proof.
  split; [exact duelState_heads|]. split; [exact duelState_ids|].
  destruct (tick_population (fun _ => 0) duelState (1 / 60) noTargets
                            duelState_heads duelState_ids)
    as (st' & deadIds & Ht & _ & _ & _ & Hp).
  exists st', deadIds. now split.
Defined.

(** ** The invariants a tick keeps *)

Lemma dropped_values (d : Snake) (p : Pellet) :
  In p (dropped d) -> value p = PELLET_VALUE.
Proof.
  unfold dropped. intros H. apply in_map_iff in H.
  now destruct H as (j & <- & _).
Qed.

Lemma dropsOf_values l dead (p : Pellet) :
  In p (dropsOf l dead) -> value p = PELLET_VALUE.
Proof.
  unfold dropsOf. intros H. apply in_flat_map in H.
  destruct H as (i & _ & H). destruct (find _ l); [|easy].
  eapply dropped_values, H.
Qed.

Lemma PELLET_VALUE_count : exists n : nat, PELLET_VALUE = INR n.
Proof. exists 1%nat. reflexivity. Qed.

Lemma tickResult_wellFormed random state dt moved grown eaten left deadIds ta :
  wellFormed state ->
  moveAll dt ta (snakes state) = Some moved ->
  Consumption moved (pellets state) grown eaten left ->
  detect (bounds state) grown grown [] = Some deadIds ->
  wellFormed (tickResult random state dt grown left deadIds).
Proof.
  intros (Hh & Hn & Hv) Hm Hc Hd. split; [|split].
  - cbn [tickResult snakes]. unfold survivors.
    apply Forall_forall. intros s Hs. apply filter_In in Hs.
    pose proof (Consumption_heads _ _ _ _ _ Hc) as Hg.
    rewrite Forall_forall in Hg. now apply Hg.
  - cbn [tickResult snakes]. rewrite survivors_ids.
    apply NoDup_filter.
    now rewrite (Consumption_ids _ _ _ _ _ Hc), (moveAll_ids _ _ _ _ Hm).
  - cbn [tickResult pellets].
    assert (Hd' : countValued (left ++ dropsOf (snakes state) deadIds)).
    { apply Forall_app. split.
      - eapply countValued_incl; [eapply Consumption_left_incl, Hc|exact Hv].
      - apply Forall_forall. intros p Hp.
        rewrite (dropsOf_values _ _ _ Hp). apply PELLET_VALUE_count. }
    destruct (Rleb _ 0); [|exact Hd'].
    apply Forall_app. split; [exact Hd'|].
    repeat constructor. apply PELLET_VALUE_count.
Qed.

(** X4: a tick on a state that has the invariants of the data model (heads,
    distinct ids, counts as pellet values) returns a state that has them
    too, with the same bounds and [nextSnakeId], and in which every heading
    is in [[-PI, PI]]. *)
Theorem tick_keeps_wellFormed (random : Random) (state : GameState) (dt : R)
    (ta : TargetAngles) :
  wellFormed state ->
  exists st' deadIds,
    tick random state dt ta = Some (st', deadIds) /\
    wellFormed st' /\
    bounds st' = bounds state /\
    nextSnakeId st' = nextSnakeId state /\
    forall s', In s' (snakes st') -> - PI <= angle s' <= PI.
Proof.
  intros Hw. pose proof Hw as (Hh & _ & _).
  destruct (tick_run random state dt ta Hh)
    as (moved & grown & eaten & left & deadIds & Hm & Hf & Hc & Hd & Ht).
  eexists _, deadIds. split; [exact Ht|].
  split; [eapply tickResult_wellFormed; eassumption|].
  split; [reflexivity|]. split; [reflexivity|].
  intros s' Hs'.
  destruct (tick_trace _ _ _ _ _ _ _ _ _ Hm Hc s' Hs')
    as (s & m & h & rest & avail & Hs & Hms & _ & _ & ->).
  destruct (moveSnake_inv _ _ _ _ Hms) as (_ & _ & _ & _ & _ & _ & _ & _ & Ha & _).
  rewrite grow_angle, Ha. apply normalizeAngle_range.
Qed.

Lemma feedState_wellFormed : wellFormed feedState.
Proof.
  split; [|split].
  - repeat constructor. discriminate.
  - repeat constructor. easy.
  - exact feedState_values.
Qed.

(** The state of the feeding scenario has the invariants, and keeps them. *)
Lemma tick_keeps_wellFormed_witness :
  wellFormed feedState
  /\ exists st' deadIds,
      tick (fun _ => 0) feedState (1 / 60) noTargets = Some (st', deadIds) /\
      wellFormed st'.
Proof.
  split; [exact feedState_wellFormed|].
  destruct (tick_keeps_wellFormed (fun _ => 0) feedState (1 / 60) noTargets
                                  feedState_wellFormed)
    as (st' & deadIds & Ht & Hw & _).
  exists st', deadIds. now split.
Defined.

(** ** Lengths *)

Lemma moveSnake_length s dt t s' :
  moveSnake s dt t = Some s' -> getSnakeLength s' = getSnakeLength s.
Proof.
  intros H. destruct (moveSnake_inv _ _ _ _ H)
    as (h & rest & E & _ & _ & _ & _ & _ & _ & E').
  unfold getSnakeLength. rewrite E, E'. simpl. now rewrite follow_length.
Qed.

(** X5: an organism of the returned state has at least as many segments as
    the organism of the given state it comes from, and as many when its head
    after the move hits no pellet of the state. *)
Theorem tick_never_shrinks (random : Random) (state : GameState) (dt : R)
    (ta : TargetAngles) :
  Forall hasHead (snakes state) ->
  exists st' deadIds,
    tick random state dt ta = Some (st', deadIds) /\
    forall s', In s' (snakes st') ->
    exists s h,
      In s (snakes state) /\ id s = id s' /\
      nth_error (segments s') 0 = Some h /\
      (getSnakeLength s <= getSnakeLength s')%nat /\
      ((forall p, In p (pellets state) -> hits h p = false) ->
       getSnakeLength s' = getSnakeLength s).
Proof.
  intros Hh.
  destruct (tick_run random state dt ta Hh)
    as (moved & grown & eaten & left & deadIds & Hm & _ & Hc & _ & Ht).
  eexists _, deadIds. split; [exact Ht|]. intros s' Hs'.
  destruct (tick_trace _ _ _ _ _ _ _ _ _ Hm Hc s' Hs')
    as (s & m & h & rest & avail & Hs & Hms & E & Hi & ->).
  pose proof (moveSnake_length _ _ _ _ Hms) as Hlen.
  destruct (moveSnake_inv _ _ _ _ Hms) as (_ & _ & _ & Hid & _).
  exists s, h. split; [exact Hs|]. split; [now rewrite grow_id|].
  destruct (grow_segments m (sumValues (filter (hits h) avail))) as [k Hk].
  split; [rewrite Hk, E; reflexivity|].
  split.
  - unfold getSnakeLength in *. rewrite Hk, length_app, <- Hlen. lia.
  - intros Hno.
    assert (Ef : filter (hits h) avail = []).
    { destruct (filter (hits h) avail) as [|p tl] eqn:Ef; [reflexivity|].
      assert (Hp : In p (filter (hits h) avail)) by (rewrite Ef; now left).
      apply filter_In in Hp. destruct Hp as [Hp Hhit].
      rewrite (Hno p (Hi p Hp)) in Hhit. discriminate. }
    rewrite Ef. simpl sumValues. unfold grow.
    destruct (Rle_dec 0 0) as [_|H]; [exact Hlen|lra].
Qed.

(** In the feeding scenario. *)
Lemma tick_never_shrinks_witness :
  Forall hasHead (snakes feedState)
  /\ exists st' deadIds,
      tick (fun _ => 0) feedState (1 / 60) noTargets = Some (st', deadIds) /\
      forall s', In s' (snakes st') ->
      exists s, In s (snakes feedState) /\
                (getSnakeLength s <= getSnakeLength s')%nat.
Proof.
  assert (H1 : Forall hasHead (snakes feedState)).
  { repeat constructor. discriminate. }
  split; [exact H1|].
  destruct (tick_never_shrinks (fun _ => 0) feedState (1 / 60) noTargets H1)
    as (st' & deadIds & Ht & H).
  exists st', deadIds. split; [exact Ht|]. intros s' Hs'.
  destruct (H s' Hs') as (s & h & Hs & _ & _ & Hle & _).
  exists s. now split.
Defined.

(** ** Pellets *)


Lemma dropsOf_length l dead :
  List.length (dropsOf l dead) = dropTotal l dead.
Proof.
  unfold dropsOf, dropTotal. induction dead as [|i tl IH]; [reflexivity|].
  cbn [flat_map map list_sum]. rewrite length_app, IH.
  destruct (find _ l); [now rewrite dropped_length|reflexivity].
Qed.



(** ** The spawn timer *)

Lemma spawned_inPadded (random : Random) (b : Bounds) :
  unitRandom random -> roomy b -> inPadded (pelletPos (spawned random b)) b.
Proof.
  intros Hr [Hw Hh]. unfold inPadded, spawned, pelletPos. cbn [px py pel_x pel_y].
  pose proof (scaled_between ARENA_PADDING (width b - ARENA_PADDING)
                (random 0%nat) ltac:(lra) (Hr 0%nat)) as Hx.
  pose proof (scaled_between ARENA_PADDING (height b - ARENA_PADDING)
                (random 1%nat) ltac:(lra) (Hr 1%nat)) as Hy.
  split; lra.
Qed.

(** X7: the timer of the returned state is positive.  When the timer of the
    given state less [dt] is zero or below, it is set back to
    [PELLET_SPAWN_INTERVAL] and the pellets of the returned state are the
    pellets left by the consumption pass, the pellets dropped for the dead,
    and last a new one of value [PELLET_VALUE], inside the bounds inset by
    the padding when [Math.random] is in [[0, 1)] and the bounds leave room
    there; otherwise the timer is less by [dt] and no pellet is spawned: the
    pellets are the ones left and the ones dropped, and nothing else. *)
Theorem tick_spawn (random : Random) (state : GameState) (dt : R)
    (ta : TargetAngles) :
  Forall hasHead (snakes state) ->
  exists moved grown left st' deadIds,
    moveAll dt ta (snakes state) = Some moved /\
    feedAll moved (pellets state) = Some (grown, left) /\
    tick random state dt ta = Some (st', deadIds) /\
    0 < nextPelletSpawn st' /\
    (nextPelletSpawn state - dt <= 0 ->
     nextPelletSpawn st' = PELLET_SPAWN_INTERVAL /\
     pellets st'
     = (left ++ dropsOf (snakes state) deadIds)
       ++ [spawned random (bounds state)] /\
     value (spawned random (bounds state)) = PELLET_VALUE /\
     (unitRandom random -> roomy (bounds state) ->
      inPadded (pelletPos (spawned random (bounds state))) (bounds state))) /\
    (0 < nextPelletSpawn state - dt ->
     nextPelletSpawn st' = nextPelletSpawn state - dt /\
     pellets st' = left ++ dropsOf (snakes state) deadIds /\
     (forall p, In p (pellets st') ->
        In p (pellets state) \/ In p (dropsOf (snakes state) deadIds)) /\
     List.length (pellets st')
     = (List.length left + dropTotal (snakes state) deadIds)%nat).
Proof.
  intros Hh.
  destruct (tick_run random state dt ta Hh)
    as (moved & grown & eaten & left & deadIds & Hm & Hf & Hc & _ & Ht).
  exists moved, grown, left. eexists _, deadIds.
  split; [exact Hm|]. split; [exact Hf|]. split; [exact Ht|].
  cbn [tickResult nextPelletSpawn pellets].
  unfold Rleb. destruct (Rle_dec (nextPelletSpawn state - dt) 0) as [H|H].
  - split; [unfold PELLET_SPAWN_INTERVAL; lra|]. split; [|intros; lra].
    intros _. split; [reflexivity|]. split; [reflexivity|].
    split; [reflexivity|]. apply spawned_inPadded.
  - split; [lra|]. split; [intros; lra|]. intros _.
    split; [reflexivity|]. split; [reflexivity|]. split.
    + intros p Hp. apply in_app_or in Hp. destruct Hp as [Hp|Hp]; [|now right].
      left. apply (Permutation_in _ (Consumption_perm _ _ _ _ _ Hc)).
      apply in_or_app. now right.
    + now rewrite length_app, dropsOf_length.
Qed.

(** In the feeding scenario: the timer goes from 2 to [2 - 1/60], and the
    pellet that was eaten is not replaced. *)
Lemma tick_spawn_witness :
  Forall hasHead (snakes feedState)
  /\ exists left st' deadIds,
      tick (fun _ => 0) feedState (1 / 60) noTargets = Some (st', deadIds) /\
      nextPelletSpawn st' = nextPelletSpawn feedState - 1 / 60 /\
      pellets st' = left ++ dropsOf (snakes feedState) deadIds.
Proof.
  assert (H1 : Forall hasHead (snakes feedState)).
  { repeat constructor. discriminate. }
  split; [exact H1|].
  destruct (tick_spawn (fun _ => 0) feedState (1 / 60) noTargets H1)
    as (moved & grown & left & st' & deadIds & _ & _ & Ht & _ & _ & Hno).
  assert (Hpos : 0 < nextPelletSpawn feedState - 1 / 60).
  { cbn [feedState nextPelletSpawn]. unfold PELLET_SPAWN_INTERVAL. lra. }
  destruct (Hno Hpos) as (Htimer & Hp & _).
  exists left, st', deadIds. now repeat split.
Defined.

(** ** The indices of the dropped pellets *)

Lemma dropCount_bounds (len : nat) :
  (1 <= len -> 1 <= dropCount len <= len)%nat.
Proof.
  intros H. unfold dropCount.
  pose proof (Nat.Div0.div_le_upper_bound (2 * len) 5 len ltac:(lia)). lia.
Qed.

Lemma dropIndex_plain (len j : nat) :
  (1 <= len -> j < dropCount len ->
   dropIndex len j = j * dropStep len /\ j * dropStep len < len)%nat.
Proof.
  intros Hlen Hj. pose proof (dropCount_bounds len Hlen) as [Hc1 Hc2].
  assert (Hs : dropStep len = (len / dropCount len)%nat).
  { unfold dropStep.
    pose proof (Nat.div_str_pos len (dropCount len) ltac:(lia)). lia. }
  assert (Hm : (dropCount len * dropStep len <= len)%nat).
  { rewrite Hs. apply Nat.Div0.mul_div_le. }
  assert (Hp : (1 <= dropStep len)%nat) by (unfold dropStep; lia).
  assert (Hlt : (j * dropStep len < len)%nat) by nia.
  split; [unfold dropIndex; lia|exact Hlt].
Qed.

(** X8: a dead organism with a head drops between one pellet and one pellet
    per segment; the bound [len - 1] on the index is never reached: the
    pellet of index [j] is at the segment of index [j * step], so that the
    pellets are at different segments, in the order of the body. *)
Theorem drop_indices (dead : Snake) :
  hasHead dead ->
  let len := List.length (segments dead) in
  let count := dropCount len in
  let step := dropStep len in
  (1 <= count <= len)%nat /\ (1 <= step)%nat /\
  dropPellets dead
  = Some (map (fun j : nat =>
                 let seg := nth (j * step) (segments dead) (mkPoint 0 0) in
                 mkPellet (px seg) (py seg) PELLET_VALUE)
              (seq 0 count)) /\
  forall j, (j < count)%nat ->
    (j * step < len)%nat /\
    forall j', (j < j')%nat -> (j * step < j' * step)%nat.
Proof.
  intros Hh len count step.
  assert (Hlen : (1 <= len)%nat).
  { unfold len. unfold hasHead in Hh. destruct (segments dead); [easy|simpl; lia]. }
  split; [now apply dropCount_bounds|].
  assert (Hp : (1 <= step)%nat) by (unfold step, dropStep; lia).
  split; [exact Hp|]. split.
  - rewrite (dropPellets_spec _ Hh). unfold dropped. fold len count. f_equal.
    apply map_ext_in. intros j Hj. apply in_seq in Hj.
    destruct (dropIndex_plain len j Hlen ltac:(unfold count in Hj; lia)) as [-> _].
    reflexivity.
  - intros j Hj. split; [now apply dropIndex_plain|]. intros j' Hjj. nia.
Qed.

(** On one of the organisms of the duel. *)
Lemma drop_indices_witness :
  hasHead duelA
  /\ (1 <= dropCount (List.length (segments duelA))
        <= List.length (segments duelA))%nat.
Proof.
  assert (H : hasHead duelA) by discriminate.
  split; [exact H|]. exact (proj1 (drop_indices duelA H)).
Defined.

(** ** The state createInitialState builds *)

Lemma snakeName_inj (i j : nat) : snakeName i = snakeName j -> i = j.
Proof.
  unfold snakeName. simpl. intros H. injection H as H.
  apply Unsigned.to_uint_inj.
  pose proof (NilEmpty.usu (Nat.to_uint i)) as Hi.
  pose proof (NilEmpty.usu (Nat.to_uint j)) as Hj.
  rewrite H in Hi. congruence.
Qed.

Lemma snakeName_not_player (i : nat) : snakeName i <> "player"%string.
Proof. unfold snakeName. simpl. discriminate. Qed.

Lemma spawnName_inj (i j : nat) : spawnName i = spawnName j -> i = j.
Proof.
  unfold spawnName.
  destruct (Nat.eqb_spec i 0) as [->|Hi], (Nat.eqb_spec j 0) as [->|Hj];
    intros H; try reflexivity.
  - symmetry in H. now apply snakeName_not_player in H.
  - now apply snakeName_not_player in H.
  - now apply snakeName_inj.
Qed.

Lemma spawnSnakes_ids fuel random minX maxX minY maxY :
  forall n i k used l k',
  spawnSnakes fuel random minX maxX minY maxY n i k used = Some (l, k') ->
  map id l = map spawnName (seq i n) /\
  map isPlayer l = map (fun j => Nat.eqb j 0) (seq i n).
Proof.
  induction n as [|n IH]; intros i k used l k' H; cbn [spawnSnakes] in H.
  - injection H as <- <-. now split.
  - unfold bind in H.
    destruct (place _ _ _ _ _ _ _ _) as [[[[x y] key] k1]|]; [|discriminate].
    destruct (spawnSnakes _ _ _ _ _ _ _ _ _ _) as [[rest k2]|] eqn:Er;
      [|discriminate].
    injection H as <- <-. destruct (IH _ _ _ _ _ Er) as [Hid Hp].
    cbn [map seq id isPlayer]. rewrite Hid, Hp. now split.
Qed.

Lemma NoDup_map_injective {A B} (f : A -> B) (l : list A) :
  (forall a b, f a = f b -> a = b) -> NoDup l -> NoDup (map f l).
Proof.
  intros Hf. induction 1 as [|a l Ha _ IH]; simpl; constructor; [|exact IH].
  intros H. apply in_map_iff in H. destruct H as (b & E & Hb).
  apply Hf in E. now subst.
Qed.

Lemma initialSegments_head (x y a : R) :
  exists h, nth_error (initialSegments x y a) 0 = Some h /\
            px h = x /\ py h = y.
Proof.
  eexists. split; [apply initialSegments_nth; unfold INITIAL_LENGTH; lia|].
  cbn [px py]. simpl INR. split; ring.
Qed.

Lemma createInitialState_inv fuel random options st :
  createInitialState fuel random options = Some st ->
  let b := match opt_bounds options with
           | Some b => b
           | None => mkBounds 3000 3000
           end in
  let n := match opt_numBots options with Some n => n | None => 8%nat end in
  let p := match opt_numPellets options with Some p => p | None => 80%nat end in
  exists k,
    spawnSnakes fuel random ARENA_PADDING (width b - ARENA_PADDING)
                ARENA_PADDING (height b - ARENA_PADDING) n 0 0 []
    = Some (snakes st, k) /\
    pellets st
    = scatterPellets random ARENA_PADDING (width b - ARENA_PADDING)
                     ARENA_PADDING (height b - ARENA_PADDING) p k /\
    bounds st = b /\ nextSnakeId st = n /\
    nextPelletSpawn st = PELLET_SPAWN_INTERVAL.
Proof.
  intros H. cbv zeta. unfold createInitialState, bind in H.
  destruct (spawnSnakes _ _ _ _ _ _ _ _ _ _) as [[l k]|] eqn:Es; [|discriminate].
  injection H as <-. exists k. cbn [snakes pellets bounds nextSnakeId
                                    nextPelletSpawn].
  now repeat split.
Qed.

Lemma created_wellFormed fuel random options st :
  createInitialState fuel random options = Some st -> wellFormed st.
Proof.
  intros H.
  destruct (createInitialState_inv _ _ _ _ H) as (k & Hs & Hp & _).
  destruct (spawnSnakes_shape _ _ _ _ _ _ _ _ _ Hs) as [Hlen Hshape].
  destruct (spawnSnakes_ids _ _ _ _ _ _ _ _ _ _ _ _ Hs) as [Hid _].
  split; [|split].
  - apply Forall_forall. intros s Hin.
    apply In_nth_error in Hin. destruct Hin as [j Hj].
    destruct (Hshape j s Hj) as (_ & _ & _ & _ & kx & ka & _ & Hseg).
    unfold hasHead. rewrite Hseg. unfold initialSegments, INITIAL_LENGTH.
    discriminate.
  - rewrite Hid. apply NoDup_map_injective; [apply spawnName_inj|apply seq_NoDup].
  - apply Forall_forall. intros q Hq. rewrite Hp in Hq.
    apply scatterPellets_In in Hq. destruct Hq as [-> _].
    apply PELLET_VALUE_count.
Qed.

(** X9: a state that [createInitialState] returns has the invariants of the
    data model: every organism has a head, the ids are pairwise distinct (the
    organism of index [i] has the id of its round), an organism is flagged
    as the player exactly when its id is ["player"], every pellet has the
    value [PELLET_VALUE], and the spawn timer is [PELLET_SPAWN_INTERVAL]. *)
Theorem createInitialState_wellFormed (fuel : nat) (random : Random)
    (options : Options) (st : GameState) :
  createInitialState fuel random options = Some st ->
  wellFormed st /\
  map id (snakes st) = map spawnName (seq 0 (List.length (snakes st))) /\
  playerTagged (snakes st) /\
  (forall q, In q (pellets st) -> value q = PELLET_VALUE) /\
  nextPelletSpawn st = PELLET_SPAWN_INTERVAL /\
  nextSnakeId st = List.length (snakes st).
Proof.
  intros H. pose proof (created_wellFormed _ _ _ _ H) as Hw.
  destruct (createInitialState_inv _ _ _ _ H)
    as (k & Hs & Hp & Hb & Hn & Ht).
  destruct (spawnSnakes_shape _ _ _ _ _ _ _ _ _ Hs) as [Hlen Hshape].
  destruct (spawnSnakes_ids _ _ _ _ _ _ _ _ _ _ _ _ Hs) as [Hid Hpl].
  split; [exact Hw|]. split; [now rewrite Hlen|]. split; [|split; [|split]].
  - intros s Hin. apply In_nth_error in Hin. destruct Hin as [j Hj].
    destruct (Hshape j s Hj) as (Hp' & Hi' & _). cbn [Nat.add] in Hp', Hi'.
    rewrite Hp', Hi'. destruct (Nat.eqb j 0); split; try easy;
      intros E; now apply snakeName_not_player in E.
  - intros q Hq. rewrite Hp in Hq. now apply scatterPellets_In in Hq.
  - exact Ht.
  - now rewrite Hn, Hlen.
Qed.

Lemma createInitialState_rnd0 :
  exists st,
    createInitialState 0%nat rnd0 (mkOptions None (Some 1%nat) (Some 0%nat))
    = Some st.
Proof.
  unfold createInitialState.
  cbn [opt_bounds opt_numBots opt_numPellets spawnSnakes place usedHas
       existsb bind Nat.eqb].
  eexists. reflexivity.
Qed.

(** One organism, no pellet, with the random numbers [rnd0]. *)
Lemma createInitialState_wellFormed_witness :
  exists st,
    createInitialState 0%nat rnd0 (mkOptions None (Some 1%nat) (Some 0%nat))
    = Some st
    /\ wellFormed st /\ playerTagged (snakes st).
Proof.
  destruct createInitialState_rnd0 as [st H]. exists st.
  destruct (createInitialState_wellFormed _ _ _ _ H) as (Hw & _ & Hp & _).
  split; [exact H|]. split; [exact Hw|exact Hp].
Defined.

(** ** The cells of the heads *)

Lemma usedHas_true (used : list (Z * Z)) (key : Z * Z) :
  In key used -> usedHas used key = true.
Proof.
  intros H. unfold usedHas. apply existsb_exists. exists key.
  split; [exact H|now apply keyEqb_eq].
Qed.

Lemma spawnSnakes_cells fuel random minX maxX minY maxY :
  forall n i k used l k',
  spawnSnakes fuel random minX maxX minY maxY n i k used = Some (l, k') ->
  NoDup (map headCell l) /\
  forall s, In s l ->
    exists c, headCell s = Some c /\ ~ In c used.
Proof.
  induction n as [|n IH]; intros i k used l k' H; cbn [spawnSnakes] in H.
  - injection H as <- <-. split; [constructor|easy].
  - unfold bind in H.
    destruct (place _ _ _ _ _ _ _ _) as [[[[x y] key] k1]|] eqn:Ep;
      [|discriminate].
    destruct (spawnSnakes _ _ _ _ _ _ _ _ _ _) as [[rest k2]|] eqn:Er;
      [|discriminate].
    injection H as <- <-.
    destruct (IH _ _ _ _ _ Er) as [Hnd Hrest].
    destruct (place_inv _ _ _ _ _ _ _ _ _ _ _ _ Ep) as (kx & _ & _ & Hkey & Hfree).
    set (ang := random k1 * 2 * PI - PI) in *.
    assert (Hc : forall sn, segments sn = initialSegments x y ang ->
                            headCell sn = Some key).
    { intros sn E. unfold headCell. rewrite E.
      destruct (initialSegments_head x y ang) as (h & -> & Hx & Hy).
      cbn [option_map]. now rewrite Hx, Hy, Hkey. }
    split.
    + cbn [map]. rewrite Hc by reflexivity. constructor; [|exact Hnd].
      intros Hin. apply in_map_iff in Hin. destruct Hin as (s & Es & Hs).
      destruct (Hrest s Hs) as (c & Ec & Hnot). apply Hnot.
      rewrite Es in Ec. injection Ec as <-. now left.
    + intros s [<-|Hs].
      * exists key. split; [now apply Hc|].
        intros Hin. apply usedHas_true in Hin. congruence.
      * destruct (Hrest s Hs) as (c & Ec & Hnot). exists c.
        split; [exact Ec|]. intros Hin. apply Hnot. now right.
Qed.

(** X10: in a state that [createInitialState] returns, the heads of the
    organisms are in pairwise different cells of the grid of side 50 that the
    placement loop keeps in [usedPositions]. *)
Theorem createInitialState_cells (fuel : nat) (random : Random)
    (options : Options) (st : GameState) :
  createInitialState fuel random options = Some st ->
  NoDup (map headCell (snakes st)) /\
  forall s, In s (snakes st) ->
    exists h, nth_error (segments s) 0 = Some h /\
              headCell s = Some (cellKey (px h) (py h)).
Proof.
  intros H. destruct (createInitialState_inv _ _ _ _ H) as (k & Hs & _).
  destruct (spawnSnakes_cells _ _ _ _ _ _ _ _ _ _ _ _ Hs) as [Hnd Hall].
  split; [exact Hnd|]. intros s Hin.
  destruct (Hall s Hin) as (c & Ec & _). unfold headCell in *.
  destruct (nth_error (segments s) 0) as [h|]; [|discriminate].
  exists h. now split.
Qed.

Lemma createInitialState_rnd3 :
  exists st,
    createInitialState 0%nat rnd3 (mkOptions None (Some 2%nat) (Some 1%nat))
    = Some st
    /\ List.length (snakes st) = 2%nat.
Proof.
  assert (Hn : NoDup (map (firstCell rnd3 (mkBounds 3000 3000)) (seq 0 2))).
  { rewrite rnd3_cells. repeat constructor; simpl; [|easy].
    intros [E|[]]. discriminate. }
  destruct (spawnSnakes_fresh 0%nat rnd3 (mkBounds 3000 3000) 2 0 [] Hn)
    as [l Hl]; [now intros|].
  change (3 * 0)%nat with 0%nat in Hl.
  destruct (spawnSnakes_shape _ _ _ _ _ _ _ _ _ Hl) as [Hlen _].
  unfold createInitialState.
  cbn [opt_bounds opt_numBots opt_numPellets].
  rewrite Hl. cbn [bind]. eexists. split; [reflexivity|exact Hlen].
Qed.

(** Two organisms, with the random numbers [rnd3]: their heads are in two
    different cells. *)
Lemma createInitialState_cells_witness :
  exists st a b,
    createInitialState 0%nat rnd3 (mkOptions None (Some 2%nat) (Some 1%nat))
    = Some st
    /\ snakes st = [a; b]
    /\ NoDup (map headCell (snakes st))
    /\ headCell a <> headCell b.
Proof.
  destruct createInitialState_rnd3 as (st & H & Hlen).
  pose proof (proj1 (createInitialState_cells _ _ _ _ H)) as Hnd.
  destruct (snakes st) as [|a [|b [|c l]]] eqn:E; try discriminate.
  exists st, a, b. split; [exact H|]. split; [exact E|].
  rewrite E. split; [exact Hnd|].
  cbn [map] in Hnd. inversion Hnd as [|? ? Hnot _]; subst.
  intros Eab. apply Hnot. rewrite Eab. now left.
Defined.

(** ** Frame after frame *)

Lemma ticks_wellFormed : forall frames st,
  wellFormed st ->
  exists st',
    ticks frames st = Some st' /\ wellFormed st' /\
    bounds st' = bounds st /\
    incl (map id (snakes st')) (map id (snakes st)).
Proof.
  induction frames as [|[[random dt] ta] tl IH]; intros st Hw.
  - exists st. repeat split; try apply Hw. apply incl_refl.
  - pose proof Hw as (Hh & Hn & _).
    destruct (tick_run random st dt ta Hh)
      as (moved & grown & eaten & left & deadIds & Hm & Hf & Hc & Hd & Ht).
    pose proof (tickResult_wellFormed random st dt moved grown eaten left
                  deadIds ta Hw Hm Hc Hd) as Hw'.
    destruct (IH _ Hw') as (st' & Hts & Hw'' & Hb & Hi).
    exists st'. cbn [ticks]. rewrite Ht. cbn [bind fst].
    split; [exact Hts|]. split; [exact Hw''|]. split; [exact Hb|].
    intros i Hin. apply Hi in Hin. cbn [tickResult snakes] in Hin.
    rewrite survivors_ids in Hin. apply filter_In in Hin.
    destruct Hin as [Hin _].
    now rewrite (Consumption_ids _ _ _ _ _ Hc), (moveAll_ids _ _ _ _ Hm) in Hin.
Qed.

(** X11: over the reals, from a state that [createInitialState] returns,
    the ticks of any number of frames, each given the state of the one
    before, return one after the other: every organism of every state on
    the way has a head, so no tick throws at [head.x]; the state they end
    in has the invariants of the data model, the same bounds, no organism
    whose id was not there at the start, and no more organisms.  The
    arithmetic is exact: on binary64 numbers [normalizeAngle] need not
    return (C9), and nothing is said of such ticks. *)
Theorem game_never_throws (fuel : nat) (random : Random) (options : Options)
    (st0 : GameState) (frames : list (Random * R * TargetAngles)) :
  createInitialState fuel random options = Some st0 ->
  exists st,
    ticks frames st0 = Some st /\ wellFormed st /\
    bounds st = bounds st0 /\
    incl (map id (snakes st)) (map id (snakes st0)) /\
    (List.length (snakes st) <= List.length (snakes st0))%nat.
Proof.
  intros H. pose proof (created_wellFormed _ _ _ _ H) as Hw.
  destruct (ticks_wellFormed frames st0 Hw) as (st & Ht & Hw' & Hb & Hi).
  exists st. split; [exact Ht|]. split; [exact Hw'|]. split; [exact Hb|].
  split; [exact Hi|].
  rewrite <- (length_map id (snakes st)), <- (length_map id (snakes st0)).
  apply NoDup_incl_length; [apply Hw'|exact Hi].
Qed.

(** Two frames from a state of two organisms. *)
Lemma game_never_throws_witness :
  exists st0 st,
    createInitialState 0%nat rnd3 (mkOptions None (Some 2%nat) (Some 1%nat))
    = Some st0
    /\ List.length (snakes st0) = 2%nat
    /\ ticks [(rnd0, 1 / 60, noTargets); (rnd3, 1 / 60, towards3)] st0
       = Some st
    /\ wellFormed st.
Proof.
  destruct createInitialState_rnd3 as (st0 & H & Hlen).
  destruct (game_never_throws _ _ _ _
              [(rnd0, 1 / 60, noTargets); (rnd3, 1 / 60, towards3)] H)
    as (st & Ht & Hw & _).
  exists st0, st. split; [exact H|]. split; [exact Hlen|].
  split; [exact Ht|exact Hw].
Defined.

(** * Properties of the frame loop of SlitherPage *)

(** ** From an organism of the given state to what a tick makes of it *)

Lemma Forall2_In_l {A B} (P : A -> B -> Prop) l l' a :
  Forall2 P l l' -> In a l -> exists b, In b l' /\ P a b.
Proof.
  induction 1 as [|x y l l' Hxy _ IH]; intros Ha; [easy|].
  destruct Ha as [<-|Ha].
  - exists y. split; [now left|exact Hxy].
  - destruct (IH Ha) as [b [Hb HP]]. exists b. split; [now right|exact HP].
Qed.

Lemma Consumption_In_l l ps grown eaten left :
  Consumption l ps grown eaten left ->
  forall m, In m l -> exists gain, In (grow m gain) grown.
Proof.
  induction 1 as [|s h rest ps tl tl' eaten ps' E _ IH]; intros m Hm; [easy|].
  destruct Hm as [<-|Hm].
  - eexists. now left.
  - destruct (IH m Hm) as [gain Hg]. exists gain. now right.
Qed.

Lemma tick_forward dt ta (l moved grown : list Snake) ps eaten left :
  moveAll dt ta l = Some moved ->
  Consumption moved ps grown eaten left ->
  forall s, In s l ->
  exists m gain,
    moveSnake s dt (targetOf ta s) = Some m /\ In (grow m gain) grown.
Proof.
  intros Hm Hc s Hs.
  destruct (Forall2_In_l _ _ _ _ (mapM_Forall2 _ _ _ Hm) Hs) as (m & Hin & Hms).
  destruct (Consumption_In_l _ _ _ _ _ Hc m Hin) as [gain Hg].
  now exists m, gain.
Qed.

Lemma grow_isPlayer s g : isPlayer (grow s g) = isPlayer s.
Proof. unfold grow. now destruct (Rle_dec g 0). Qed.

Lemma existsb_isPlayer (l : list Snake) :
  existsb isPlayer l = true <-> exists s, In s l /\ isPlayer s = true.
Proof. apply existsb_exists. Qed.

(** ** The player's target *)

Lemma atan2_range (y x : R) : - PI < atan2 y x <= PI.
Proof.
  unfold atan2. pose proof PI_RGT_0 as HPI.
  pose proof (atan_bound (y / x)) as Hb.
  destruct (Rlt_dec 0 x) as [Hx|Hx]; [lra|].
  destruct (Rlt_dec x 0) as [Hx'|Hx'].
  - assert (Hx0 : x <> 0) by lra.
    destruct (Rle_dec 0 y) as [Hy|Hy].
    + assert (Hq : y / x <= 0).
      { unfold Rdiv. pose proof (Rinv_lt_0_compat x Hx'). nra. }
      assert (Ha : atan (y / x) <= 0).
      { rewrite <- atan_0. destruct Hq as [Hq|Hq].
        - left. now apply atan_increasing.
        - rewrite Hq. lra. }
      lra.
    + assert (Hq : 0 < y / x).
      { unfold Rdiv. pose proof (Rinv_lt_0_compat x Hx'). nra. }
      assert (Ha : 0 < atan (y / x)).
      { rewrite <- atan_0. now apply atan_increasing. }
      lra.
  - destruct (Rlt_dec 0 y); [lra|]. destruct (Rlt_dec y 0); lra.
Qed.

(** ** [atan2] gives the direction of its arguments *)

Lemma hypot_scaled (x t : R) :
  0 <= x -> hypot x (x * t) = x * R_sqrt.sqrt (1 + t²).
Proof.
  intros Hx. unfold hypot. apply sqrt_lem_1.
  - nra.
  - apply Rmult_le_pos; [exact Hx|apply sqrt_pos].
  - assert (H : 0 <= 1 + t²) by (unfold Rsqr; nra).
    replace (x * R_sqrt.sqrt (1 + t²) * (x * R_sqrt.sqrt (1 + t²)))
      with (x * x * (R_sqrt.sqrt (1 + t²) * R_sqrt.sqrt (1 + t²))) by ring.
    rewrite sqrt_sqrt by exact H. unfold Rsqr. ring.
Qed.

Lemma hypot_opp_l (x y : R) : hypot (- x) y = hypot x y.
Proof. unfold hypot. f_equal. ring. Qed.

Lemma hypot_vertical (y : R) : hypot 0 y = Rabs y.
Proof.
  unfold hypot. replace (0 * 0 + y * y) with (Rsqr y) by (unfold Rsqr; ring).
  apply sqrt_Rsqr_abs.
Qed.

Lemma atan2_polar (y x : R) :
  hypot x y * cos (atan2 y x) = x /\ hypot x y * sin (atan2 y x) = y.
Proof.
  unfold atan2.
  assert (Hr : 0 < R_sqrt.sqrt (1 + (y / x)²)).
  { apply sqrt_lt_R0. unfold Rsqr. nra. }
  destruct (Rlt_dec 0 x) as [Hx|Hx].
  - assert (Ey : y = x * (y / x)) by (field; lra).
    assert (Eh : hypot x y = x * R_sqrt.sqrt (1 + (y / x)²)).
    { rewrite Ey at 1. apply hypot_scaled. lra. }
    rewrite Eh, cos_atan, sin_atan. split; field; lra.
  - destruct (Rlt_dec x 0) as [Hx'|Hx'].
    + assert (Ey : y = - x * - (y / x)) by (field; lra).
      assert (Eh : hypot x y = - x * R_sqrt.sqrt (1 + (y / x)²)).
      { rewrite <- hypot_opp_l. rewrite Ey at 1.
        rewrite hypot_scaled by lra. now rewrite <- Rsqr_neg. }
      rewrite Eh.
      destruct (Rle_dec 0 y) as [Hy|Hy].
      * rewrite neg_cos, neg_sin, cos_atan, sin_atan. split; field; lra.
      * rewrite cos_minus, sin_minus, cos_PI, sin_PI, cos_atan, sin_atan.
        split; field; lra.
    + assert (x = 0) as -> by lra. rewrite hypot_vertical.
      destruct (Rlt_dec 0 y) as [Hy|Hy].
      * rewrite cos_PI2, sin_PI2, Rabs_right by lra. lra.
      * destruct (Rlt_dec y 0) as [Hy'|Hy'].
        -- replace (- PI / 2) with (- (PI / 2)) by lra.
           rewrite cos_neg, sin_neg, cos_PI2, sin_PI2, Rabs_left by lra. lra.
        -- assert (y = 0) as -> by lra. rewrite Rabs_R0. lra.
Qed.

(** X12: when the state has a player with a head whose heading is in
    [[-PI, PI]], the targets handed to [tick] are the bots' targets with the
    entry of ["player"] replaced by a target in [[-PI, PI]]: the normalized
    angle of the head tracker when the face toggle is on and there is one;
    otherwise, with a pointer, the angle [atan2] from the head to the
    pointer, as it is, and the pointer lies in that direction from the
    head. *)
Theorem frameTargets_player (inp : Inputs) (current : GameState) (dt : R)
    (botTargets : TargetAngles) (p : Snake) (h : Point) :
  find isPlayer (snakes current) = Some p ->
  nth_error (segments p) 0 = Some h ->
  - PI <= angle p <= PI ->
  exists ta t,
    frameTargets inp current dt botTargets = Some ta /\
    ta "player"%string = Some t /\
    - PI <= t <= PI /\
    (forall i, i <> "player"%string -> ta i = botTargets i) /\
    (forall cv, faceEnabled inp = true -> playerCVAngle inp = Some cv ->
                t = normalizeAngle cv) /\
    (forall m, (faceEnabled inp = false \/ playerCVAngle inp = None) ->
               playerMouseWorld inp = Some m ->
               t = atan2 (py m - py h) (px m - px h) /\
               px m - px h = dist m h * cos t /\
               py m - py h = dist m h * sin t).
Proof.
  intros Hf Hh Ha. unfold frameTargets. rewrite Hf.
  assert (Hw : forall t, (withPlayer botTargets t) "player"%string = Some t)
    by reflexivity.
  assert (Ho : forall t i, i <> "player"%string ->
                           withPlayer botTargets t i = botTargets i).
  { intros t i Hi. unfold withPlayer. apply String.eqb_neq in Hi.
    now rewrite Hi. }
  unfold playerTarget. rewrite Hh.
  destruct (if faceEnabled inp then playerCVAngle inp else None) as [cv|] eqn:Ec.
  - cbn [bind]. eexists _, _. split; [reflexivity|]. split; [apply Hw|].
    split; [apply normalizeAngle_range|]. split; [apply Ho|]. split.
    + intros cv' Hfe Hcv. rewrite Hfe, Hcv in Ec. now injection Ec as <-.
    + intros m [Hfe|Hcv] _.
      * now rewrite Hfe in Ec.
      * rewrite Hcv in Ec. now destruct (faceEnabled inp).
  - assert (Hnocv : forall cv, faceEnabled inp = true ->
                               playerCVAngle inp = Some cv -> False).
    { intros cv Hfe Hcv. now rewrite Hfe, Hcv in Ec. }
    destruct (playerMouseWorld inp) as [m|] eqn:Em.
    + cbn [bind]. eexists _, _. split; [reflexivity|]. split; [apply Hw|].
      split; [apply normalizeAngle_range|]. split; [apply Ho|]. split.
      * intros cv Hfe Hcv. now destruct (Hnocv cv).
      * intros m' _ E. injection E as <-.
        assert (Et : normalizeAngle (atan2 (py m - py h) (px m - px h))
                     = atan2 (py m - py h) (px m - px h)).
        { apply normalizeAngle_id.
          pose proof (atan2_range (py m - py h) (px m - px h)). lra. }
        rewrite Et. split; [reflexivity|]. unfold dist.
        destruct (atan2_polar (py m - py h) (px m - px h)) as [Hc Hs].
        split; [now rewrite Hc|now rewrite Hs].
    + destruct (Z.eqb (playerTurn inp) 0); cbn [bind];
        eexists _, _; (split; [reflexivity|]); (split; [apply Hw|]);
        (split; [first [exact Ha | apply normalizeAngle_range]|]);
        (split; [apply Ho|]); split;
        try (intros cv Hfe Hcv; now destruct (Hnocv cv));
        intros m' _ E; discriminate.
Qed.

(** The player of the boost scenario, steered with the pointer. *)
Lemma frameTargets_player_witness :
  find isPlayer (snakes boostState) = Some boostPlayer
  /\ nth_error (segments boostPlayer) 0 = Some (mkPoint 100 100)
  /\ - PI <= angle boostPlayer <= PI
  /\ exists ta t,
      frameTargets (mkInputs false None (Some (mkPoint 200 300)) 0)
                   boostState (1 / 60) noTargets = Some ta /\
      ta "player"%string = Some t /\ - PI <= t <= PI.
Proof.
  assert (H3 : - PI <= angle boostPlayer <= PI).
  { cbn [boostPlayer angle]. pose proof PI_gt_3. lra. }
  split; [reflexivity|]. split; [reflexivity|]. split; [exact H3|].
  destruct (frameTargets_player (mkInputs false None (Some (mkPoint 200 300)) 0)
              boostState (1 / 60) noTargets boostPlayer (mkPoint 100 100)
              eq_refl eq_refl H3)
    as (ta & t & Hf & Ht & Hr & _).
  exists ta, t. now repeat split.
Defined.

(** ** Steering with the arrow keys *)









(** ** The end of a game *)

Lemma tick_playerTagged random state dt ta moved grown eaten left deadIds :
  playerTagged (snakes state) ->
  moveAll dt ta (snakes state) = Some moved ->
  Consumption moved (pellets state) grown eaten left ->
  playerTagged (snakes (tickResult random state dt grown left deadIds)).
Proof.
  intros Hp Hm Hc s' Hs'.
  destruct (tick_trace _ _ _ _ _ _ _ _ _ Hm Hc s' Hs')
    as (s & mv & h & rest & avail & Hs & Hmv & _ & _ & ->).
  destruct (moveSnake_inv _ _ _ _ Hmv)
    as (_ & _ & _ & Hid & _ & _ & _ & Hpl & _).
  rewrite grow_isPlayer, grow_id, Hid, Hpl. now apply Hp.
Qed.

(** X14: on a state whose organisms have heads, and where the player flag
    goes with the id ["player"], the loop's test
    [playerDied] holds exactly when the state had a player and the next
    state has none; the flag still goes with the id in the next state; and
    the test [onlyPlayerLeft] of the win holds exactly when the ids left are
    the single id ["player"], which excludes [playerDied]. *)
Theorem game_over_sound (random : Random) (state : GameState) (dt : R)
    (ta : TargetAngles) :
  Forall hasHead (snakes state) ->
  playerTagged (snakes state) ->
  exists st' deadIds,
    tick random state dt ta = Some (st', deadIds) /\
    playerTagged (snakes st') /\
    (playerDied state deadIds = true <->
     existsb isPlayer (snakes state) = true /\ playerAliveNow st' = false) /\
    (onlyPlayerLeft st' = true <-> map id (snakes st') = ["player"%string]) /\
    (playerDied state deadIds = true -> onlyPlayerLeft st' = false).
Proof.
  intros Hh Hp.
  destruct (tick_run random state dt ta Hh)
    as (moved & grown & eaten & left & deadIds & Hm & _ & Hc & Hd & ->).
  pose proof (tick_playerTagged random state dt ta _ _ _ _ deadIds Hp Hm Hc)
    as Hp'.
  set (st' := tickResult random state dt grown left deadIds) in *.
  assert (Hdied : playerDied state deadIds = true <->
     existsb isPlayer (snakes state) = true /\ playerAliveNow st' = false).
  { unfold playerDied, playerAliveNow. rewrite andb_true_iff, has_In. split.
    - intros [Hw Hdead]. split; [exact Hw|].
      apply not_true_is_false. intros Ha.
      apply existsb_isPlayer in Ha. destruct Ha as (s' & Hs' & Hpl).
      apply Hp' in Hpl; [|exact Hs'].
      apply survivors_In in Hs'. destruct Hs' as [_ Hs']. now rewrite Hpl in Hs'.
    - intros [Hw Ha]. split; [exact Hw|].
      apply existsb_isPlayer in Hw. destruct Hw as (s & Hs & Hpl).
      destruct (in_dec string_dec "player"%string deadIds) as [Hin|Hout];
        [exact Hin|exfalso].
      destruct (tick_forward _ _ _ _ _ _ _ _ Hm Hc s Hs)
        as (mv & gain & Hmv & Hg).
      destruct (moveSnake_inv _ _ _ _ Hmv)
        as (_ & _ & _ & Hid & _ & _ & _ & Hpl' & _).
      assert (Hex : existsb isPlayer (snakes st') = true).
      { apply existsb_isPlayer. exists (grow mv gain). split.
        - apply survivors_In. split; [exact Hg|].
          rewrite grow_id, Hid. apply Hp in Hpl; [|exact Hs]. now rewrite Hpl.
        - now rewrite grow_isPlayer, Hpl'. }
      now rewrite Hex in Ha. }
  assert (Hwin : onlyPlayerLeft st' = true
                 <-> map id (snakes st') = ["player"%string]).
  { unfold onlyPlayerLeft. destruct (snakes st') as [|s [|s2 tl]] eqn:E.
    - split; discriminate.
    - assert (Hs : In s [s]) by now left.
      rewrite (Hp' s Hs). cbn [map]. split; [now intros ->|].
      now intros [= ->].
    - split; discriminate. }
  exists st', deadIds. split; [reflexivity|]. split; [exact Hp'|].
  split; [exact Hdied|]. split; [exact Hwin|].
  intros Hdd. apply Hdied in Hdd. destruct Hdd as [_ Ha].
  apply not_true_is_false. intros Hw.
  unfold playerAliveNow in Ha. unfold onlyPlayerLeft in Hw.
  destruct (snakes st') as [|s [|s2 tl]]; try discriminate.
  cbn [existsb] in Ha. rewrite Hw in Ha. discriminate.
Qed.

Lemma duelState_tagged : playerTagged (snakes duelState).
Proof.
  intros s [<-|[<-|[]]]; cbn [duelA duelB isPlayer id]; split; easy.
Qed.

(** The two organisms facing each other. *)
Lemma game_over_sound_witness :
  Forall hasHead (snakes duelState)
  /\ playerTagged (snakes duelState)
  /\ exists st' deadIds,
      tick rnd0 duelState (1 / 60) noTargets = Some (st', deadIds) /\
      playerTagged (snakes st').
Proof.
  assert (H1 : Forall hasHead (snakes duelState)) by apply duelState_heads.
  pose proof duelState_tagged as H3.
  split; [exact H1|]. split; [exact H3|].
  destruct (game_over_sound rnd0 duelState (1 / 60) noTargets H1 H3)
    as (st' & deadIds & Ht & Hp & _).
  now exists st', deadIds.
Defined.

(** ** The boost *)

Lemma before_true now ref :
  before now ref = true <-> exists t, ref = Some t /\ now < t.
Proof.
  unfold before. destruct ref as [t|].
  - rewrite Rltb_true. split; [intros H; now exists t|].
    now intros (t' & [= ->] & H).
  - split; [discriminate|]. now intros (t' & E & _).
Qed.

Lemma before_false now t : before now (Some t) = false <-> t <= now.
Proof. unfold before. rewrite Rltb_false. split; lra. Qed.

(** X15: a mouth opening at [t0], outside a boost and outside the cooldown,
    with a player of [n] segments, starts a boost from [t0] to
    [t0 + 2000 + 50 * n]; until that end every frame gets the multiplier
    [BOOST_SPEED_MULTIPLIER] and leaves the refs alone, and a mouth opening
    changes nothing (no stacking); the first frame at or after the end gets
    the multiplier [1], clears the boost and sets the cooldown to
    [BOOST_COOLDOWN_MS] after that frame; a mouth opening before the end of
    the cooldown changes nothing, and one after it starts a boost at its own
    time. *)
Theorem boost_cycle (t0 : R) (current : GameState) (refs : BoostRefs)
    (p : Snake) :
  find isPlayer (snakes current) = Some p ->
  before t0 (speedBoostCooldownEndTime refs) = false ->
  before t0 (speedBoostEndTime refs) = false ->
  let duration :=
    BOOST_BASE_DURATION_MS
    + INR (getSnakeLength p) * BOOST_DURATION_PER_SCORE_MS in
  let on := onMouthOpen t0 current refs in
  speedBoostStartTime on = Some t0 /\
  speedBoostEndTime on = Some (t0 + duration) /\
  BOOST_BASE_DURATION_MS <= duration /\
  (forall t, t < t0 + duration ->
     frameBoost t on = (on, BOOST_SPEED_MULTIPLIER) /\
     forall cur, onMouthOpen t cur on = on) /\
  (forall t, t0 + duration <= t ->
     let off := fst (frameBoost t on) in
     snd (frameBoost t on) = 1 /\
     off = mkBoostRefs None None (Some (t + BOOST_COOLDOWN_MS)) /\
     (forall t' cur, t' < t + BOOST_COOLDOWN_MS ->
        onMouthOpen t' cur off = off) /\
     (forall t' cur q, t + BOOST_COOLDOWN_MS <= t' ->
        find isPlayer (snakes cur) = Some q ->
        speedBoostStartTime (onMouthOpen t' cur off) = Some t')).
Proof.
  intros Hf Hc He duration on.
  assert (Eon : on = mkBoostRefs (Some t0) (Some (t0 + duration))
                                 (speedBoostCooldownEndTime refs)).
  { unfold on, onMouthOpen. now rewrite Hc, He, Hf. }
  assert (Hd : BOOST_BASE_DURATION_MS <= duration).
  { unfold duration, BOOST_DURATION_PER_SCORE_MS.
    pose proof (pos_INR (getSnakeLength p)). lra. }
  rewrite Eon. cbn [speedBoostStartTime speedBoostEndTime].
  split; [reflexivity|]. split; [reflexivity|]. split; [exact Hd|]. split.
  - intros t Ht. split.
    + unfold frameBoost. cbn [speedBoostEndTime].
      destruct (Rle_dec (t0 + duration) t) as [H|_]; [lra|].
      cbn [speedBoostEndTime before].
      now rewrite (proj2 (Rltb_true _ _) Ht).
    + intros cur. unfold onMouthOpen.
      cbn [speedBoostEndTime speedBoostCooldownEndTime before].
      rewrite (proj2 (Rltb_true _ _) Ht).
      now destruct (before t (speedBoostCooldownEndTime refs)).
  - intros t Ht. unfold frameBoost. cbn [speedBoostEndTime].
    destruct (Rle_dec (t0 + duration) t) as [_|H]; [|lra].
    cbn [fst snd speedBoostEndTime before].
    split; [reflexivity|]. split; [reflexivity|]. split.
    + intros t' cur Ht'. unfold onMouthOpen.
      cbn [speedBoostCooldownEndTime before].
      now rewrite (proj2 (Rltb_true _ _) Ht').
    + intros t' cur q Ht' Hq. unfold onMouthOpen.
      cbn [speedBoostCooldownEndTime speedBoostEndTime before].
      rewrite (proj2 (Rltb_false _ _)) by lra. now rewrite Hq.
Qed.

(** The first boost of the player of the boost scenario. *)
Lemma boost_cycle_witness :
  find isPlayer (snakes boostState) = Some boostPlayer
  /\ before 1000 (speedBoostCooldownEndTime idle) = false
  /\ before 1000 (speedBoostEndTime idle) = false
  /\ speedBoostStartTime (onMouthOpen 1000 boostState idle) = Some 1000.
Proof.
  split; [reflexivity|]. split; [reflexivity|]. split; [reflexivity|].
  exact (proj1 (boost_cycle 1000 boostState idle boostPlayer
                  eq_refl eq_refl eq_refl)).
Defined.

Lemma boostStep_ok (refs : BoostRefs) (ev : BoostEvent) :
  boostOk refs -> boostOk (boostStep refs ev).
Proof.
  intros H. destruct ev as [now current|nowMs|now|]; cbn [boostStep].
  - unfold onMouthOpen.
    destruct (before now (speedBoostCooldownEndTime refs)) eqn:Ec; [exact H|].
    destruct (before now (speedBoostEndTime refs)) eqn:Ee; [exact H|].
    destruct (find isPlayer (snakes current)) as [p|]; [|exact H].
    unfold boostOk. cbn [speedBoostEndTime speedBoostStartTime
                         speedBoostCooldownEndTime].
    exists now, (List.length (segments p)). split; [reflexivity|].
    split; [lra|]. intros c E. rewrite E in Ec. now apply before_false in Ec.
  - unfold frameBoost. cbn [fst].
    destruct (speedBoostEndTime refs) as [e|] eqn:E; [|exact H].
    destruct (Rle_dec e nowMs); [reflexivity|exact H].
  - unfold update.
    destruct (speedBoostCooldownEndTime refs) as [c|] eqn:E; [|exact H].
    destruct (Rle_dec c now); [|exact H].
    unfold boostOk in *. cbn [speedBoostEndTime speedBoostStartTime
                              speedBoostCooldownEndTime].
    destruct (speedBoostEndTime refs) as [e|]; [|exact H].
    destruct H as (s & n & Hs & He & _). exists s, n.
    split; [exact Hs|]. split; [exact He|]. discriminate.
  - reflexivity.
Qed.

(** X16: whatever the mouth callback, the frames of the loop, the cooldown
    effect and restarts do to the refs of the boost, in any order and at any
    times, from the refs as they are created: the start and the end of a
    boost are set together, the boost lasts [2000 + 50 * n] milliseconds for
    a number [n] of segments, it started no sooner than the end of the
    cooldown on record, and a frame hands [tick] the multiplier
    [BOOST_SPEED_MULTIPLIER] when the frame leaves a boost on and [1]
    otherwise. *)
Theorem boost_invariant (events : list BoostEvent) (nowMs : R) :
  let refs := boostRun events idle in
  boostOk refs /\
  (snd (frameBoost nowMs refs) = BOOST_SPEED_MULTIPLIER <->
   speedBoostEndTime (fst (frameBoost nowMs refs)) <> None) /\
  (snd (frameBoost nowMs refs) = 1 <->
   speedBoostEndTime (fst (frameBoost nowMs refs)) = None).
Proof.
  cbv zeta.
  assert (H : forall refs, boostOk refs -> boostOk (boostRun events refs)).
  { unfold boostRun. induction events as [|ev tl IH]; intros refs Hr;
      [exact Hr|].
    cbn [fold_left]. apply IH. now apply boostStep_ok. }
  split; [apply H; reflexivity|].
  generalize (boostRun events idle). intros refs.
  unfold frameBoost, BOOST_SPEED_MULTIPLIER. cbn [fst snd].
  destruct (speedBoostEndTime refs) as [e|] eqn:E.
  - destruct (Rle_dec e nowMs) as [Hle|Hgt].
    + cbn [speedBoostEndTime before]. split; split; try easy. lra.
    + rewrite E. cbn [before]. rewrite (proj2 (Rltb_true _ _)) by lra.
      split; split; try easy. lra.
  - rewrite E. cbn [before]. split; split; try easy. lra.
Qed.

(** ** The leaderboard *)

Lemma insertByLength_perm (s : Snake) (l : list Snake) :
  Permutation (insertByLength s l) (s :: l).
Proof.
  induction l as [|y tl IH]; cbn [insertByLength]; [reflexivity|].
  destruct (Nat.leb (getSnakeLength y) (getSnakeLength s)); [reflexivity|].
  rewrite IH. apply perm_swap.
Qed.

Lemma insertByLength_sorted (s : Snake) (l : list Snake) :
  StronglySorted longerFirst l -> StronglySorted longerFirst (insertByLength s l).
Proof.
  induction 1 as [|y tl Hs IH Hy]; cbn [insertByLength].
  - repeat constructor.
  - destruct (Nat.leb (getSnakeLength y) (getSnakeLength s)) eqn:E.
    + apply Nat.leb_le in E. constructor; [now constructor|].
      constructor; [exact E|].
      apply Forall_forall. intros x Hx.
      rewrite Forall_forall in Hy. specialize (Hy x Hx).
      unfold longerFirst in *. lia.
    + apply Nat.leb_gt in E. constructor; [exact IH|].
      apply Forall_forall. intros x Hx.
      apply (Permutation_in _ (insertByLength_perm s tl)) in Hx.
      destruct Hx as [<-|Hx].
      * unfold longerFirst. lia.
      * rewrite Forall_forall in Hy. now apply Hy.
Qed.

Lemma insertByLength_stable (n : nat) (s : Snake) (l : list Snake) :
  ofLength n (insertByLength s l) = ofLength n (s :: l).
Proof.
  unfold ofLength.
  induction l as [|y tl IH]; cbn [insertByLength]; [reflexivity|].
  destruct (Nat.leb (getSnakeLength y) (getSnakeLength s)) eqn:E;
    [reflexivity|].
  apply Nat.leb_gt in E. cbn [filter] in *. rewrite IH.
  destruct (Nat.eqb (getSnakeLength y) n) eqn:Ey;
    destruct (Nat.eqb (getSnakeLength s) n) eqn:Es; try reflexivity.
  apply Nat.eqb_eq in Ey, Es. lia.
Qed.

Lemma sortByLength_spec (l : list Snake) :
  Permutation (sortByLength l) l /\
  StronglySorted longerFirst (sortByLength l) /\
  forall n, ofLength n (sortByLength l) = ofLength n l.
Proof.
  unfold sortByLength.
  induction l as [|s tl (Hp & Hs & Hst)]; cbn [fold_right].
  - repeat split; constructor.
  - split; [|split].
    + rewrite insertByLength_perm. now constructor.
    + now apply insertByLength_sorted.
    + intros n. rewrite insertByLength_stable. unfold ofLength in *.
      cbn [filter]. now rewrite Hst.
Qed.

Lemma StronglySorted_app {A} (R : A -> A -> Prop) (l1 l2 : list A) :
  StronglySorted R (l1 ++ l2) ->
  StronglySorted R l1 /\ forall a b, In a l1 -> In b l2 -> R a b.
Proof.
  induction l1 as [|x tl IH]; cbn [app]; intros H.
  - split; [constructor|easy].
  - inversion H as [|? ? Hs Hx]; subst.
    destruct (IH Hs) as [Hs1 Hc]. split.
    + constructor; [exact Hs1|].
      apply Forall_forall. intros y Hy. rewrite Forall_forall in Hx.
      apply Hx, in_or_app. now left.
    + intros a b [<-|Ha] Hb.
      * rewrite Forall_forall in Hx. apply Hx, in_or_app. now right.
      * now apply Hc.
Qed.

(** X17: the leaderboard holds [min(10, n)] of the [n] organisms of the
    state; with the organisms it leaves out it is a rearrangement of the
    state's organisms; it is in descending order of length, and no organism
    left out is longer than one on the board; organisms of equal length keep
    the order they have in the state. *)
Theorem leaderboard_top (state : GameState) :
  let board := leaderboard state in
  List.length board = Nat.min 10 (List.length (snakes state)) /\
  StronglySorted longerFirst board /\
  exists rest,
    Permutation (board ++ rest) (snakes state) /\
    (forall a b, In a board -> In b rest -> longerFirst a b) /\
    (forall n, ofLength n (board ++ rest) = ofLength n (snakes state)).
Proof.
  cbv zeta. unfold leaderboard.
  destruct (sortByLength_spec (snakes state)) as (Hp & Hs & Hst).
  set (sorted := sortByLength (snakes state)) in *.
  pose proof (firstn_skipn 10 sorted) as E.
  split.
  - rewrite length_firstn. now rewrite (Permutation_length Hp).
  - rewrite <- E in Hs. apply StronglySorted_app in Hs.
    destruct Hs as [Hs Hc]. split; [exact Hs|].
    exists (skipn 10 sorted). rewrite E. now repeat split.
Qed.

(** * Properties of the camera of SlitherView *)

Lemma camera_scale (cw ch : R) (state : GameState) :
  0 < cw -> 0 < ch ->
  0 < width (bounds state) -> 0 < height (bounds state) ->
  0 < scale (camera cw ch state) <= 1.5 /\
  scale (camera cw ch state) * (width (bounds state) * 0.6) <= cw /\
  scale (camera cw ch state) * (height (bounds state) * 0.6) <= ch.
Proof.
  intros Hcw Hch HW HH. cbn [camera scale].
  set (a := cw / (width (bounds state) * 0.6)).
  set (b := ch / (height (bounds state) * 0.6)).
  assert (Ha : 0 < a) by (apply Rdiv_lt_0_compat; lra).
  assert (Hb : 0 < b) by (apply Rdiv_lt_0_compat; lra).
  assert (Ea : a * (width (bounds state) * 0.6) = cw)
    by (unfold a; field; lra).
  assert (Eb : b * (height (bounds state) * 0.6) = ch)
    by (unfold b; field; lra).
  pose proof (Rmin_l (Rmin a b) 1.5) as H1.
  pose proof (Rmin_r (Rmin a b) 1.5) as H2.
  pose proof (Rmin_l a b) as H3. pose proof (Rmin_r a b) as H4.
  assert (Hpos : 0 < Rmin (Rmin a b) 1.5).
  { repeat apply Rmin_glb_lt; lra. }
  split; [lra|]. split; nra.
Qed.

(** X18: on a canvas and an arena of positive size, the scale of the camera
    is positive and at most [1.5], the canvas shows no less than six tenths
    of the arena's width and height, the focus is drawn at the centre of the
    canvas, and the pointer handler inverts the drawing transform: the world
    position reported for the place where a point is drawn is that point,
    and the reported position is drawn under the pointer. *)
Theorem camera_round_trip (cw ch : R) (state : GameState) :
  0 < cw -> 0 < ch ->
  0 < width (bounds state) -> 0 < height (bounds state) ->
  let cam := camera cw ch state in
  0 < scale cam <= 1.5 /\
  width (bounds state) * 0.6 <= cw / scale cam /\
  height (bounds state) * 0.6 <= ch / scale cam /\
  toCanvas cam (focus state) = mkPoint (cw / 2) (ch / 2) /\
  (forall p, handleMove cam (px (toCanvas cam p)) (py (toCanvas cam p)) = p) /\
  (forall x y, toCanvas cam (handleMove cam x y) = mkPoint x y).
Proof.
  intros Hcw Hch HW HH cam.
  destruct (camera_scale cw ch state Hcw Hch HW HH) as (Hs & Hw & Hh).
  fold cam in Hs, Hw, Hh.
  assert (Hne : scale cam <> 0) by lra.
  split; [exact Hs|]. split; [|split; [|split; [|split]]].
  - apply (Rmult_le_reg_l (scale cam)); [lra|].
    replace (scale cam * (cw / scale cam)) with cw by (field; exact Hne).
    exact Hw.
  - apply (Rmult_le_reg_l (scale cam)); [lra|].
    replace (scale cam * (ch / scale cam)) with ch by (field; exact Hne).
    exact Hh.
  - unfold toCanvas. unfold cam at 1 3. cbn [camera camX camY].
    fold (scale cam). unfold cam at 1 2. f_equal; cbn [camera scale]; lra.
  - intros [x y]. unfold handleMove, toCanvas. cbn [px py].
    f_equal; field; exact Hne.
  - intros x y. unfold handleMove, toCanvas. cbn [px py].
    f_equal; field; exact Hne.
Qed.

(** The two organisms facing each other, on a canvas of 800 by 600. *)
Lemma camera_round_trip_witness :
  0 < 800 /\ 0 < 600
  /\ 0 < width (bounds duelState) /\ 0 < height (bounds duelState)
  /\ toCanvas (camera 800 600 duelState) (focus duelState)
     = mkPoint (800 / 2) (600 / 2).
Proof.
  assert (H1 : 0 < 800) by lra. assert (H2 : 0 < 600) by lra.
  assert (H3 : 0 < width (bounds duelState)) by (cbn; lra).
  assert (H4 : 0 < height (bounds duelState)) by (cbn; lra).
  split; [exact H1|]. split; [exact H2|]. split; [exact H3|].
  split; [exact H4|].
  exact (proj1 (proj2 (proj2 (proj2
           (camera_round_trip 800 600 duelState H1 H2 H3 H4))))).
Defined.

(** ** The organism the camera follows *)

Lemma longest_from (l : list Snake) : forall best,
  let r :=
    fold_left
      (fun best s =>
         if Nat.ltb (lengthOr0 best) (List.length (segments s)) then Some s
         else best)
      l best in
  (r = best /\
   forall s, In s l -> (List.length (segments s) <= lengthOr0 best)%nat) \/
  (exists pre x post,
     l = pre ++ x :: post /\ r = Some x /\
     (lengthOr0 best < List.length (segments x))%nat /\
     (forall s, In s pre ->
        (List.length (segments s) < List.length (segments x))%nat) /\
     (forall s, In s post ->
        (List.length (segments s) <= List.length (segments x))%nat)).
Proof.
  induction l as [|s tl IH]; intros best; cbv zeta; cbn [fold_left].
  - left. split; [reflexivity|easy].
  - destruct (Nat.ltb (lengthOr0 best) (List.length (segments s))) eqn:E.
    + apply Nat.ltb_lt in E. right.
      destruct (IH (Some s)) as [[Hr Hall]|(pre & x & post & El & Hr & Hlt & Hpre & Hpost)].
      * exists [], s, tl. split; [reflexivity|]. split; [exact Hr|].
        split; [exact E|]. split; [easy|exact Hall].
      * exists (s :: pre), x, post. split; [now rewrite El|].
        split; [exact Hr|]. cbn [lengthOr0] in Hlt. split; [lia|].
        split; [|exact Hpost].
        intros y [<-|Hy]; [exact Hlt|now apply Hpre].
    + apply Nat.ltb_ge in E.
      destruct (IH best) as [[Hr Hall]|(pre & x & post & El & Hr & Hlt & Hpre & Hpost)].
      * left. split; [exact Hr|]. intros y [<-|Hy]; [exact E|now apply Hall].
      * right. exists (s :: pre), x, post. split; [now rewrite El|].
        split; [exact Hr|]. split; [exact Hlt|]. split; [|exact Hpost].
        intros y [<-|Hy]; [lia|now apply Hpre].
Qed.

Lemma longest_first (l : list Snake) :
  Forall hasHead l -> l <> [] ->
  exists pre x post,
    l = pre ++ x :: post /\ longest l = Some x /\
    (forall s, In s pre ->
       (List.length (segments s) < List.length (segments x))%nat) /\
    (forall s, In s post ->
       (List.length (segments s) <= List.length (segments x))%nat).
Proof.
  intros Hh Hne.
  destruct (longest_from l None) as [[_ Hall]|(pre & x & post & El & Hr & _ & Hpre & Hpost)].
  - destruct l as [|s tl]; [easy|].
    inversion Hh as [|? ? Hs _]; subst.
    specialize (Hall s (or_introl eq_refl)). cbn [lengthOr0] in Hall.
    unfold hasHead in Hs. destruct (segments s); [easy|cbn in Hall; lia].
  - now exists pre, x, post.
Qed.

Lemma ofLength_none (n : nat) (l : list Snake) :
  (forall s, In s l -> (getSnakeLength s < n)%nat) -> ofLength n l = [].
Proof.
  intros H. unfold ofLength. induction l as [|s tl IH]; [reflexivity|].
  cbn [filter]. assert (Hs : (getSnakeLength s < n)%nat) by (apply H; now left).
  destruct (Nat.eqb (getSnakeLength s) n) eqn:E.
  - apply Nat.eqb_eq in E. lia.
  - apply IH. intros y Hy. apply H. now right.
Qed.

(** X19: when every organism has a head, the camera's focus is the head of
    the player if the state has one; otherwise, if the state has organisms,
    the head of the longest, which is the first of the leaderboard and is
    no shorter than any organism; otherwise the centre of the arena. *)
Theorem camera_follows (state : GameState) :
  Forall hasHead (snakes state) ->
  match find isPlayer (snakes state) with
  | Some p => nth_error (segments p) 0 = Some (focus state)
  | None =>
      match snakes state with
      | [] => focus state = mkPoint (width (bounds state) / 2)
                                    (height (bounds state) / 2)
      | _ :: _ =>
          exists l,
            longest (snakes state) = Some l /\
            hd_error (leaderboard state) = Some l /\
            nth_error (segments l) 0 = Some (focus state) /\
            forall s, In s (snakes state) ->
                      (getSnakeLength s <= getSnakeLength l)%nat
      end
  end.
Proof.
  intros Hh. unfold focus. cbv zeta.
  destruct (find isPlayer (snakes state)) as [p|] eqn:Ef.
  - apply find_some in Ef. destruct Ef as [Hp _].
    rewrite Forall_forall in Hh. specialize (Hh p Hp). unfold hasHead in Hh.
    destruct (segments p) as [|h rest]; [easy|reflexivity].
  - destruct (snakes state) as [|s0 tl0] eqn:El; [reflexivity|].
    rewrite <- El in *.
    assert (Hne : snakes state <> []) by (rewrite El; discriminate).
    destruct (longest_first _ Hh Hne) as (pre & x & post & E & Hl & Hpre & Hpost).
    assert (Hx : In x (snakes state)).
    { rewrite E. apply in_or_app. right. now left. }
    assert (Hmax : forall s, In s (snakes state) ->
                     (getSnakeLength s <= getSnakeLength x)%nat).
    { intros s Hs. rewrite E in Hs. apply in_app_or in Hs.
      unfold getSnakeLength.
      destruct Hs as [Hs|[<-|Hs]]; [apply Hpre in Hs; lia|lia|now apply Hpost]. }
    exists x. rewrite Hl. split; [reflexivity|]. split; [|split; [|exact Hmax]].
    + unfold leaderboard.
      destruct (sortByLength_spec (snakes state)) as (Hp & Hs & Hst).
      destruct (sortByLength (snakes state)) as [|y tl] eqn:Es.
      * apply Permutation_nil in Hp. now rewrite Hp in Hne.
      * cbn [firstn hd_error]. f_equal.
        inversion Hs as [|? ? _ Hy]; subst. rewrite Forall_forall in Hy.
        assert (Hyin : In y (snakes state)).
        { apply (Permutation_in _ Hp). now left. }
        assert (Hxy : (getSnakeLength x <= getSnakeLength y)%nat).
        { apply (Permutation_in _ (Permutation_sym Hp)) in Hx.
          destruct Hx as [->|Hx]; [lia|]. now apply Hy. }
        pose proof (Hmax y Hyin) as Hyx.
        specialize (Hst (getSnakeLength x)).
        unfold ofLength in Hst at 1. cbn [filter] in Hst.
        rewrite (proj2 (Nat.eqb_eq _ _)) in Hst by lia.
        rewrite E in Hst. unfold ofLength in Hst.
        rewrite filter_app in Hst. cbn [filter] in Hst.
        rewrite Nat.eqb_refl in Hst.
        fold (ofLength (getSnakeLength x) pre) in Hst.
        rewrite ofLength_none in Hst by (intros s Hs'; now apply Hpre).
        cbn [app] in Hst. now injection Hst.
    + rewrite Forall_forall in Hh. specialize (Hh x Hx). unfold hasHead in Hh.
      destruct (segments x) as [|h rest]; [easy|reflexivity].
Qed.

(** The camera on the two organisms facing each other follows the player. *)
Lemma camera_follows_witness :
  Forall hasHead (snakes duelState)
  /\ nth_error (segments duelA) 0 = Some (focus duelState).
Proof.
  split; [apply duelState_heads|].
  exact (camera_follows duelState duelState_heads).
Defined.

(** * Properties of the helpers of the head tracker *)

Ltac minmax :=
  unfold Rmax, Rmin, Rabs in *;
  repeat match goal with
         | |- context [Rle_dec ?a ?b] => destruct (Rle_dec a b)
         | |- context [Rcase_abs ?a] => destruct (Rcase_abs a)
         | H : context [Rle_dec ?a ?b] |- _ => destruct (Rle_dec a b)
         | H : context [Rcase_abs ?a] |- _ => destruct (Rcase_abs a)
         end;
  try lra.

Lemma getRawNoseDirection_cases (nose : Point) (thr : R) :
  let dx := px nose - NOSE_CENTER in
  let dy := py nose - NOSE_CENTER in
  match getRawNoseDirection nose thr with
  | None => Rabs dx < thr /\ Rabs dy < thr
  | Some d =>
      ~ (Rabs dx < thr /\ Rabs dy < thr) /\
      match d with
      | RIGHT => Rabs dy < Rabs dx /\ 0 < dx
      | LEFT => Rabs dy < Rabs dx /\ dx < 0
      | DOWN => Rabs dx <= Rabs dy /\ 0 < dy
      | UP => Rabs dx <= Rabs dy /\ dy <= 0
      end
  end.
Proof.
  cbv zeta. unfold getRawNoseDirection.
  set (dx := px nose - NOSE_CENTER). set (dy := py nose - NOSE_CENTER).
  destruct (Rltb (Rabs dx) thr && Rltb (Rabs dy) thr) eqn:E.
  - apply andb_true_iff in E. now rewrite !Rltb_true in E.
  - assert (Hz : ~ (Rabs dx < thr /\ Rabs dy < thr)).
    { intros [H1 H2]. apply Rltb_true in H1, H2. now rewrite H1, H2 in E. }
    destruct (Rgt_dec (Rabs dx) (Rabs dy)) as [Hg|Hg].
    + destruct (Rgt_dec dx 0) as [Hd|Hd]; (split; [exact Hz|]); split;
        try lra.
      destruct (Req_dec dx 0) as [E0|E0]; [|lra].
      rewrite E0, Rabs_R0 in Hg. pose proof (Rabs_pos dy). lra.
    + destruct (Rgt_dec dy 0) as [Hd|Hd]; (split; [exact Hz|]); split; lra.
Qed.

(** X20: the raw direction of the nose is none exactly in the dead zone,
    where both offsets from the centre are below the threshold; otherwise
    it is the direction of [HEAD_DIRECTIONS] along which the offset is
    largest, and the offset along it is the larger of the two absolute
    offsets; the mirrored direction is the raw direction of the nose
    mirrored about the centre line; and [noseDirection] of the grid game is
    the raw direction at the threshold [NOSE_THRESHOLD]. *)
Theorem head_direction (nose : Point) (thr : R) :
  let dx := px nose - NOSE_CENTER in
  let dy := py nose - NOSE_CENTER in
  (getRawNoseDirection nose thr = None <-> Rabs dx < thr /\ Rabs dy < thr) /\
  (forall d, getRawNoseDirection nose thr = Some d ->
     px (HEAD_DIRECTIONS d) * dx + py (HEAD_DIRECTIONS d) * dy
     = Rmax (Rabs dx) (Rabs dy)) /\
  getMirroredHeadDirection nose thr
  = getRawNoseDirection (mkPoint (1 - px nose) (py nose)) thr /\
  SnakeApp.noseDirection nose = getRawNoseDirection nose NOSE_THRESHOLD.
Proof.
  cbv zeta. pose proof (getRawNoseDirection_cases nose thr) as H.
  cbv zeta in H. split; [|split; [|split; [|reflexivity]]].
  - destruct (getRawNoseDirection nose thr) as [d|].
    + split; [discriminate|]. intros Hz. now destruct H as [H _].
    + split; [now intros _|reflexivity].
  - intros d E. rewrite E in H. destruct H as [_ H].
    destruct d; cbn [HEAD_DIRECTIONS px py]; destruct H as [H1 H2]; minmax.
  - unfold getMirroredHeadDirection, getRawNoseDirection. cbn [px py].
    replace (1 - px nose - NOSE_CENTER) with (- (px nose - NOSE_CENTER))
      by (unfold NOSE_CENTER; lra).
    rewrite Rabs_Ropp.
    set (dx := px nose - NOSE_CENTER). set (dy := py nose - NOSE_CENTER).
    destruct (Rltb (Rabs dx) thr && Rltb (Rabs dy) thr); [reflexivity|].
    destruct (Rgt_dec (Rabs dx) (Rabs dy)) as [Hg|Hg].
    + destruct (Rgt_dec dx 0) as [Hd|Hd], (Rgt_dec (- dx) 0) as [Hd'|Hd'];
        try reflexivity; try lra.
      assert (dx = 0) as E0 by lra.
      rewrite E0, Rabs_R0 in Hg. pose proof (Rabs_pos dy). lra.
    + now destruct (Rgt_dec dy 0).
Qed.

(** X21: the offset of the compass dot is within [NOSE_OFFSET_CLAMP] on both
    axes; with a positive threshold, when the mirrored direction is [d],
    the dot is displaced along [d] by the larger absolute offset of the
    nose, scaled by [NOSE_OFFSET_SCALE] and capped at the clamp, which is
    more than nothing. *)
Theorem compass_offset (nose : Point) (thr : R) :
  0 < thr ->
  let dx := px nose - NOSE_CENTER in
  let dy := py nose - NOSE_CENTER in
  let o := noseOffsetFromNormalized nose in
  - NOSE_OFFSET_CLAMP <= px o <= NOSE_OFFSET_CLAMP /\
  - NOSE_OFFSET_CLAMP <= py o <= NOSE_OFFSET_CLAMP /\
  forall d, getMirroredHeadDirection nose thr = Some d ->
    px (HEAD_DIRECTIONS d) * px o + py (HEAD_DIRECTIONS d) * py o
    = Rmin NOSE_OFFSET_CLAMP (NOSE_OFFSET_SCALE * Rmax (Rabs dx) (Rabs dy)) /\
    0 < px (HEAD_DIRECTIONS d) * px o + py (HEAD_DIRECTIONS d) * py o.
Proof.
  intros Hthr. cbv zeta.
  pose proof (getRawNoseDirection_cases nose thr) as H. cbv zeta in H.
  unfold noseOffsetFromNormalized, NOSE_OFFSET_CLAMP, NOSE_OFFSET_SCALE in *.
  cbn [px py].
  set (dx := px nose - NOSE_CENTER) in *.
  set (dy := py nose - NOSE_CENTER) in *.
  split; [minmax|]. split; [minmax|].
  intros d E. unfold getMirroredHeadDirection in E.
  destruct (getRawNoseDirection nose thr) as [raw|]; [|discriminate].
  destruct H as [Hz H].
  assert (Hbig : thr <= Rmax (Rabs dx) (Rabs dy)).
  { destruct (Rlt_dec (Rmax (Rabs dx) (Rabs dy)) thr) as [Hlt|]; [|lra].
    elim Hz. pose proof (Rmax_l (Rabs dx) (Rabs dy)).
    pose proof (Rmax_r (Rabs dx) (Rabs dy)). lra. }
  destruct raw; injection E as <-; cbn [HEAD_DIRECTIONS px py];
    destruct H as [H1 H2]; split; minmax.
Qed.

(** A nose to the left of the centre of the camera picture. *)
Lemma compass_offset_witness :
  0 < NOSE_THRESHOLD
  /\ - NOSE_OFFSET_CLAMP <= px (noseOffsetFromNormalized (mkPoint 0.3 0.5))
     <= NOSE_OFFSET_CLAMP.
Proof.
  assert (H : 0 < NOSE_THRESHOLD) by (unfold NOSE_THRESHOLD; lra).
  split; [exact H|].
  exact (proj1 (compass_offset (mkPoint 0.3 0.5) NOSE_THRESHOLD H)).
Defined.

(** X22: the angle of the nose is none exactly when the nose is closer to
    the centre than the threshold; otherwise it is an angle of
    [(-PI, PI]] whose direction is that of the offset of the nose from the
    centre, with the horizontal offset negated when the camera is
    mirrored. *)
Theorem nose_angle (nose : Point) (mirror : bool) (thr : R) :
  let dx := px nose - NOSE_CENTER in
  let dy := py nose - NOSE_CENTER in
  match getNoseAngleRadians nose mirror thr with
  | None => hypot dx dy < thr
  | Some a =>
      thr <= hypot dx dy /\
      - PI < a <= PI /\
      hypot dx dy * cos a = (if mirror then - dx else dx) /\
      hypot dx dy * sin a = dy
  end.
Proof.
  cbv zeta. unfold getNoseAngleRadians.
  set (dx := px nose - NOSE_CENTER). set (dy := py nose - NOSE_CENTER).
  destruct (Rlt_dec (hypot dx dy) thr) as [Hlt|Hge]; [exact Hlt|].
  set (x := if mirror then - dx else dx).
  pose proof (atan2_range dy x) as Hr.
  rewrite normalizeAngle_id by lra.
  split; [lra|]. split; [exact Hr|].
  assert (Eh : hypot dx dy = hypot x dy).
  { unfold x. destruct mirror; [now rewrite hypot_opp_l|reflexivity]. }
  rewrite Eh. apply atan2_polar.
Qed.

(** ** The median of the calibration samples *)

Lemma insertAscending_perm (a : R) (l : list R) :
  Permutation (insertAscending a l) (a :: l).
Proof.
  induction l as [|y tl IH]; cbn [insertAscending]; [reflexivity|].
  destruct (Rle_dec a y); [reflexivity|]. rewrite IH. apply perm_swap.
Qed.

Lemma insertAscending_sorted (a : R) (l : list R) :
  StronglySorted Rle l -> StronglySorted Rle (insertAscending a l).
Proof.
  induction 1 as [|y tl Hs IH Hy]; cbn [insertAscending].
  - repeat constructor.
  - destruct (Rle_dec a y) as [Hle|Hgt].
    + constructor; [now constructor|]. constructor; [exact Hle|].
      apply Forall_forall. intros x Hx. rewrite Forall_forall in Hy.
      specialize (Hy x Hx). lra.
    + constructor; [exact IH|]. apply Forall_forall. intros x Hx.
      apply (Permutation_in _ (insertAscending_perm a tl)) in Hx.
      destruct Hx as [<-|Hx]; [lra|].
      rewrite Forall_forall in Hy. now apply Hy.
Qed.

Lemma sortAscending_spec (l : list R) :
  Permutation (sortAscending l) l /\ StronglySorted Rle (sortAscending l).
Proof.
  unfold sortAscending. induction l as [|a tl [Hp Hs]]; cbn [fold_right].
  - split; constructor.
  - split; [|now apply insertAscending_sorted].
    rewrite insertAscending_perm. now constructor.
Qed.

(** The ascending arrangement of a list of numbers is unique. *)
Lemma sorted_unique : forall l1 l2 : list R,
  StronglySorted Rle l1 -> StronglySorted Rle l2 -> Permutation l1 l2 ->
  l1 = l2.
Proof.
  induction l1 as [|a t1 IH]; intros l2 H1 H2 Hp.
  - apply Permutation_nil in Hp. now subst.
  - destruct l2 as [|b t2].
    + apply Permutation_sym, Permutation_nil in Hp. discriminate.
    + apply StronglySorted_inv in H1, H2.
      destruct H1 as [H1 Ha], H2 as [H2 Hb].
      rewrite Forall_forall in Ha, Hb.
      assert (Hab : a = b).
      { assert (Hb_in : In b (a :: t1)).
        { apply (Permutation_in _ (Permutation_sym Hp)). now left. }
        assert (Ha_in : In a (b :: t2)).
        { apply (Permutation_in _ Hp). now left. }
        destruct Hb_in as [E|Hb_in]; [exact E|].
        destruct Ha_in as [E|Ha_in]; [now symmetry|].
        apply Ha in Hb_in. apply Hb in Ha_in. lra. }
      subst b. f_equal. apply IH; [exact H1|exact H2|].
      now apply Permutation_cons_inv in Hp.
Qed.

Lemma sortAscending_perm (l l' : list R) :
  Permutation l l' -> sortAscending l = sortAscending l'.
Proof.
  intros Hp.
  destruct (sortAscending_spec l) as [P1 S1].
  destruct (sortAscending_spec l') as [P2 S2].
  apply sorted_unique; [exact S1|exact S2|].
  now rewrite P1, Hp, P2.
Qed.

Lemma sorted_nth : forall l : list R,
  StronglySorted Rle l ->
  forall i j, (i <= j < List.length l)%nat -> nth i l 0 <= nth j l 0.
Proof.
  induction 1 as [|a tl Hs IH Ha]; intros i j Hij; cbn [List.length] in Hij;
    [lia|].
  destruct i as [|i], j as [|j]; cbn [nth]; try lra; try lia.
  - rewrite Forall_forall in Ha. apply Ha, nth_In. lia.
  - apply IH. lia.
Qed.

Lemma filter_length_perm {A} (f : A -> bool) (l l' : list A) :
  Permutation l l' -> List.length (filter f l) = List.length (filter f l').
Proof.
  induction 1 as [|x l l' _ IH|x y l|l l' l'' _ IH1 _ IH2]; cbn [filter].
  - reflexivity.
  - destruct (f x); cbn [List.length]; now rewrite IH.
  - destruct (f x), (f y); reflexivity.
  - now rewrite IH1.
Qed.

Lemma filter_prefix (f : R -> bool) : forall (l : list R) (k : nat),
  (k <= List.length l)%nat ->
  (forall i, (i < k)%nat -> f (nth i l 0) = true) ->
  (k <= List.length (filter f l))%nat.
Proof.
  induction l as [|x tl IH]; intros k Hk H; cbn [List.length] in Hk.
  - lia.
  - destruct k as [|k]; [lia|]. cbn [filter].
    pose proof (H 0%nat ltac:(lia)) as H0. cbn [nth] in H0.
    rewrite H0. cbn [List.length].
    apply le_n_S, IH; [lia|]. intros i Hi. apply (H (S i)). lia.
Qed.

Lemma filter_suffix (f : R -> bool) : forall (l : list R) (k : nat),
  (forall i, (k <= i < List.length l)%nat -> f (nth i l 0) = true) ->
  (List.length l - k <= List.length (filter f l))%nat.
Proof.
  induction l as [|x tl IH]; intros k H; [cbn; lia|].
  destruct k as [|k].
  - cbn [filter].
    pose proof (H 0%nat ltac:(cbn [List.length]; lia)) as H0.
    cbn [nth] in H0. rewrite H0. cbn [List.length].
    specialize (IH 0%nat). rewrite Nat.sub_0_r in *.
    apply le_n_S, IH. intros i Hi. apply (H (S i)). cbn [List.length]. lia.
  - cbn [List.length]. rewrite Nat.sub_succ.
    transitivity (List.length (filter f tl)).
    + apply IH. intros i Hi. apply (H (S i)). cbn [List.length]. lia.
    + cbn [filter]. destruct (f x); cbn [List.length]; lia.
Qed.

(** What the median is, on the ascending arrangement. *)
Lemma median_sorted (values : list R) :
  values <> [] ->
  let sorted := sortAscending values in
  let n := List.length values in
  let mid := (n / 2)%nat in
  List.length sorted = n /\ (0 < n)%nat /\
  ((n mod 2 = 1)%nat /\ n = (2 * mid + 1)%nat /\
   median values = nth mid sorted 0
   \/
   (n mod 2 = 0)%nat /\ n = (2 * mid)%nat /\ (1 <= mid)%nat /\
   median values = (nth (mid - 1) sorted 0 + nth mid sorted 0) / 2).
Proof.
  intros Hne. cbv zeta.
  destruct (sortAscending_spec values) as [Hp _].
  pose proof (Permutation_length Hp) as Hlen.
  assert (Hn : (0 < List.length values)%nat).
  { destruct values; [easy|cbn; lia]. }
  split; [exact Hlen|]. split; [exact Hn|].
  pose proof (Nat.div_mod_eq (List.length values) 2) as Hdm.
  pose proof (Nat.mod_upper_bound (List.length values) 2) as Hub.
  unfold median. destruct values as [|v tl]; [easy|].
  rewrite Hlen. cbv zeta.
  destruct (Nat.eqb (List.length (v :: tl) mod 2) 0) eqn:E.
  - apply Nat.eqb_eq in E. right. repeat split; try lia.
  - apply Nat.eqb_neq in E. left. repeat split; lia.
Qed.

Lemma median_between (values : list R) :
  values <> [] ->
  exists lo hi, In lo values /\ In hi values /\ lo <= median values <= hi.
Proof.
  intros Hne. cbv zeta.
  destruct (sortAscending_spec values) as [Hp Hs].
  destruct (median_sorted values Hne) as (Hlen & Hn & Hm). cbv zeta in *.
  set (sorted := sortAscending values) in *.
  set (n := List.length values) in *.
  set (mid := (n / 2)%nat) in *.
  assert (Hin : forall i, (i < n)%nat -> In (nth i sorted 0) values).
  { intros i Hi. apply (Permutation_in _ Hp), nth_In. lia. }
  assert (Hmono : forall i j, (i <= j < n)%nat ->
                              nth i sorted 0 <= nth j sorted 0).
  { intros i j Hij. apply sorted_nth; [exact Hs|lia]. }
  destruct Hm as [(_ & En & Em)|(_ & En & Hmid & Em)]; rewrite Em.
  - exists (nth mid sorted 0), (nth mid sorted 0).
    split; [apply Hin; lia|]. split; [apply Hin; lia|lra].
  - exists (nth (mid - 1) sorted 0), (nth mid sorted 0).
    split; [apply Hin; lia|]. split; [apply Hin; lia|].
    pose proof (Hmono (mid - 1)%nat mid ltac:(lia)). lra.
Qed.

Lemma median_perm (values values' : list R) :
  Permutation values values' -> median values' = median values.
Proof.
  intros Hperm. unfold median. rewrite <- (sortAscending_perm _ _ Hperm).
  destruct values as [|v tl].
  - apply Permutation_nil in Hperm. now subst.
  - destruct values' as [|v' tl']; [|reflexivity].
    apply Permutation_sym, Permutation_nil in Hperm. discriminate.
Qed.

(** X23: the median of a non-empty list of numbers has at least half of
    them at or below it and at least half of them at or above it; it lies
    between two of them, and is one of them when their number is odd; it
    does not depend on their order. *)
Theorem median_spec (values : list R) :
  values <> [] ->
  let m := median values in
  (List.length values <= 2 * List.length (atMost m values))%nat /\
  (List.length values <= 2 * List.length (atLeast m values))%nat /\
  (exists lo hi, In lo values /\ In hi values /\ lo <= m <= hi) /\
  ((List.length values mod 2 = 1)%nat -> In m values) /\
  (forall values', Permutation values values' -> median values' = m).
Proof.
  intros Hne. cbv zeta.
  destruct (sortAscending_spec values) as [Hp Hs].
  destruct (median_sorted values Hne) as (Hlen & Hn & Hm). cbv zeta in *.
  set (sorted := sortAscending values) in *.
  set (n := List.length values) in *.
  set (mid := (n / 2)%nat) in *.
  assert (Hin : forall i, (i < n)%nat -> In (nth i sorted 0) values).
  { intros i Hi. apply (Permutation_in _ Hp), nth_In. lia. }
  assert (Hmono : forall i j, (i <= j < n)%nat ->
                              nth i sorted 0 <= nth j sorted 0).
  { intros i j Hij. apply sorted_nth; [exact Hs|lia]. }
  unfold atMost, atLeast.
  rewrite <- (filter_length_perm (fun v => Rleb v (median values)) _ _ Hp).
  rewrite <- (filter_length_perm (fun v => Rleb (median values) v) _ _ Hp).
  split; [|split; [|split; [|split]]].
  - assert (H : forall k, (k <= n)%nat ->
               (forall i, (i < k)%nat -> nth i sorted 0 <= median values) ->
               (k <= List.length
                      (filter (fun v => Rleb v (median values)) sorted))%nat).
    { intros k Hk Hle. apply filter_prefix; [lia|].
      intros i Hi. now apply Rleb_true, Hle. }
    destruct Hm as [(_ & En & Em)|(_ & En & Hmid & Em)].
    + specialize (H (mid + 1)%nat ltac:(lia)).
      assert (Hle : forall i, (i < mid + 1)%nat ->
                              nth i sorted 0 <= median values).
      { intros i Hi. rewrite Em. apply Hmono. lia. }
      specialize (H Hle). lia.
    + specialize (H mid ltac:(lia)).
      assert (Hle : forall i, (i < mid)%nat ->
                              nth i sorted 0 <= median values).
      { intros i Hi. rewrite Em.
        pose proof (Hmono i (mid - 1)%nat ltac:(lia)).
        pose proof (Hmono (mid - 1)%nat mid ltac:(lia)). lra. }
      specialize (H Hle). lia.
  - assert (H : forall k,
               (forall i, (k <= i < n)%nat -> median values <= nth i sorted 0) ->
               (n - k <= List.length
                          (filter (fun v => Rleb (median values) v) sorted))%nat).
    { intros k Hge. rewrite <- Hlen. apply filter_suffix.
      intros i Hi. apply Rleb_true, Hge. lia. }
    destruct Hm as [(_ & En & Em)|(_ & En & Hmid & Em)].
    + assert (Hge : forall i, (mid <= i < n)%nat ->
                              median values <= nth i sorted 0).
      { intros i Hi. rewrite Em. apply Hmono. lia. }
      specialize (H mid Hge). lia.
    + assert (Hge : forall i, (mid <= i < n)%nat ->
                              median values <= nth i sorted 0).
      { intros i Hi. rewrite Em.
        pose proof (Hmono mid i ltac:(lia)).
        pose proof (Hmono (mid - 1)%nat mid ltac:(lia)). lra. }
      specialize (H mid Hge). lia.
  - now apply median_between.
  - intros Hodd. destruct Hm as [(_ & En & Em)|(Heven & _)]; [|lia].
    rewrite Em. apply Hin. lia.
  - intros values' Hperm. now apply median_perm.
Qed.

(** Three samples, out of order. *)
Lemma median_spec_witness :
  samples3 <> []
  /\ (List.length samples3
      <= 2 * List.length (atMost (median samples3) samples3))%nat.
Proof.
  assert (H : samples3 <> []) by discriminate.
  split; [exact H|]. exact (proj1 (median_spec samples3 H)).
Defined.

(** X24: the median point of a non-empty list of samples lies in every box
    that holds all the samples, is the sample when they are all the same,
    and does not depend on their order. *)
Theorem medianPoint_spec (points : list Point) :
  points <> [] ->
  (forall lo hi, (forall p, In p points -> inBox lo hi p) ->
                 inBox lo hi (medianPoint points)) /\
  (forall q, (forall p, In p points -> p = q) -> medianPoint points = q) /\
  (forall points', Permutation points points' ->
                   medianPoint points' = medianPoint points).
Proof.
  intros Hne.
  assert (Hx : map px points <> []) by (now destruct points).
  assert (Hy : map py points <> []) by (now destruct points).
  destruct (median_between _ Hx) as (xl & xh & Hxl & Hxh & Hxm).
  destruct (median_between _ Hy) as (yl & yh & Hyl & Hyh & Hym).
  apply in_map_iff in Hxl, Hxh, Hyl, Hyh.
  destruct Hxl as (p1 & <- & Hp1), Hxh as (p2 & <- & Hp2).
  destruct Hyl as (p3 & <- & Hp3), Hyh as (p4 & <- & Hp4).
  assert (E : medianPoint points
              = mkPoint (median (map px points)) (median (map py points))).
  { now destruct points. }
  split; [|split].
  - intros lo hi Hbox. rewrite E. unfold inBox in *. cbn [px py].
    pose proof (Hbox _ Hp1). pose proof (Hbox _ Hp2).
    pose proof (Hbox _ Hp3). pose proof (Hbox _ Hp4). lra.
  - intros q Hq. rewrite E.
    rewrite (Hq _ Hp1), (Hq _ Hp2) in Hxm.
    rewrite (Hq _ Hp3), (Hq _ Hp4) in Hym.
    destruct q as [qx qy]. cbn [px py] in *. f_equal; lra.
  - intros points' Hperm.
    assert (Hne' : points' <> []).
    { intros ->. apply Permutation_sym, Permutation_nil in Hperm.
      now apply Hne. }
    rewrite E.
    rewrite <- (median_perm (map px points) (map px points'))
      by now apply Permutation_map.
    rewrite <- (median_perm (map py points) (map py points'))
      by now apply Permutation_map.
    now destruct points'.
Qed.

(** Three samples of the nose, in the unit square. *)
Lemma medianPoint_spec_witness :
  [mkPoint 0.4 0.5; mkPoint 0.5 0.6; mkPoint 0.6 0.4] <> []
  /\ inBox (mkPoint 0 0) (mkPoint 1 1)
           (medianPoint [mkPoint 0.4 0.5; mkPoint 0.5 0.6; mkPoint 0.6 0.4]).
Proof.
  assert (H : [mkPoint 0.4 0.5; mkPoint 0.5 0.6; mkPoint 0.6 0.4] <> [])
    by discriminate.
  assert (Hbox : forall p,
            In p [mkPoint 0.4 0.5; mkPoint 0.5 0.6; mkPoint 0.6 0.4] ->
            inBox (mkPoint 0 0) (mkPoint 1 1) p).
  { intros p [<-|[<-|[<-|[]]]]; unfold inBox; cbn [px py]; lra. }
  split; [exact H|].
  exact (proj1 (medianPoint_spec _ H) (mkPoint 0 0) (mkPoint 1 1) Hbox).
Defined.

(** * Properties of the overlay of the camera picture *)

(** X25: the arrow is between [ARROW_LENGTH_MIN] and [ARROW_LENGTH_MAX]
    long, shortest up to the threshold distance, longest from
    [DISTANCE_FOR_MAX_ARROW] on, and never shorter for a nose further out;
    an angle given in the options is the one drawn; without one, the arrow
    of a direction ends at its length along that direction of
    [HEAD_DIRECTIONS] from the nose. *)
Theorem arrow_drawn (distance : R) :
  ARROW_LENGTH_MIN <= getArrowLength distance <= ARROW_LENGTH_MAX /\
  (distance <= NOSE_THRESHOLD -> getArrowLength distance = ARROW_LENGTH_MIN) /\
  (DISTANCE_FOR_MAX_ARROW <= distance ->
   getArrowLength distance = ARROW_LENGTH_MAX) /\
  (forall further, distance <= further ->
                   getArrowLength distance <= getArrowLength further) /\
  (forall a direction, drawAngle (Some a) direction = Some a) /\
  (forall d, exists a,
     drawAngle None (Some d) = Some a /\
     forall c len,
       arrowEnd c len a
       = mkPoint (px c + len * px (HEAD_DIRECTIONS d))
                 (py c + len * py (HEAD_DIRECTIONS d))).
Proof.
  unfold getArrowLength, ARROW_LENGTH_MIN, ARROW_LENGTH_MAX.
  replace (DISTANCE_FOR_MAX_ARROW - NOSE_THRESHOLD) with 0.12
    by (unfold DISTANCE_FOR_MAX_ARROW, NOSE_THRESHOLD; lra).
  unfold DISTANCE_FOR_MAX_ARROW, NOSE_THRESHOLD.
  split; [minmax|]. split; [intros H; minmax|]. split; [intros H; minmax|].
  split; [intros further H; minmax|]. split; [reflexivity|].
  intros d. destruct d; cbn [drawAngle HEAD_DIRECTIONS px py];
    eexists; (split; [reflexivity|]); intros c len; unfold arrowEnd.
  - replace (- PI / 2) with (- (PI / 2)) by lra.
    rewrite cos_neg, sin_neg, cos_PI2, sin_PI2. f_equal; lra.
  - rewrite cos_PI2, sin_PI2. f_equal; lra.
  - rewrite cos_PI, sin_PI. f_equal; lra.
  - rewrite cos_0, sin_0. f_equal; lra.
Qed.

(** * Properties of the camera panel *)

(** X26: in a window no smaller than the panel, the clamped position keeps
    the panel inside the window and leaves a position alone that already
    does; clamping twice is clamping once; and the default position, a gap
    away from the right and the bottom, is left alone when the window has
    room for the gap. *)
Theorem panel_position (innerWidth innerHeight x y width height : R) :
  width <= innerWidth -> height <= innerHeight ->
  let p := clampPosition innerWidth innerHeight x y width height in
  0 <= px p /\ px p + width <= innerWidth /\
  0 <= py p /\ py p + height <= innerHeight /\
  (0 <= x <= innerWidth - width -> px p = x) /\
  (0 <= y <= innerHeight - height -> py p = y) /\
  clampPosition innerWidth innerHeight (px p) (py p) width height = p /\
  (width + GAP <= innerWidth -> height + GAP <= innerHeight ->
   let d := getDefaultPosition innerWidth innerHeight width height in
   clampPosition innerWidth innerHeight (px d) (py d) width height = d).
Proof.
  intros Hw Hh. cbv zeta. unfold clampPosition, getDefaultPosition, GAP.
  cbn [px py].
  split; [minmax|]. split; [minmax|]. split; [minmax|]. split; [minmax|].
  split; [intros H; minmax|]. split; [intros H; minmax|].
  split; [f_equal; minmax|]. intros H1 H2. f_equal; minmax.
Qed.

(** A panel dragged past the corner of a window of 1280 by 720. *)
Lemma panel_position_witness :
  280 <= 1280 /\ 220 <= 720
  /\ 0 <= px (clampPosition 1280 720 2000 (-5) 280 220).
Proof.
  assert (H1 : 280 <= 1280) by lra. assert (H2 : 220 <= 720) by lra.
  split; [exact H1|]. split; [exact H2|].
  exact (proj1 (panel_position 1280 720 2000 (-5) 280 220 H1 H2)).
Defined.

(** X27: a stored size is taken exactly when its width is at least
    [MIN_WIDTH] and its height is between [MIN_HEIGHT] and [MAX_HEIGHT]; the
    width is not held against [MAX_WIDTH], and a larger one comes back as
    [MAX_WIDTH]; what comes back is within the limits of the panel, with the
    stored height and the stored position. *)
Theorem saved_size (data : Saved) :
  (loadSaved (Some data) <> None <->
   MIN_WIDTH <= sv_width data /\
   MIN_HEIGHT <= sv_height data <= MAX_HEIGHT) /\
  forall s, loadSaved (Some data) = Some s ->
    MIN_WIDTH <= sv_width s <= MAX_WIDTH /\
    MIN_HEIGHT <= sv_height s <= MAX_HEIGHT /\
    sv_width s = Rmin MAX_WIDTH (sv_width data) /\
    sv_height s = sv_height data /\
    sv_x s = sv_x data /\ sv_y s = sv_y data.
Proof.
  unfold loadSaved.
  destruct (Rleb MIN_WIDTH (sv_width data) && Rleb (sv_height data) MAX_WIDTH
            && Rleb MIN_HEIGHT (sv_height data)
            && Rleb (sv_height data) MAX_HEIGHT) eqn:E.
  - rewrite !andb_true_iff, !Rleb_true in E.
    destruct E as [[[H1 H2] H3] H4]. split.
    + split; [intros _; lra|discriminate].
    + intros s [= <-]. cbn [sv_width sv_height sv_x sv_y].
      unfold MIN_WIDTH, MAX_WIDTH, MIN_HEIGHT, MAX_HEIGHT in *.
      repeat split; minmax.
  - split; [|discriminate]. split; [easy|].
    intros (H1 & H3 & H4).
    assert (H2 : sv_height data <= MAX_WIDTH).
    { unfold MAX_WIDTH, MAX_HEIGHT in *. lra. }
    apply Rleb_true in H1, H2, H3, H4. now rewrite H1, H2, H3, H4 in E.
Qed.

(** * Properties of the grid game *)

Lemma sameCell_eq (a b : SnakeApp.Cell) :
  SnakeApp.sameCell a b = true <-> a = b.
Proof.
  unfold SnakeApp.sameCell. rewrite andb_true_iff, !Z.eqb_eq.
  destruct a, b; cbn. split; [now intros [-> ->]|now intros [= -> ->]].
Qed.

Lemma occupied_In (l : list SnakeApp.Cell) (spot : SnakeApp.Cell) :
  SnakeApp.occupied l spot = true <-> In spot l.
Proof.
  unfold SnakeApp.occupied. rewrite existsb_exists. split.
  - intros (c & Hc & E). apply sameCell_eq in E. now subst.
  - intros H. exists spot. split; [exact H|now apply sameCell_eq].
Qed.

Lemma floor_bounds (x : R) : IZR (floor x) <= x < IZR (floor x) + 1.
Proof.
  unfold floor. rewrite minus_IZR. destruct (archimed x). lra.
Qed.

Lemma draw_inGrid (random : Random) (k : nat) :
  unitRandom random -> inGrid (SnakeApp.draw random k).
Proof.
  intros Hr. unfold inGrid, SnakeApp.draw, SnakeApp.GRID_SIZE.
  cbn [SnakeApp.cx SnakeApp.cy].
  assert (H : forall r, 0 <= r < 1 -> (0 <= floor (r * 18) < 18)%Z).
  { intros r Hr'. pose proof (floor_bounds (r * 18)) as Hb.
    split.
    - assert (Hlt : (-1 < floor (r * 18))%Z) by (apply lt_IZR; lra). lia.
    - apply lt_IZR. lra. }
  split; apply H, Hr.
Qed.

Lemma randomFood_sound (fuel : nat) (random : Random)
    (snake : list SnakeApp.Cell) :
  unitRandom random ->
  forall k spot, SnakeApp.randomFood fuel random k snake = Some spot ->
    inGrid spot /\ ~ In spot snake.
Proof.
  intros Hr.
  induction fuel as [|fuel IH]; intros k spot H;
    cbn [SnakeApp.randomFood] in H; [discriminate|].
  destruct (SnakeApp.occupied snake (SnakeApp.draw random k)) eqn:E.
  - now apply (IH (S (S k))).
  - injection H as <-. split; [now apply draw_inGrid|].
    intros Hin. apply occupied_In in Hin. now rewrite Hin in E.
Qed.

(** X28: with draws of [Math.random] in [[0, 1)], the food that
    [randomFood] returns is on the board and not on the snake; and it
    returns as soon as one of the draws it is given falls on a free
    cell. *)
Theorem randomFood_free (fuel : nat) (random : Random) (k : nat)
    (snake : list SnakeApp.Cell) :
  unitRandom random ->
  (forall spot, SnakeApp.randomFood fuel random k snake = Some spot ->
     inGrid spot /\ ~ In spot snake) /\
  (forall j, (j < fuel)%nat ->
     SnakeApp.occupied snake (SnakeApp.draw random (k + 2 * j)) = false ->
     exists spot, SnakeApp.randomFood fuel random k snake = Some spot).
Proof.
  intros Hr. split.
  - intros spot. now apply randomFood_sound.
  - revert k. induction fuel as [|fuel IH]; intros k j Hj Hfree; [lia|].
    cbn [SnakeApp.randomFood].
    destruct (SnakeApp.occupied snake (SnakeApp.draw random k)) eqn:E;
      [|now eexists].
    destruct j as [|j].
    + replace (k + 2 * 0)%nat with k in Hfree by lia. now rewrite Hfree in E.
    + apply (IH (S (S k)) j); [lia|].
      now replace (S (S k) + 2 * j)%nat with (k + 2 * S j)%nat by lia.
Qed.

(** Draws on the corner of the board, with the snake elsewhere. *)
Lemma randomFood_free_witness :
  unitRandom (fun _ => 0)
  /\ exists spot,
      SnakeApp.randomFood 1 (fun _ => 0) 0 [SnakeApp.mkCell 6 9] = Some spot.
Proof.
  assert (H : unitRandom (fun _ => 0)) by (intros k; lra).
  split; [exact H|].
  apply (proj2 (randomFood_free 1 (fun _ => 0) 0 [SnakeApp.mkCell 6 9] H)
               0%nat); [lia|].
  unfold SnakeApp.draw, SnakeApp.GRID_SIZE. rewrite Rmult_0_l.
  change 0 with (IZR 0). rewrite floor_IZR. reflexivity.
Defined.

(** ** The step of the interval *)

Lemma removelast_In {A} (l : list A) (x : A) :
  In x (removelast l) -> In x l.
Proof.
  induction l as [|a tl IH]; [easy|]. cbn [removelast].
  destruct tl as [|b tl]; [easy|].
  intros [<-|H]; [now left|right; now apply IH].
Qed.

Lemma removelast_nth {A} (l : list A) (i : nat) (x : A) :
  nth_error (removelast l) i = Some x -> nth_error l i = Some x.
Proof.
  revert i. induction l as [|a tl IH]; intros i; [now destruct i|].
  cbn [removelast]. destruct tl as [|b tl]; [now destruct i|].
  destruct i as [|i]; [easy|]. cbn [nth_error]. apply IH.
Qed.

Lemma removelast_NoDup {A} (l : list A) : NoDup l -> NoDup (removelast l).
Proof.
  induction 1 as [|a tl Ha _ IH]; [constructor|]. cbn [removelast].
  destruct tl as [|b tl]; [constructor|].
  constructor; [|exact IH]. intros H. now apply Ha, removelast_In.
Qed.

Lemma removelast_length {A} (l : list A) : forall a : A,
  List.length (removelast (a :: l)) = List.length l.
Proof.
  induction l as [|b tl IH]; intros a; [reflexivity|].
  change (removelast (a :: b :: tl)) with (a :: removelast (b :: tl)).
  cbn [List.length]. now rewrite IH.
Qed.

Lemma removelast_gridOk (h : SnakeApp.Cell) (l : list SnakeApp.Cell) :
  l <> [] -> gridOk (h :: l) -> gridOk (removelast (h :: l)).
Proof.
  intros Hne (_ & Hg & Hn & Hl). split; [|split; [|split]].
  - cbn [removelast]. now destruct l.
  - apply Forall_forall. intros x Hx. rewrite Forall_forall in Hg.
    now apply Hg, removelast_In.
  - now apply removelast_NoDup.
  - intros i a b Ha Hb. apply removelast_nth in Ha, Hb. now apply (Hl i).
Qed.

(** X29: a round of the interval on a snake that is on the board, on
    distinct cells and in one piece, with a queued direction of one step,
    and a food search that returns if the step eats: the round returns, and
    the snake is again on the board, on distinct cells and in one piece.
    Either the step hits a wall or the snake, and the game stops with the
    snake and the score as they were and the best score raised to the
    score; or the head moves one step in the queued direction, and either
    it reaches the food, the snake is one longer, the score ten higher and
    the new food on a free cell of the board, or the length, the score and
    the food stay. *)
Theorem snake_step (fuel : nat) (random : Random) (queued : SnakeApp.Cell)
    (g : SnakeApp.Game) :
  gridOk (SnakeApp.snake g) ->
  isUnit queued ->
  unitRandom random ->
  (forall h, stepHead g queued = Some h -> h = SnakeApp.food g ->
             SnakeApp.randomFood fuel random 0 (h :: SnakeApp.snake g)
             <> None) ->
  exists g' h,
    SnakeApp.interval fuel random queued g = Some g' /\
    stepHead g queued = Some h /\
    gridOk (SnakeApp.snake g') /\
    SnakeApp.direction g' = queued /\
    ((~ inGrid h \/ In h (SnakeApp.snake g)) /\
     SnakeApp.running g' = false /\
     SnakeApp.status g' = "Game Over"%string /\
     SnakeApp.snake g' = SnakeApp.snake g /\
     SnakeApp.score g' = SnakeApp.score g /\
     SnakeApp.best g' = Z.max (SnakeApp.best g) (SnakeApp.score g)
     \/
     inGrid h /\ ~ In h (SnakeApp.snake g) /\
     SnakeApp.running g' = SnakeApp.running g /\
     nth_error (SnakeApp.snake g') 0 = Some h /\
     SnakeApp.best g' = SnakeApp.best g /\
     (h = SnakeApp.food g /\
      SnakeApp.snake g' = h :: SnakeApp.snake g /\
      SnakeApp.score g' = (SnakeApp.score g + 10)%Z /\
      inGrid (SnakeApp.food g') /\
      ~ In (SnakeApp.food g') (SnakeApp.snake g')
      \/
      h <> SnakeApp.food g /\
      List.length (SnakeApp.snake g') = List.length (SnakeApp.snake g) /\
      SnakeApp.score g' = SnakeApp.score g /\
      SnakeApp.food g' = SnakeApp.food g)).
Proof.
  intros Hok Hu Hr Hfood. unfold SnakeApp.interval, stepHead in *.
  destruct Hok as (Hne & Hg & Hn & Hl).
  destruct (SnakeApp.snake g) as [|head tl] eqn:Es; [easy|].
  cbn [nth_error bind option_map] in *.
  set (h := SnakeApp.mkCell (SnakeApp.cx head + SnakeApp.cx queued)
                            (SnakeApp.cy head + SnakeApp.cy queued)) in *.
  specialize (Hfood h eq_refl).
  assert (Hwall : (Z.ltb (SnakeApp.cx h) 0 || Z.ltb (SnakeApp.cy h) 0
                   || Z.leb SnakeApp.GRID_SIZE (SnakeApp.cx h)
                   || Z.leb SnakeApp.GRID_SIZE (SnakeApp.cy h)) = false
                  <-> inGrid h).
  { unfold inGrid. rewrite !orb_false_iff, !Z.ltb_ge, !Z.leb_gt. lia. }
  assert (Hself : existsb (fun seg => SnakeApp.sameCell seg h) (head :: tl)
                  = true <-> In h (head :: tl)).
  { rewrite existsb_exists. split.
    - intros (c & Hc & E). apply sameCell_eq in E. now subst.
    - intros H. exists h. split; [exact H|now apply sameCell_eq]. }
  assert (Hok : gridOk (head :: tl)) by (repeat split; assumption).
  destruct (Z.ltb (SnakeApp.cx h) 0 || Z.ltb (SnakeApp.cy h) 0
            || Z.leb SnakeApp.GRID_SIZE (SnakeApp.cx h)
            || Z.leb SnakeApp.GRID_SIZE (SnakeApp.cy h)) eqn:Ew.
  - cbn [orb]. eexists _, h. split; [reflexivity|]. split; [reflexivity|].
    cbn [SnakeApp.snake SnakeApp.direction SnakeApp.running SnakeApp.status
         SnakeApp.score SnakeApp.best].
    split; [exact Hok|]. split; [reflexivity|]. left.
    split; [|now repeat split]. left. intros Hin. apply Hwall in Hin.
    discriminate.
  - cbn [orb]. pose proof (proj1 Hwall eq_refl) as Hin.
    destruct (existsb (fun seg => SnakeApp.sameCell seg h) (head :: tl)) eqn:Ee.
    + eexists _, h. split; [reflexivity|]. split; [reflexivity|].
      cbn [SnakeApp.snake SnakeApp.direction SnakeApp.running SnakeApp.status
           SnakeApp.score SnakeApp.best].
      split; [exact Hok|]. split; [reflexivity|]. left.
      split; [|now repeat split]. right. now apply Hself.
    + assert (Hfresh : ~ In h (head :: tl)).
      { intros H. apply Hself in H. discriminate. }
      assert (Hnext : gridOk (h :: head :: tl)).
      { split; [discriminate|]. split; [now constructor|].
        split; [now constructor|].
        intros i a b Ha Hb. destruct i as [|i].
        - cbn [nth_error] in Ha, Hb. injection Ha as <-. injection Hb as <-.
          unfold isUnit in Hu. unfold h. cbn [SnakeApp.cx SnakeApp.cy]. lia.
        - cbn [nth_error] in Ha, Hb. now apply (Hl i). }
      destruct (SnakeApp.sameCell h (SnakeApp.food g)) eqn:Ef.
      * apply sameCell_eq in Ef.
        specialize (Hfood Ef).
        destruct (SnakeApp.randomFood fuel random 0 (h :: head :: tl))
          as [spot|] eqn:Erf; [|easy].
        destruct (randomFood_sound fuel random (h :: head :: tl) Hr 0%nat
                                   spot Erf) as [Hsg Hsf].
        cbn [bind]. eexists _, h. split; [reflexivity|]. split; [reflexivity|].
        cbn [SnakeApp.snake SnakeApp.direction SnakeApp.running
             SnakeApp.status SnakeApp.score SnakeApp.best SnakeApp.food].
        split; [exact Hnext|]. split; [reflexivity|]. right.
        split; [exact Hin|]. split; [exact Hfresh|]. split; [reflexivity|].
        split; [reflexivity|]. split; [reflexivity|]. left.
        split; [exact Ef|]. split; [reflexivity|]. split; [reflexivity|].
        split; [exact Hsg|exact Hsf].
      * assert (Hnf : h <> SnakeApp.food g).
        { intros E. apply sameCell_eq in E. now rewrite E in Ef. }
        eexists _, h. split; [reflexivity|]. split; [reflexivity|].
        cbn [SnakeApp.snake SnakeApp.direction SnakeApp.running
             SnakeApp.status SnakeApp.score SnakeApp.best SnakeApp.food].
        split; [apply removelast_gridOk; [discriminate|exact Hnext]|].
        split; [reflexivity|]. right.
        split; [exact Hin|]. split; [exact Hfresh|]. split; [reflexivity|].
        split; [reflexivity|]. split; [reflexivity|]. right.
        split; [exact Hnf|]. split; [|now split].
        apply removelast_length.
Qed.

Lemma freshGame_gridOk (food : SnakeApp.Cell) :
  gridOk (SnakeApp.snake (freshGame food)).
Proof.
  cbn [freshGame SnakeApp.snake]. split; [discriminate|].
  split; [|split].
  - repeat constructor; cbn; unfold SnakeApp.GRID_SIZE; lia.
  - repeat constructor; cbn; intuition discriminate.
  - intros i a b Ha Hb.
    destruct i as [|[|[|i]]]; cbn [nth_error] in Ha, Hb;
      try discriminate; try (destruct i; discriminate);
      injection Ha as <-; injection Hb as <-; cbn; lia.
Qed.

(** The first round of a fresh game, with the food in a corner. *)
Lemma snake_step_witness :
  gridOk (SnakeApp.snake (freshGame (SnakeApp.mkCell 0 0)))
  /\ isUnit (SnakeApp.mkCell 1 0)
  /\ unitRandom (fun _ => 0)
  /\ exists g',
      SnakeApp.interval 1 (fun _ => 0) (SnakeApp.mkCell 1 0)
                        (freshGame (SnakeApp.mkCell 0 0)) = Some g' /\
      gridOk (SnakeApp.snake g').
Proof.
  pose proof (freshGame_gridOk (SnakeApp.mkCell 0 0)) as H1.
  assert (H2 : isUnit (SnakeApp.mkCell 1 0)) by reflexivity.
  assert (H3 : unitRandom (fun _ => 0)) by (intros k; lra).
  assert (H4 : forall h,
            stepHead (freshGame (SnakeApp.mkCell 0 0)) (SnakeApp.mkCell 1 0)
            = Some h ->
            h = SnakeApp.food (freshGame (SnakeApp.mkCell 0 0)) ->
            SnakeApp.randomFood 1 (fun _ => 0) 0
              (h :: SnakeApp.snake (freshGame (SnakeApp.mkCell 0 0)))
            <> None).
  { intros h [= <-] _. cbn [SnakeApp.randomFood].
    unfold SnakeApp.draw, SnakeApp.GRID_SIZE. rewrite Rmult_0_l.
    change 0 with (IZR 0). rewrite floor_IZR. cbn. discriminate. }
  split; [exact H1|]. split; [exact H2|]. split; [exact H3|].
  destruct (snake_step 1 (fun _ => 0) (SnakeApp.mkCell 1 0)
              (freshGame (SnakeApp.mkCell 0 0)) H1 H2 H3 H4)
    as (g' & h & Hi & _ & Hok & _).
  now exists g'.
Defined.

(** ** The inputs of the grid game *)

Lemma DIRECTIONS_unit (key : string) (d : SnakeApp.Cell) :
  SnakeApp.DIRECTIONS key = Some d -> isUnit d.
Proof.
  unfold SnakeApp.DIRECTIONS.
  repeat match goal with
         | |- context [String.eqb ?a ?b] => destruct (String.eqb a b)
         end; intros [= <-]; reflexivity.
Qed.

Lemma handleKey_cases (direction queued : SnakeApp.Cell) (key : string) :
  SnakeApp.handleKey direction queued key = queued \/
  SnakeApp.reverses direction (SnakeApp.handleKey direction queued key)
  = false /\
  isUnit (SnakeApp.handleKey direction queued key).
Proof.
  unfold SnakeApp.handleKey.
  destruct (SnakeApp.DIRECTIONS key) as [next|] eqn:E; [|now left].
  destruct (SnakeApp.reverses direction next) eqn:Er; [now left|].
  right. split; [exact Er|]. now apply (DIRECTIONS_unit key).
Qed.

(** X30: whatever keys are pressed between two rounds, the queued
    direction stays the one it was or becomes one step of [DIRECTIONS], and
    it is never the reverse of the direction of the last round, so that the
    next round does not move the head onto the segment behind it; the head
    tracker changes the queued direction only after the cooldown and never
    to the reverse of the queued one, which can be the reverse of the
    direction of the last round. *)
Theorem keys_never_reverse (keys : list string)
    (direction queued : SnakeApp.Cell) :
  SnakeApp.reverses direction queued = false ->
  let q := fold_left (SnakeApp.handleKey direction) keys queued in
  SnakeApp.reverses direction q = false /\
  (q = queued \/ isUnit q) /\
  (forall g head neck rest,
     SnakeApp.snake g = head :: neck :: rest ->
     direction = SnakeApp.mkCell (SnakeApp.cx head - SnakeApp.cx neck)
                                 (SnakeApp.cy head - SnakeApp.cy neck) ->
     stepHead g q <> Some neck) /\
  (forall now last d,
     let r := SnakeApp.headInput now last q d in
     r = (q, last) \/
     r = (SnakeApp.HEAD_DIRECTIONS d, now) /\
     now - last > SnakeApp.DIRECTION_COOLDOWN /\
     SnakeApp.reverses q (SnakeApp.HEAD_DIRECTIONS d) = false) /\
  (exists key d now last,
     SnakeApp.reverses (SnakeApp.mkCell 1 0)
       (fst (SnakeApp.headInput now last
               (SnakeApp.handleKey (SnakeApp.mkCell 1 0)
                                   (SnakeApp.mkCell 1 0) key) d))
     = true).
Proof.
  intros Hq. cbv zeta.
  assert (H : SnakeApp.reverses direction
                (fold_left (SnakeApp.handleKey direction) keys queued) = false
              /\ (fold_left (SnakeApp.handleKey direction) keys queued = queued
                  \/ isUnit (fold_left (SnakeApp.handleKey direction) keys
                                       queued))).
  { revert queued Hq. induction keys as [|key tl IH]; intros queued Hq;
      cbn [fold_left]; [now split; [|left]|].
    destruct (handleKey_cases direction queued key) as [E|[Hr Hu]].
    - rewrite E. now apply IH.
    - destruct (IH _ Hr) as [Hr' [E|Hu']].
      + split; [exact Hr'|]. right. now rewrite E.
      + split; [exact Hr'|now right]. }
  destruct H as [Hr Hu].
  set (q := fold_left (SnakeApp.handleKey direction) keys queued) in *.
  split; [exact Hr|]. split; [exact Hu|]. split; [|split].
  - intros g head neck rest Es Ed. unfold stepHead. rewrite Es.
    cbn [nth_error option_map]. intros [= E]. subst neck.
    rewrite Ed in Hr. unfold SnakeApp.reverses in Hr.
    cbn [SnakeApp.cx SnakeApp.cy] in Hr.
    apply andb_false_iff in Hr. rewrite !Z.eqb_neq in Hr. lia.
  - intros now last d. cbv zeta. unfold SnakeApp.headInput.
    destruct (Rgt_dec (now - last) SnakeApp.DIRECTION_COOLDOWN) as [Hc|Hc];
      [|now left].
    destruct (SnakeApp.reverses q (SnakeApp.HEAD_DIRECTIONS d)) eqn:Er;
      cbn [negb]; [now left|]. right. now repeat split.
  - exists "ArrowUp"%string, LEFT, 121, 0.
    unfold SnakeApp.headInput, SnakeApp.DIRECTION_COOLDOWN.
    destruct (Rgt_dec (121 - 0) 120) as [_|H]; [reflexivity|lra].
Qed.

(** The right key and the up key, while the snake moves to the right. *)
Lemma keys_never_reverse_witness :
  SnakeApp.reverses (SnakeApp.mkCell 1 0) (SnakeApp.mkCell 1 0) = false
  /\ SnakeApp.reverses (SnakeApp.mkCell 1 0)
       (fold_left (SnakeApp.handleKey (SnakeApp.mkCell 1 0))
                  ["ArrowLeft"; "ArrowUp"]%string (SnakeApp.mkCell 1 0))
     = false.
Proof.
  split; [reflexivity|].
  exact (proj1 (keys_never_reverse ["ArrowLeft"; "ArrowUp"]%string
                  (SnakeApp.mkCell 1 0) (SnakeApp.mkCell 1 0) eq_refl)).
Defined.
